(** * The entity tree of the momentum engine

    A shallow embedding of [src/classes/entity.js]: the scene-graph node with
    its transform and physics state, the per-frame cache of the position
    composed through the parent chain, the child life cycle and the
    update / render traversals.

    JavaScript numbers that carry coordinates, velocities, masses and
    elapsed time are IEEE-754 doubles and are modelled by Rocq's primitive
    floats. Millisecond timestamps, the frame counter and the render counter
    hold integers far below 2^53, where double arithmetic is exact; they are
    modelled by [Z].

    Objects live in a store indexed by references, so that the parent
    back-reference, the child arrays and the references to the scene are
    shared exactly as in the program. Recursion through the tree takes
    fuel: a run out of fuel is a run whose call stack overflows.

    The properties [state] and [_lastRelativeSizeCalculated] of an entity,
    which no method reads, are left out.

    The constructor of [src/classes/audio.js] is embedded in the module
    [Audio]. *)

From Stdlib Require Import ZArith Floats.
From stdpp Require Import gmap list strings relations.

(** ** Values *)

(** References to objects of the store. *)
Abbreviation loc := positive (only parsing).

(** The JavaScript values that flow through [display] and through the
    results of the [update] and [render] hooks. *)
Inductive JSVal : Type :=
  | VUndefined
  | VNull
  | VBool (b : bool)
  | VNum (n : float)
  | VStr (s : string)
  | VObj.

(** ToBoolean. *)
Definition truthy (v : JSVal) : bool :=
  match v with
  | VUndefined | VNull => false
  | VBool b => b
  | VNum n => negb (PrimFloat.eqb n 0 || PrimFloat.is_nan n)
  | VStr s => negb (String.eqb s EmptyString)
  | VObj => true
  end.

(** [typeof v == "undefined"]. *)
Definition is_undefined (v : JSVal) : bool :=
  match v with VUndefined => true | _ => false end.

(** ToNumber of a property that is either unset or a number. *)
Definition to_number (o : option float) : float :=
  match o with Some n => n | None => nan end.

Module Vector2D.

(** Modelled from the spec: the class Vector2D ([src/classes/vector2d.js]
    is not among the sources). [add] and [multiply] change the receiver in
    place and return it, [dot] is a pure scalar product and [clone] gives
    an independent copy. A vector is held by value in the object that owns
    it, so the in-place operations become functions whose result the
    caller stores back. *)
Record t : Type := mk { x : float; y : float }.

Definition add (v other : t) : t :=
  mk (x v + x other)%float (y v + y other)%float.

Definition multiply (v : t) (scalar : float) : t :=
  mk (x v * scalar)%float (y v * scalar)%float.

Definition dot (v other : t) : float :=
  (x v * x other + y v * y other)%float.

Definition clone (v : t) : t := mk (x v) (y v).

Definition zero : t := mk 0%float 0%float.

End Vector2D.

(** ** Objects *)

(** Hooks are named: the store holds the name, the code the name stands for
    is given once for the whole development (see [Section Engine]). *)
Abbreviation hook := nat (only parsing).

Record Entity : Type := mkEntity {
  pos : Vector2D.t;
  velocity : Vector2D.t;
  acceleration : Vector2D.t;
  size : Vector2D.t;
  rotation : float;
  display : JSVal;
  fields : list loc;
  children : list loc;
  _relativePos : Vector2D.t;
  _lastRelativePosCalculated : Z;
  _game : option loc;
  _parent : option loc;
  _creationTime : Z;
  (* properties the constructor does not set *)
  timeToLive : option Z;
  mass : option float;
  update : option hook;
  render : option hook
}.

(** Modelled from the spec: the scene (game) object, of which the sources
    hold only the uses. It supplies the frame counter and accumulates the
    number of renders of a frame. *)
Record Game : Type := mkGame {
  frameCounter : Z;
  _lastFrameTotalRenders : Z
}.

(** What a hook can reach: the entities and the scenes. *)
Record Heap : Type := mkHeap {
  ents : gmap loc Entity;
  games : gmap loc Game
}.

(** Calls observed during a traversal. *)
Inductive Event : Type :=
  | EUpdate (e : loc)        (* _updateEntity entered on e *)
  | EUpdateHook (e : loc)    (* e.update(delta) called *)
  | ERender (e : loc)        (* _renderEntity entered on e *)
  | ERenderHook (e : loc).   (* e.render() called *)

Record State : Type := mkState {
  heap : Heap;
  clock : Z;                 (* what Date.now() returns *)
  trace : list Event
}.

(** ** Field updates *)

Definition with_pos (v : Vector2D.t) (e : Entity) : Entity :=
  mkEntity v (velocity e) (acceleration e) (size e) (rotation e) (display e)
    (fields e) (children e) (_relativePos e) (_lastRelativePosCalculated e)
    (_game e) (_parent e) (_creationTime e) (timeToLive e) (mass e)
    (update e) (render e).

Definition with_velocity (v : Vector2D.t) (e : Entity) : Entity :=
  mkEntity (pos e) v (acceleration e) (size e) (rotation e) (display e)
    (fields e) (children e) (_relativePos e) (_lastRelativePosCalculated e)
    (_game e) (_parent e) (_creationTime e) (timeToLive e) (mass e)
    (update e) (render e).

Definition with_children (l : list loc) (e : Entity) : Entity :=
  mkEntity (pos e) (velocity e) (acceleration e) (size e) (rotation e)
    (display e) (fields e) l (_relativePos e) (_lastRelativePosCalculated e)
    (_game e) (_parent e) (_creationTime e) (timeToLive e) (mass e)
    (update e) (render e).

Definition with_relativePos (v : Vector2D.t) (e : Entity) : Entity :=
  mkEntity (pos e) (velocity e) (acceleration e) (size e) (rotation e)
    (display e) (fields e) (children e) v (_lastRelativePosCalculated e)
    (_game e) (_parent e) (_creationTime e) (timeToLive e) (mass e)
    (update e) (render e).

Definition with_lastRelativePosCalculated (n : Z) (e : Entity) : Entity :=
  mkEntity (pos e) (velocity e) (acceleration e) (size e) (rotation e)
    (display e) (fields e) (children e) (_relativePos e) n
    (_game e) (_parent e) (_creationTime e) (timeToLive e) (mass e)
    (update e) (render e).

Definition with_game (g : option loc) (e : Entity) : Entity :=
  mkEntity (pos e) (velocity e) (acceleration e) (size e) (rotation e)
    (display e) (fields e) (children e) (_relativePos e)
    (_lastRelativePosCalculated e) g (_parent e) (_creationTime e)
    (timeToLive e) (mass e) (update e) (render e).

Definition with_parent (p : option loc) (e : Entity) : Entity :=
  mkEntity (pos e) (velocity e) (acceleration e) (size e) (rotation e)
    (display e) (fields e) (children e) (_relativePos e)
    (_lastRelativePosCalculated e) (_game e) p (_creationTime e)
    (timeToLive e) (mass e) (update e) (render e).

Definition with_display (v : JSVal) (e : Entity) : Entity :=
  mkEntity (pos e) (velocity e) (acceleration e) (size e) (rotation e)
    v (fields e) (children e) (_relativePos e)
    (_lastRelativePosCalculated e) (_game e) (_parent e) (_creationTime e)
    (timeToLive e) (mass e) (update e) (render e).

Definition with_fields (l : list loc) (e : Entity) : Entity :=
  mkEntity (pos e) (velocity e) (acceleration e) (size e) (rotation e)
    (display e) l (children e) (_relativePos e)
    (_lastRelativePosCalculated e) (_game e) (_parent e) (_creationTime e)
    (timeToLive e) (mass e) (update e) (render e).

Definition with_timeToLive (t : option Z) (e : Entity) : Entity :=
  mkEntity (pos e) (velocity e) (acceleration e) (size e) (rotation e)
    (display e) (fields e) (children e) (_relativePos e)
    (_lastRelativePosCalculated e) (_game e) (_parent e) (_creationTime e)
    t (mass e) (update e) (render e).

Definition with_mass (m : option float) (e : Entity) : Entity :=
  mkEntity (pos e) (velocity e) (acceleration e) (size e) (rotation e)
    (display e) (fields e) (children e) (_relativePos e)
    (_lastRelativePosCalculated e) (_game e) (_parent e) (_creationTime e)
    (timeToLive e) m (update e) (render e).

Definition with_update (h : option hook) (e : Entity) : Entity :=
  mkEntity (pos e) (velocity e) (acceleration e) (size e) (rotation e)
    (display e) (fields e) (children e) (_relativePos e)
    (_lastRelativePosCalculated e) (_game e) (_parent e) (_creationTime e)
    (timeToLive e) (mass e) h (render e).

Definition with_render (h : option hook) (e : Entity) : Entity :=
  mkEntity (pos e) (velocity e) (acceleration e) (size e) (rotation e)
    (display e) (fields e) (children e) (_relativePos e)
    (_lastRelativePosCalculated e) (_game e) (_parent e) (_creationTime e)
    (timeToLive e) (mass e) (update e) h.

Definition with_renders (n : Z) (g : Game) : Game :=
  mkGame (frameCounter g) n.

Definition with_frameCounter (n : Z) (g : Game) : Game :=
  mkGame n (_lastFrameTotalRenders g).

Definition with_ents (m : gmap loc Entity) (h : Heap) : Heap :=
  mkHeap m (games h).

Definition with_games (m : gmap loc Game) (h : Heap) : Heap :=
  mkHeap (ents h) m.

Definition with_heap (h : Heap) (s : State) : State :=
  mkState h (clock s) (trace s).

Definition with_clock (t : Z) (s : State) : State :=
  mkState (heap s) t (trace s).

(** ** Outcomes and the monad of the engine *)

Inductive Error : Type :=
  | TypeError      (* a property of null was read *)
  | DanglingRef    (* a reference outside the store: no JavaScript run has it *)
  | OutOfFuel.     (* the call stack is exhausted *)

(** A failed run keeps the state it failed in: what was done before a
    throw stays done. *)
Inductive Result (A : Type) : Type :=
  | Ok (a : A) (s : State)
  | Err (e : Error) (s : State).
Arguments Ok {A} a s.
Arguments Err {A} e s.

Definition final {A} (r : Result A) : State :=
  match r with Ok _ s => s | Err _ s => s end.

Definition M (A : Type) : Type := State -> Result A.

Definition ret {A} (a : A) : M A := fun s => Ok a s.

Definition bind {A B} (m : M A) (k : A -> M B) : M B :=
  fun s => match m s with
           | Ok a s' => k a s'
           | Err e s' => Err e s'
           end.

Definition throw {A} (e : Error) : M A := fun s => Err e s.

Declare Scope engine_scope.
Delimit Scope engine_scope with engine.
Notation "x <- m ;; k" := (bind m (fun x => k))
  (at level 100, m at next level, right associativity) : engine_scope.
Notation "m ;;; k" := (bind m (fun _ => k))
  (at level 100, right associativity) : engine_scope.
Open Scope engine_scope.

Definition get_ent (l : loc) : M Entity :=
  fun s => match ents (heap s) !! l with
           | Some e => Ok e s
           | None => Err DanglingRef s
           end.

(** The state in which object [l] is the entity [e]. *)
Definition store (l : loc) (e : Entity) (s : State) : State :=
  with_heap (with_ents (<[l := e]> (ents (heap s))) (heap s)) s.

(** The state in which object [g] is the scene [gm]. *)
Definition store_game (g : loc) (gm : Game) (s : State) : State :=
  with_heap (with_games (<[g := gm]> (games (heap s))) (heap s)) s.

Definition put_ent (l : loc) (e : Entity) : M unit :=
  fun s => Ok tt (store l e s).

Definition modify_ent (l : loc) (f : Entity -> Entity) : M unit :=
  e <- get_ent l ;; put_ent l (f e).

Definition get_game (g : loc) : M Game :=
  fun s => match games (heap s) !! g with
           | Some gm => Ok gm s
           | None => Err DanglingRef s
           end.

Definition put_game (g : loc) (gm : Game) : M unit :=
  fun s => Ok tt (store_game g gm s).

Definition emit (ev : Event) : M unit :=
  fun s => Ok tt (mkState (heap s) (clock s) (trace s ++ [ev])).

Definition Date_now : M Z := fun s => Ok (clock s) s.

(** [array.forEach(cb)] on the child array of [this]: the length is read
    once, then index after index the array is read again, and an index that
    is no longer in the array is passed over. The child array of an entity
    is only ever changed in place, so it is re-read through its owner. *)
Fixpoint forEach_from (cb : loc -> M unit) (this : loc) (k n : nat) : M unit :=
  match n with
  | O => ret tt
  | S n' =>
      e <- get_ent this ;;
      match children e !! k with
      | Some c => cb c
      | None => ret tt
      end ;;;
      forEach_from cb this (S k) n'
  end.

Definition forEach_children (cb : loc -> M unit) (this : loc) : M unit :=
  e <- get_ent this ;;
  forEach_from cb this 0 (length (children e)).

(** ** The class Entity *)

Section Engine.

(** [Math.pow], which the primitive floats do not supply. *)
Variable Math_pow : float -> float -> float.

(** The code of the hooks. A hook receives the entity it is called on
    (and, for [update], the elapsed time), may change every object it can
    reach and returns a value. *)
Variable update_impl : hook -> loc -> float -> Heap -> JSVal * Heap.
Variable render_impl : hook -> loc -> Heap -> JSVal * Heap.

(** [new Entity(x, y)]. *)
Definition new_Entity (x y : float) : M loc :=
  fun s =>
    let this := fresh (dom (ents (heap s))) in
    let e :=
      {| pos := Vector2D.mk x y;
         velocity := Vector2D.mk 0 0;
         acceleration := Vector2D.mk 0 0;
         size := Vector2D.mk 0 0;
         rotation := 0;
         display := VBool true;
         fields := [];
         children := [];
         _relativePos := Vector2D.clone (Vector2D.mk x y);
         _lastRelativePosCalculated := 0;
         _game := None;
         _parent := None;
         _creationTime := clock s;
         timeToLive := None;
         mass := None;
         update := None;
         render := None |} in
    Ok this (store this e s).

(** [get left] and [get top]. *)
Definition left (this : loc) : M float :=
  e <- get_ent this ;; ret (Vector2D.x (pos e)).

Definition top (this : loc) : M float :=
  e <- get_ent this ;; ret (Vector2D.y (pos e)).

Definition assign_relativePos_x (this : loc) (v : float) : M unit :=
  modify_ent this
    (fun e => with_relativePos (Vector2D.mk v (Vector2D.y (_relativePos e))) e).

Definition assign_relativePos_y (this : loc) (v : float) : M unit :=
  modify_ent this
    (fun e => with_relativePos (Vector2D.mk (Vector2D.x (_relativePos e)) v) e).

Fixpoint _calculateRelativePos (fuel : nat) (this : loc) : M Vector2D.t :=
  match fuel with
  | O => throw OutOfFuel
  | S fuel' =>
      e <- get_ent this ;;
      stale <- match _game e with
               | None => ret false
               | Some g =>
                   gm <- get_game g ;;
                   ret (_lastRelativePosCalculated e <? frameCounter gm)%Z
               end ;;
      (if stale : bool then
         match _parent e with
         | Some p =>
             px <- left this ;;
             pl <- (v <- _calculateRelativePos fuel' p ;; ret (Vector2D.x v)) ;;
             assign_relativePos_x this (px + pl)%float ;;;
             py <- top this ;;
             pt <- (v <- _calculateRelativePos fuel' p ;; ret (Vector2D.y v)) ;;
             assign_relativePos_y this (py + pt)%float
         | None =>
             px <- left this ;;
             assign_relativePos_x this px ;;;
             py <- top this ;;
             assign_relativePos_y this py
         end ;;;
         e1 <- get_ent this ;;
         match _game e1 with
         | None => throw TypeError
         | Some g =>
             gm <- get_game g ;;
             modify_ent this (with_lastRelativePosCalculated (frameCounter gm))
         end
       else ret tt) ;;;
      e2 <- get_ent this ;;
      ret (_relativePos e2)
  end.

(** [get relativeLeft] and [get relativeTop]. *)
Definition relativeLeft (fuel : nat) (this : loc) : M float :=
  v <- _calculateRelativePos fuel this ;; ret (Vector2D.x v).

Definition relativeTop (fuel : nat) (this : loc) : M float :=
  v <- _calculateRelativePos fuel this ;; ret (Vector2D.y v).

(** [set left] and [set top]. *)
Definition set_left (fuel : nat) (this : loc) (val : float) : M unit :=
  modify_ent this
    (fun e => with_pos (Vector2D.mk val (Vector2D.y (pos e))) e) ;;;
  e <- get_ent this ;;
  match _parent e with
  | Some p =>
      px <- left this ;;
      pl <- relativeLeft fuel p ;;
      assign_relativePos_x this (px + pl)%float
  | None =>
      px <- left this ;;
      assign_relativePos_x this px
  end.

Definition set_top (fuel : nat) (this : loc) (val : float) : M unit :=
  modify_ent this
    (fun e => with_pos (Vector2D.mk (Vector2D.x (pos e)) val) e) ;;;
  e <- get_ent this ;;
  match _parent e with
  | Some p =>
      py <- top this ;;
      pt <- relativeTop fuel p ;;
      assign_relativePos_y this (py + pt)%float
  | None =>
      py <- top this ;;
      assign_relativePos_y this py
  end.

(** [this.pos.x = val] and [this.pos.y = val], written on the vector
    itself and not through the accessors. *)
Definition assign_pos_x (this : loc) (val : float) : M unit :=
  modify_ent this
    (fun e => with_pos (Vector2D.mk val (Vector2D.y (pos e))) e).

Definition assign_pos_y (this : loc) (val : float) : M unit :=
  modify_ent this
    (fun e => with_pos (Vector2D.mk (Vector2D.x (pos e)) val) e).

(** [setVelocity(x, y)] with two numbers. *)
Definition setVelocity (this : loc) (x y : float) : M unit :=
  modify_ent this (with_velocity (Vector2D.mk x y)).

Fixpoint _updateGame (fuel : nat) (this : loc) (game : option loc) : M unit :=
  match fuel with
  | O => throw OutOfFuel
  | S fuel' =>
      modify_ent this (with_game game) ;;;
      forEach_children (fun child => _updateGame fuel' child game) this
  end.

Definition push_child (this child : loc) : M unit :=
  modify_ent this (fun e => with_children (children e ++ [child]) e).

Definition createChildEntity (fuel : nat) (this : loc) : M loc :=
  child <- new_Entity 0 0 ;;
  e <- get_ent this ;;
  _updateGame fuel child (_game e) ;;;
  modify_ent child (with_parent (Some this)) ;;;
  push_child this child ;;;
  ret child.

Definition addChildEntity (fuel : nat) (this child : loc) : M loc :=
  e <- get_ent this ;;
  _updateGame fuel child (_game e) ;;;
  modify_ent child (with_parent (Some this)) ;;;
  push_child this child ;;;
  ret child.

(** The least index at which [child] stands in the array. *)
Fixpoint index_of (child : loc) (l : list loc) : option nat :=
  match l with
  | [] => None
  | c :: l' =>
      if decide (c = child) then Some O else S <$> index_of child l'
  end.

Definition detachChildEntity (this child : loc) : M bool :=
  e <- get_ent this ;;
  match index_of child (children e) with
  | Some i =>
      (* this.children.splice(i, 1) *)
      modify_ent this (fun e => with_children (delete i (children e)) e) ;;;
      ret true
  | None => ret false
  end.

(** The loop of [_calculateFields]; [acc] is its local vector
    [acceleration]. *)
Fixpoint fields_loop (fuel : nat) (delta : float) (this : loc)
    (fs : list loc) (acc : Vector2D.t) : M Vector2D.t :=
  match fs with
  | [] => ret acc
  | field :: rest =>
      fl <- relativeLeft fuel field ;;
      sl <- relativeLeft fuel this ;;
      ft <- relativeTop fuel field ;;
      st <- relativeTop fuel this ;;
      let vector := Vector2D.mk (fl - sl)%float (ft - st)%float in
      f <- get_ent field ;;
      let force :=
        (to_number (mass f) / Math_pow (Vector2D.dot vector vector) 1.5)%float in
      fields_loop fuel delta this rest
        (Vector2D.add acc
           (Vector2D.multiply (Vector2D.multiply vector force) delta))
  end.

Definition _calculateFields (fuel : nat) (delta : float) (this : loc)
    : M Vector2D.t :=
  e <- get_ent this ;;
  acc <- fields_loop fuel delta this (fields e) (Vector2D.mk 0 0) ;;
  e' <- get_ent this ;;
  ret (Vector2D.add (Vector2D.clone (acceleration e')) acc).

Definition call_update (h : hook) (this : loc) (delta : float) : M JSVal :=
  emit (EUpdateHook this) ;;;
  fun s =>
    let '(v, hp) := update_impl h this delta (heap s) in
    Ok v (with_heap hp s).

Definition call_render (h : hook) (this : loc) : M JSVal :=
  emit (ERenderHook this) ;;;
  fun s =>
    let '(v, hp) := render_impl h this (heap s) in
    Ok v (with_heap hp s).

(** [velocity.x !== 0 || velocity.y !== 0]. *)
Definition moving (v : Vector2D.t) : bool :=
  negb (PrimFloat.eqb (Vector2D.x v) 0) || negb (PrimFloat.eqb (Vector2D.y v) 0).

(** [if (this.timeToLive)] on an unset or integer property. *)
Definition ttl_set (o : option Z) : bool :=
  match o with
  | Some t => negb (t =? 0)%Z
  | None => false
  end.

(** [_updateEntity], first part: the end of the life of the entity. *)
Definition expire (this : loc) : M unit :=
  e <- get_ent this ;;
  if ttl_set (timeToLive e) then
    now <- Date_now ;;
    if (default 0 (timeToLive e) <? now - _creationTime e)%Z then
      match _parent e with
      | Some p => detachChildEntity p this ;;; ret tt
      | None => throw TypeError
      end
    else ret tt
  else ret tt.

(** [_updateEntity], second part: the new velocity and position. *)
Definition integrate (fuel : nat) (delta : float) (this : loc) : M unit :=
  e <- get_ent this ;;
  if moving (velocity e) then
    a <- _calculateFields fuel delta this ;;
    modify_ent this (fun e => with_velocity (Vector2D.add (velocity e) a) e) ;;;
    modify_ent this
      (fun e => with_pos
         (Vector2D.mk
            (Vector2D.x (pos e) + Vector2D.x (velocity e) * delta)%float
            (Vector2D.y (pos e)))
         e) ;;;
    modify_ent this
      (fun e => with_pos
         (Vector2D.mk
            (Vector2D.x (pos e))
            (Vector2D.y (pos e) + Vector2D.y (velocity e) * delta)%float)
         e)
  else ret tt.

(** [this.update && this.update(delta)]. *)
Definition run_update (delta : float) (this : loc) : M JSVal :=
  e <- get_ent this ;;
  match update e with
  | Some h => call_update h this delta
  | None => ret VUndefined
  end.

Fixpoint _updateEntity (fuel : nat) (delta : float) (this : loc) : M unit :=
  match fuel with
  | O => throw OutOfFuel
  | S fuel' =>
      emit (EUpdate this) ;;;
      expire this ;;;
      integrate fuel' delta this ;;;
      updated <- run_update delta this ;;
      e <- get_ent this ;;
      if truthy updated || is_undefined updated || bool_decide (update e = None)
      then forEach_children (_updateEntity fuel' delta) this
      else ret tt
  end.

(** [this.display && this.render && this.render()]. *)
Definition run_render (this : loc) : M JSVal :=
  e <- get_ent this ;;
  if truthy (display e) then
    match render e with
    | Some h => call_render h this
    | None => ret VUndefined
    end
  else ret (display e).

(** [this._game._lastFrameTotalRenders++]. *)
Definition count_render (this : loc) : M unit :=
  e <- get_ent this ;;
  match _game e with
  | Some g =>
      gm <- get_game g ;;
      put_game g (with_renders (_lastFrameTotalRenders gm + 1) gm)
  | None => throw TypeError
  end.

Fixpoint _renderEntity (fuel : nat) (this : loc) : M unit :=
  match fuel with
  | O => throw OutOfFuel
  | S fuel' =>
      emit (ERender this) ;;;
      rendered <- run_render this ;;
      (if truthy rendered then count_render this else ret tt) ;;;
      e <- get_ent this ;;
      if truthy rendered || is_undefined rendered || bool_decide (render e = None)
      then forEach_children (_renderEntity fuel') this
      else ret tt
  end.

(** The steps of [_updateEntity (S fuel)] and of [_renderEntity (S fuel)]
    by name, for the statements below (see [_updateEntity_unfold] and
    [_renderEntity_unfold]). *)
Definition update_children (fuel : nat) (delta : float) (this : loc)
    (updated : JSVal) : M unit :=
  e <- get_ent this ;;
  if truthy updated || is_undefined updated || bool_decide (update e = None)
  then forEach_children (_updateEntity fuel delta) this
  else ret tt.

Definition after_expire (fuel : nat) (delta : float) (this : loc) : M unit :=
  integrate fuel delta this ;;;
  updated <- run_update delta this ;;
  update_children fuel delta this updated.

Definition own_update (fuel : nat) (delta : float) (this : loc) : M JSVal :=
  emit (EUpdate this) ;;;
  expire this ;;;
  integrate fuel delta this ;;;
  run_update delta this.

Definition render_children (fuel : nat) (this : loc) (rendered : JSVal)
    : M unit :=
  e <- get_ent this ;;
  if truthy rendered || is_undefined rendered || bool_decide (render e = None)
  then forEach_children (_renderEntity fuel) this
  else ret tt.

(** Modelled from the spec: the driver of the frame loop (absent from the
    sources), which owns the frame counter and increments it once per
    render frame. *)
Definition next_frame (g : loc) : M unit :=
  gm <- get_game g ;;
  put_game g (with_frameCounter (frameCounter gm + 1) gm).

End Engine.

(** ** The class Audio *)

Module Audio.

(** An instance: the flags [_loaded] and [_error], and [_audioObj], a
    reference into the store of the instances once it is assigned. *)
Record t : Type := mk {
  _loaded : JSVal;
  _error : JSVal;
  _audioObj : option nat
}.

(** The instances allocated so far; a reference is an index. *)
Definition Store : Type := list t.

Inductive Outcome : Type :=
| Returned (this : nat) (st : Store)
| Thrown (e : Error) (st : Store).

Definition with_audioObj (o : option nat) (a : t) : t :=
  mk (_loaded a) (_error a) o.

(** [new Audio(src)]. Within the body of the class the name [Audio] is the
    class itself, so that [new Audio()] in the constructor is a call of the
    same constructor, without argument; [fuel] is the room left on the call
    stack. The class has no method [addEventListener]: the call on the
    inner instance, if it is ever reached, throws. *)
Fixpoint constructor (fuel : nat) (src : JSVal) (st : Store) : Outcome :=
  match fuel with
  | O => Thrown OutOfFuel st
  | S fuel' =>
      let this := length st in
      (* this._loaded = false; this._error = false *)
      let st1 := st ++ [mk (VBool false) (VBool false) None] in
      (* this._audioObj = new Audio() *)
      match constructor fuel' VUndefined st1 with
      | Returned inner st2 =>
          let st3 :=
            match st2 !! this with
            | Some a => <[this := with_audioObj (Some inner) a]> st2
            | None => st2
            end in
          (* this._audioObj.addEventListener(...) *)
          Thrown TypeError st3
      | Thrown e st2 => Thrown e st2
      end
  end.

End Audio.

(** ** The driver and the host, for the examples *)

(** Modelled from the spec: the scene is created by the driver, with its
    counters at zero, and the clock is the host's. *)
Definition new_Game : M loc :=
  fun s =>
    let g := fresh (dom (games (heap s))) in
    Ok g (store_game g (mkGame 0 0) s).

Definition sleep_until (t : Z) : M unit :=
  fun s => Ok tt (with_clock t s).

Definition empty_state : State := mkState (mkHeap ∅ ∅) 0 [].

(** A power of 3/2 for the examples. *)
Definition demo_pow (b e : float) : float := (b * PrimFloat.sqrt b)%float.

(** Hooks for the examples: hook 0 returns [false], hook 1 returns [true],
    every other hook returns nothing; none of them changes an object. *)
Definition demo_update (h : hook) (this : loc) (delta : float) (hp : Heap)
    : JSVal * Heap :=
  match h with
  | O => (VBool false, hp)
  | S O => (VBool true, hp)
  | _ => (VUndefined, hp)
  end.

Definition demo_render (h : hook) (this : loc) (hp : Heap) : JSVal * Heap :=
  match h with
  | O => (VBool false, hp)
  | S O => (VBool true, hp)
  | _ => (VUndefined, hp)
  end.

(** * Properties *)

(** ** Notions used in the statements *)

(** Position composed through the parent chain, as the specification words
    it: the local position of the entity added to the composed position of
    its parent, the local position alone for an entity without parent. *)
Fixpoint composed_pos (depth : nat) (m : gmap loc Entity) (this : loc)
    : option Vector2D.t :=
  match depth with
  | O => None
  | S depth' =>
      e ← m !! this;
      match _parent e with
      | None => Some (pos e)
      | Some p => Vector2D.add (pos e) <$> composed_pos depth' m p
      end
  end.

(** The cached relative position of [e] stands for the current frame: [e]
    has no scene, or the stamp of its cache is not older than the frame
    counter of its scene. This is the negation of the test of
    [_calculateRelativePos]. *)
Definition cache_current (s : State) (e : Entity) : bool :=
  match _game e with
  | None => true
  | Some g =>
      match games (heap s) !! g with
      | Some gm => negb (_lastRelativePosCalculated e <? frameCounter gm)%Z
      | None => false
      end
  end.

(** The chain of the parents of [this] ends within [depth] steps on an entity
    without parent, and every entity on it is in the store, with its scene
    if it has one. *)
Fixpoint chain_ok (depth : nat) (s : State) (this : loc) : bool :=
  match depth with
  | O => false
  | S depth' =>
      match ents (heap s) !! this with
      | None => false
      | Some e =>
          match _game e with
          | Some g => bool_decide (is_Some (games (heap s) !! g))
          | None => true
          end
          && match _parent e with
             | Some p => chain_ok depth' s p
             | None => true
             end
      end
  end.

(** The velocity a field of mass [m] at offset [D] adds over [delta], in the
    order in which [_calculateFields] computes it: [D * (m / (D.D)^1.5) *
    delta]. *)
Definition field_kick (pow : float -> float -> float) (m : float)
    (D : Vector2D.t) (delta : float) : Vector2D.t :=
  Vector2D.multiply
    (Vector2D.multiply D (m / pow (Vector2D.dot D D) 1.5)%float) delta.

(** The velocity the specification announces for the same field:
    [(D / |D|) * (m / |D|^2) * delta]. *)
Definition announced_velocity (m : float) (D : Vector2D.t) (delta : float)
    : Vector2D.t :=
  let norm := PrimFloat.sqrt (Vector2D.dot D D) in
  Vector2D.multiply
    (Vector2D.multiply (Vector2D.multiply D (1 / norm)%float)
       (m / (norm * norm))%float)
    delta.

(** Two numbers within [eps] of each other. *)
Definition within (eps a b : float) : bool :=
  PrimFloat.leb (PrimFloat.abs (a - b)%float) eps.

(** A computation keeps a relation between the state it starts in and the
    state it ends in, whether it returns or fails. *)
Definition keeps {A} (R : relation State) (m : M A) : Prop :=
  forall s, R s (final (m s)).

(** The cache of the relative position put aside. *)
Definition uncached (e : Entity) : Entity :=
  with_relativePos Vector2D.zero (with_lastRelativePosCalculated 0 e).

Definition same_but_cache : relation State :=
  fun s s' =>
    clock s = clock s' /\ trace s = trace s'
    /\ games (heap s) = games (heap s')
    /\ uncached <$> ents (heap s) = uncached <$> ents (heap s').

Definition trace_grows : relation State :=
  fun s s' => trace s `prefix_of` trace s'.

Definition same_trace : relation State :=
  fun s s' => trace s = trace s'.

(** The child arrays alone: the graph of the scene. *)
Definition kids (s : State) : gmap loc (list loc) :=
  children <$> ents (heap s).

Definition same_kids : relation State :=
  fun s s' => kids s = kids s'.

Definition child_of (K : gmap loc (list loc)) (p c : loc) : Prop :=
  exists l, K !! p = Some l /\ c ∈ l.

(** Every child is an object of the store, no entity stands in the child
    array of two entities, and no entity is among its own descendants. *)
Record tree_inv (K : gmap loc (list loc)) : Prop := mk_tree_inv {
  inv_closed : forall p c, child_of K p c -> is_Some (K !! c);
  inv_single : forall p1 p2 c, child_of K p1 c -> child_of K p2 c -> p1 = p2;
  inv_acyclic : forall x, ~ tc (child_of K) x x
}.

(** ** Scenes of the examples *)

(** A parent at (10, 0) with a child at (1, 0), never put in a scene. The
    parent is object 1 and the child object 2. *)
Definition scene_unattached : M loc :=
  p <- new_Entity 10 0 ;;
  c <- new_Entity 1 0 ;;
  addChildEntity 2 p c.

(** An entity without parent, created at time 0 with five milliseconds to
    live, seen again at time 10. It is object 1. *)
Definition scene_orphan : M loc :=
  e <- new_Entity 0 0 ;;
  modify_ent e (with_timeToLive (Some 5%Z)) ;;;
  sleep_until 10 ;;;
  ret e.

(** A root (object 1) and a child (object 2) created and attached at time
    0, the child with ten milliseconds to live; the clock then shows [t]. *)
Definition scene_ttl (t : Z) : M loc :=
  r <- new_Entity 0 0 ;;
  c <- createChildEntity 2 r ;;
  modify_ent c (with_timeToLive (Some 10%Z)) ;;;
  sleep_until t ;;;
  ret c.

(** A hidden container (object 1, [display = false], no render hook) with a
    child (object 2) whose render hook is hook 0. *)
Definition scene_hidden_container : M loc :=
  p <- new_Entity 0 0 ;;
  c <- createChildEntity 2 p ;;
  modify_ent c (with_render (Some O)) ;;;
  modify_ent p (with_display (VBool false)) ;;;
  ret p.

(** The same with a render hook (hook 1) on the container as well. *)
Definition scene_hidden_drawable : M loc :=
  p <- scene_hidden_container ;;
  modify_ent p (with_render (Some (S O))) ;;;
  ret p.

(** An entity at the origin (object 1) subject to one field (object 2) of
    mass 25 at (3, 4), with the velocity [v]; no scene. *)
Definition scene_field (v : Vector2D.t) : M loc :=
  a <- new_Entity 0 0 ;;
  f <- new_Entity 3 4 ;;
  modify_ent f (with_mass (Some 25%float)) ;;;
  modify_ent a (with_fields [f]) ;;;
  modify_ent a (with_velocity v) ;;;
  ret a.

(** The same in a scene (object 1 of the scenes) whose frame counter has
    just advanced to 1: neither relative position has been read in this
    frame. *)
Definition scene_field_in_game (v : Vector2D.t) : M loc :=
  g <- new_Game ;;
  a <- new_Entity 0 0 ;;
  f <- new_Entity 3 4 ;;
  _updateGame 1 a (Some g) ;;;
  _updateGame 1 f (Some g) ;;;
  modify_ent f (with_mass (Some 25%float)) ;;;
  modify_ent a (with_fields [f]) ;;;
  modify_ent a (with_velocity v) ;;;
  next_frame g ;;;
  ret a.

(** A scene (object 1 of the scenes) and, in it, an entity (object 1 of the
    entities) whose render hook is hook 1. *)
Definition scene_drawn : M loc :=
  g <- new_Game ;;
  e <- new_Entity 0 0 ;;
  _updateGame 1 e (Some g) ;;;
  modify_ent e (with_render (Some (S O))) ;;;
  ret e.

(** An entity with the same render hook and no scene. *)
Definition scene_drawn_nowhere : M loc :=
  e <- new_Entity 0 0 ;;
  modify_ent e (with_render (Some (S O))) ;;;
  ret e.

(** An entity without parent (object 1) in a scene at frame 1, read once
    in that frame, then given the velocity (1, 0) and updated with
    [delta = 1]. *)
Definition scene_mover : M loc :=
  g <- new_Game ;;
  e <- new_Entity 0 0 ;;
  _updateGame 1 e (Some g) ;;;
  next_frame g ;;;
  relativeLeft 1 e ;;;
  setVelocity e 1 0 ;;;
  _updateEntity demo_pow demo_update 3 1 e ;;;
  ret e.

(** A parent at (10, 0) (object 1) and its child at (1, 0) (object 2) in a
    scene at frame 1, not read yet. *)
Definition scene_family : M loc :=
  g <- new_Game ;;
  p <- new_Entity 10 0 ;;
  c <- new_Entity 1 0 ;;
  _updateGame 1 p (Some g) ;;;
  addChildEntity 2 p c ;;;
  next_frame g ;;;
  ret c.

(** Three entities (objects 1, 2 and 3), none attached. *)
Definition scene_roots : M loc :=
  a <- new_Entity 0 0 ;;
  b <- new_Entity 0 0 ;;
  new_Entity 0 0.

(** The same, the third attached to the first. *)
Definition scene_three : M loc :=
  c <- scene_roots ;;
  addChildEntity 2 1 c.

(** An entity without parent (object 1) in a scene at frame 1, read once
    in that frame, then moved by a write on its position vector. *)
Definition scene_poked : M loc :=
  g <- new_Game ;;
  e <- new_Entity 0 0 ;;
  _updateGame 1 e (Some g) ;;;
  next_frame g ;;;
  relativeLeft 1 e ;;;
  assign_pos_x e 5 ;;;
  ret e.

(** A root (object 1) and two children (objects 2 and 3) created at time
    0, the first child with ten milliseconds to live; the clock then shows
    11. *)
Definition scene_siblings : M loc :=
  r <- new_Entity 0 0 ;;
  a <- createChildEntity 2 r ;;
  b <- createChildEntity 2 r ;;
  modify_ent a (with_timeToLive (Some 10%Z)) ;;;
  sleep_until 11 ;;;
  ret r.

(** A scene (object 1 of the scenes) and, in it, a parent (object 1 of
    the entities) with two children (objects 2 and 3), the three of them
    with the render hook 1. *)
Definition scene_gallery : M loc :=
  g <- new_Game ;;
  p <- new_Entity 0 0 ;;
  _updateGame 1 p (Some g) ;;;
  a <- createChildEntity 2 p ;;
  b <- createChildEntity 2 p ;;
  modify_ent p (with_render (Some (S O))) ;;;
  modify_ent a (with_render (Some (S O))) ;;;
  modify_ent b (with_render (Some (S O))) ;;;
  ret p.

(** A root (object 1), its child (object 2) and the child of this child
    (object 3), created at time 0; the child has ten milliseconds to live,
    the velocity (1, 0) and the update hook 0, which returns [false]; the
    clock then shows 11. *)
Definition scene_last_tick : M loc :=
  r <- new_Entity 0 0 ;;
  c <- createChildEntity 2 r ;;
  g <- createChildEntity 2 c ;;
  modify_ent c (with_timeToLive (Some 10%Z)) ;;;
  modify_ent c (with_update (Some O)) ;;;
  modify_ent c (with_velocity (Vector2D.mk 1 0)) ;;;
  sleep_until 11 ;;;
  ret c.

(** ** Notions used in the further properties *)

(** The state with [evs] added to the trace. *)
Definition log (evs : list Event) (s : State) : State :=
  mkState (heap s) (clock s) (trace s ++ evs).

(** Every entity met within [depth] steps below [this], [this] included,
    is in the store and satisfies [P], and no child array is left to
    descend into after [depth] steps: the part of the scene below [this]
    unfolds into a finite tree of entities that satisfy [P]. *)
Fixpoint all_below (P : Entity -> bool) (depth : nat) (m : gmap loc Entity)
    (this : loc) : bool :=
  match depth with
  | O => false
  | S depth' =>
      match m !! this with
      | None => false
      | Some e => P e && forallb (all_below P depth' m) (children e)
      end
  end.

(** The entities below [this], parents before children and children in
    the order of the child arrays. *)
Fixpoint preorder (depth : nat) (K : gmap loc (list loc)) (this : loc)
    : list loc :=
  match depth with
  | O => []
  | S depth' =>
      this :: match K !! this with
              | Some l => List.concat (List.map (preorder depth' K) l)
              | None => []
              end
  end.

(** An entity that its own update leaves alone: no time to live, no
    velocity, no update hook. *)
Definition at_rest (e : Entity) : bool :=
  negb (ttl_set (timeToLive e)) && negb (moving (velocity e))
  && bool_decide (update e = None).

(** An entity without render hook. *)
Definition no_render_hook (e : Entity) : bool :=
  bool_decide (render e = None).

(** What a read of the relative position returns, as a function of the
    state: the cached vector of the first entity up the chain of parents
    whose cache is current, added to the local positions met on the way. *)
Fixpoint resolve (depth : nat) (s : State) (this : loc) : option Vector2D.t :=
  match depth with
  | O => None
  | S depth' =>
      e ← ents (heap s) !! this;
      if cache_current s e then Some (_relativePos e)
      else match _parent e with
           | None => Some (pos e)
           | Some p => Vector2D.add (pos e) <$> resolve depth' s p
           end
  end.

(** No cache is current on the chain of the parents of [this]. *)
Fixpoint stale_chain (depth : nat) (s : State) (this : loc) : bool :=
  match depth with
  | O => false
  | S depth' =>
      match ents (heap s) !! this with
      | None => false
      | Some e =>
          negb (cache_current s e)
          && match _parent e with
             | Some p => stale_chain depth' s p
             | None => true
             end
      end
  end.

(** The sum, in the order of the array, of what the fields [fs] add over
    [delta] to the velocity of an entity whose relative position is [P],
    read from the caches of the fields. *)
Fixpoint field_sum (pow : float -> float -> float) (m : gmap loc Entity)
    (P : Vector2D.t) (delta : float) (fs : list loc) (acc : Vector2D.t)
    : option Vector2D.t :=
  match fs with
  | [] => Some acc
  | field :: rest =>
      f ← m !! field;
      let D := Vector2D.mk
                 (Vector2D.x (_relativePos f) - Vector2D.x P)%float
                 (Vector2D.y (_relativePos f) - Vector2D.y P)%float in
      field_sum pow m P delta rest
        (Vector2D.add acc (field_kick pow (to_number (mass f)) D delta))
  end.

(** Every field is in the store with a current cache. *)
Definition fields_current (s : State) (fs : list loc) : bool :=
  forallb (fun field =>
             match ents (heap s) !! field with
             | Some f => cache_current s f
             | None => false
             end) fs.

(** An object as it was, or as it was with the scene [game]. *)
Definition paint (game : option loc) (o o0 : option Entity) : Prop :=
  o = o0 \/ o = with_game game <$> o0.

(** What [_updateGame] does to the part of the scene below [this]: every
    entity below [this] has got the scene [game], the other objects and the
    rest of the state are as before. *)
Definition scene_given (game : option loc) (this : loc) (s s' : State) : Prop :=
  games (heap s') = games (heap s)
  /\ clock s' = clock s /\ trace s' = trace s
  /\ (forall x, rtc (child_of (kids s)) this x ->
                ents (heap s') !! x = with_game game <$> ents (heap s) !! x)
  /\ (forall x, ~ rtc (child_of (kids s)) this x ->
                ents (heap s') !! x = ents (heap s) !! x).

(** From [s] to [s'] nothing has changed but the caches of the relative
    positions: the same objects, each with its properties as before save
    the cached vector and its stamp; the same scenes, clock and trace. *)
Definition only_caches_differ (s s' : State) : Prop :=
  games (heap s') = games (heap s)
  /\ clock s' = clock s /\ trace s' = trace s
  /\ forall l,
      match ents (heap s) !! l with
      | None => ents (heap s') !! l = None
      | Some e =>
          exists r n,
            ents (heap s') !! l
            = Some (with_lastRelativePosCalculated n (with_relativePos r e))
      end.

(** The state in which the render counter of the scene [g] is [n]
    higher. *)
Definition counted (g : loc) (n : Z) (s : State) : State :=
  match games (heap s) !! g with
  | Some gm =>
      store_game g (with_renders (_lastFrameTotalRenders gm + n) gm) s
  | None => s
  end.

(** A displayed entity of the scene [g] whose render hook is [h]. *)
Definition drawn (g : loc) (h : hook) (e : Entity) : bool :=
  truthy (display e) && bool_decide (render e = Some h)
  && bool_decide (_game e = Some g).

(** What the render of the entities [l], one after the other, adds to the
    trace when each of them calls its hook. *)
Definition render_events (l : list loc) : list Event :=
  List.concat (List.map (fun x => [ERender x; ERenderHook x]) l).

(** The three parts of the own step of [_updateEntity], each as a
    relation between the state it starts in and the state it ends in when
    it returns.

    The end of the life: an entity whose time to live is set and exceeded
    by its age has a parent, and is taken out of the child array of this
    parent at the first index at which it stands (nothing happens when it
    does not stand in it); any other entity is left alone. *)
Definition lifecycle_done (this : loc) (s0 sa : State) : Prop :=
  exists e,
    ents (heap s0) !! this = Some e
    /\ if ttl_set (timeToLive e)
          && (default 0 (timeToLive e) <? clock s0 - _creationTime e)%Z
       then exists p ep,
              _parent e = Some p
              /\ ents (heap s0) !! p = Some ep
              /\ sa = match index_of this (children ep) with
                      | Some i =>
                          store p (with_children (delete i (children ep)) ep) s0
                      | None => s0
                      end
       else sa = s0.

(** The physics: an entity whose velocity is not zero gets what
    [_calculateFields] returns added to its velocity and then moves by the
    new velocity times [delta]; an entity at rest is left alone. *)
Definition physics_done (pow : float -> float -> float) (fuel : nat)
    (delta : float) (this : loc) (sa sb : State) : Prop :=
  exists ea,
    ents (heap sa) !! this = Some ea
    /\ if moving (velocity ea)
       then exists a sf ef,
              _calculateFields pow fuel delta this sa = Ok a sf
              /\ ents (heap sf) !! this = Some ef
              /\ let v' := Vector2D.add (velocity ef) a in
                 let p' := Vector2D.mk
                             (Vector2D.x (pos ef) + Vector2D.x v' * delta)%float
                             (Vector2D.y (pos ef) + Vector2D.y v' * delta)%float in
                 sb = store this (with_pos p' (with_velocity v' ef)) sf
       else sb = sa.

(** The hook: it is called if the entity has one, on the store as the
    physics has left it, and [updated] is what it returns; without hook
    [updated] is [undefined] and nothing happens. *)
Definition hook_done
    (impl : hook -> loc -> float -> Heap -> JSVal * Heap)
    (delta : float) (this : loc) (sb : State) (updated : JSVal) (s1 : State)
    : Prop :=
  exists eb,
    ents (heap sb) !! this = Some eb
    /\ match update eb with
       | Some h =>
           let sh := log [EUpdateHook this] sb in
           updated = (impl h this delta (heap sh)).1
           /\ s1 = with_heap (impl h this delta (heap sh)).2 sh
       | None => updated = VUndefined /\ s1 = sb
       end.

(** What one read does to the store: an object is as before, or it is an
    entity of a scene whose cache now holds its resolved position under
    the stamp of the current frame. *)
Definition settles (s s' : State) : Prop :=
  games (heap s') = games (heap s)
  /\ forall z,
      ents (heap s') !! z = ents (heap s) !! z
      \/ exists e g gm r d,
           ents (heap s) !! z = Some e
           /\ _game e = Some g /\ games (heap s) !! g = Some gm
           /\ resolve d s z = Some r
           /\ ents (heap s') !! z
              = Some (with_lastRelativePosCalculated (frameCounter gm)
                        (with_relativePos r e)).

(** The state [s'] differs from [s] by caches only, and every position
    that resolves in [s] resolves to the same vector in [s']: this is how
    the states that a sequence of reads goes through stand to the state it
    started in. *)
Definition agrees (s s' : State) : Prop :=
  same_but_cache s s'
  /\ forall d z r, resolve d s z = Some r -> resolve d s' z = Some r.

(** * Proofs *)

(** ** Frames *)

Section Keeps.

Context (R : relation State) `{!PreOrder R}.

Lemma keeps_ret {A} (a : A) : keeps R (ret a).
Proof. intros s. simpl. reflexivity. Qed.

Lemma keeps_throw {A} (e : Error) : keeps R (@throw A e).
Proof. intros s. simpl. reflexivity. Qed.

Lemma keeps_bind {A B} (m : M A) (k : A -> M B) :
  keeps R m -> (forall a, keeps R (k a)) -> keeps R (bind m k).
Proof.
  intros Hm Hk s. unfold bind. specialize (Hm s).
  destruct (m s) as [a s'|e s']; simpl in *; [|done].
  etrans; [exact Hm|apply Hk].
Qed.

Lemma keeps_get_ent l : keeps R (get_ent l).
Proof. intros s. unfold get_ent. destruct (_ !! _); simpl; reflexivity. Qed.

Lemma keeps_get_game l : keeps R (get_game l).
Proof. intros s. unfold get_game. destruct (_ !! _); simpl; reflexivity. Qed.

Lemma keeps_Date_now : keeps R Date_now.
Proof. intros s. simpl. reflexivity. Qed.

Lemma keeps_forEach_from cb this k n :
  (forall c, keeps R (cb c)) -> keeps R (forEach_from cb this k n).
Proof.
  intros Hcb. revert k. induction n as [|n IH]; intros k; simpl.
  - apply keeps_ret.
  - apply keeps_bind; [apply keeps_get_ent|]. intros e.
    apply keeps_bind; [|intros _; apply IH].
    destruct (children e !! k); [apply Hcb|apply keeps_ret].
Qed.

Lemma keeps_forEach_children cb this :
  (forall c, keeps R (cb c)) -> keeps R (forEach_children cb this).
Proof.
  intros Hcb. apply keeps_bind; [apply keeps_get_ent|].
  intros e. now apply keeps_forEach_from.
Qed.

End Keeps.

(** One step through a computation built from the operations above; [tac]
    settles the operations that are particular to the relation. *)
Ltac keeps_step tac :=
  first
    [ tac
    | apply keeps_ret; apply _
    | apply keeps_throw; apply _
    | apply keeps_get_ent; apply _
    | apply keeps_get_game; apply _
    | apply keeps_Date_now; apply _
    | apply keeps_forEach_children; [apply _|intros ?]
    | apply keeps_bind; [apply _| |intros ?]
    | match goal with
      | |- keeps _ (match ?x with _ => _ end) => destruct x
      end ].

Ltac keeps_with tac := repeat keeps_step tac.

#[local] Instance same_but_cache_preorder : PreOrder same_but_cache.
Proof.
  split.
  - intros s. by repeat split.
  - intros s1 s2 s3 (?&?&?&?) (?&?&?&?). repeat split; congruence.
Qed.

#[local] Instance trace_grows_preorder : PreOrder trace_grows.
Proof.
  split.
  - intros s. by unfold trace_grows.
  - intros s1 s2 s3 H1 H2. unfold trace_grows in *. by etrans.
Qed.

#[local] Instance same_trace_preorder : PreOrder same_trace.
Proof. split; unfold same_trace; [by intros s|intros s1 s2 s3; congruence]. Qed.

#[local] Instance same_kids_preorder : PreOrder same_kids.
Proof. split; unfold same_kids; [by intros s|intros s1 s2 s3; congruence]. Qed.

Lemma keeps_cache_modify l f :
  (forall e, uncached (f e) = uncached e) ->
  keeps same_but_cache (modify_ent l f).
Proof.
  intros Hf s. unfold modify_ent, bind, get_ent.
  destruct (ents (heap s) !! l) as [e|] eqn:He; simpl; [|reflexivity].
  repeat split. unfold store. cbn [ents heap with_heap with_ents].
  rewrite fmap_insert, Hf.
  apply map_eq. intros i. destruct (decide (l = i)) as [->|Hne].
  - by rewrite lookup_insert_eq, lookup_fmap, He.
  - by rewrite lookup_insert_ne.
Qed.

Ltac cache_op :=
  first [ apply keeps_cache_modify; intros; reflexivity
        | progress unfold left, top, assign_relativePos_x, assign_relativePos_y ].

Lemma calc_keeps_cache fuel this :
  keeps same_but_cache (_calculateRelativePos fuel this).
Proof.
  revert this. induction fuel as [|fuel IH]; intros this;
    cbn [_calculateRelativePos].
  - keeps_with cache_op.
  - keeps_with ltac:(first [cache_op | apply IH]).
Qed.

Lemma bind_Ok {A B} (m : M A) (k : A -> M B) s a s' :
  m s = Ok a s' -> bind m k s = k a s'.
Proof. intros H. unfold bind. now rewrite H. Qed.

Lemma bind_assoc {A B C} (m : M A) (k : A -> M B) (k' : B -> M C) s :
  bind (bind m k) k' s = bind m (fun a => bind (k a) k') s.
Proof. unfold bind. by destruct (m s). Qed.

Lemma bind_Err {A B} (m : M A) (k : A -> M B) s e s' :
  m s = Err e s' -> bind m k s = Err e s'.
Proof. intros H. unfold bind. now rewrite H. Qed.

Lemma get_ent_Some this e s :
  ents (heap s) !! this = Some e -> get_ent this s = Ok e s.
Proof. intros H. unfold get_ent. now rewrite H. Qed.

Lemma store_lookup_eq l e s : ents (heap (store l e s)) !! l = Some e.
Proof. apply lookup_insert_eq. Qed.

Lemma store_lookup_ne l l' e s :
  l <> l' -> ents (heap (store l e s)) !! l' = ents (heap s) !! l'.
Proof. intros H. by apply lookup_insert_ne. Qed.

Lemma store_store l e1 e2 s : store l e2 (store l e1 s) = store l e2 s.
Proof.
  unfold store, with_heap, with_ents. cbn [heap ents games clock trace].
  now rewrite insert_insert_eq.
Qed.

Lemma modify_ent_Some l f s e :
  ents (heap s) !! l = Some e -> modify_ent l f s = Ok tt (store l (f e) s).
Proof.
  intros He. unfold modify_ent. now rewrite (bind_Ok _ _ _ _ _ (get_ent_Some _ _ _ He)).
Qed.

Lemma get_game_Some g gm s :
  games (heap s) !! g = Some gm -> get_game g s = Ok gm s.
Proof. intros H. unfold get_game. now rewrite H. Qed.

(** ** C4: reads outside any scene *)

(** C4, as amended. An entity without scene never recomputes: whatever its
    parent and its local position are, a read returns the cached vector as
    it stands and changes nothing. *)
Theorem unattached_read_returns_cache fuel this s e :
  ents (heap s) !! this = Some e ->
  _game e = None ->
  _calculateRelativePos (S fuel) this s = Ok (_relativePos e) s
  /\ relativeLeft (S fuel) this s = Ok (Vector2D.x (_relativePos e)) s
  /\ relativeTop (S fuel) this s = Ok (Vector2D.y (_relativePos e)) s.
Proof.
  intros He Hg.
  assert (H : _calculateRelativePos (S fuel) this s = Ok (_relativePos e) s).
  { cbn [_calculateRelativePos]. unfold bind at 1.
    rewrite (get_ent_Some _ _ _ He), Hg. unfold bind, ret.
    now rewrite (get_ent_Some _ _ _ He). }
  unfold relativeLeft, relativeTop, bind. now rewrite H.
Qed.

(** The child of [scene_unattached] reads its own cache, (1, 0). *)
Lemma unattached_read_returns_cache_witness :
  let s := final (scene_unattached empty_state) in
  _calculateRelativePos 1 2 s = Ok (Vector2D.mk 1 0) s
  /\ relativeLeft 1 2 s = Ok 1%float s
  /\ relativeTop 1 2 s = Ok 0%float s.
Proof.
  intros s.
  exact (unattached_read_returns_cache 0 2 s
           (with_parent (Some 1%positive)
              (mkEntity (Vector2D.mk 1 0) (Vector2D.mk 0 0) (Vector2D.mk 0 0)
                 (Vector2D.mk 0 0) 0 (VBool true) [] [] (Vector2D.mk 1 0) 0
                 None None 0 None None None None))
           eq_refl eq_refl).
Defined.

(** C4 fails as stated: in [scene_unattached] the child has no scene, its
    position composed through the parent chain is (11, 0), and the read of
    [relativeLeft] returns 1. *)
Lemma unattached_read_is_not_recomputed :
  let s := final (scene_unattached empty_state) in
  (exists e, ents (heap s) !! 2%positive = Some e /\ _game e = None)
  /\ composed_pos 2 (ents (heap s)) 2 = Some (Vector2D.mk 11 0)
  /\ relativeLeft 5 2 s = Ok 1%float s.
Proof.
  intros s. split; [|split].
  - eexists. split; [vm_compute; reflexivity|reflexivity].
  - vm_compute. reflexivity.
  - vm_compute. reflexivity.
Qed.

(** ** Running a computation step by step *)

Lemma index_of_lookup child l i :
  index_of child l = Some i ->
  l !! i = Some child /\ forall j, (j < i)%nat -> l !! j <> Some child.
Proof.
  revert i. induction l as [|c l IH]; intros i; simpl; [done|].
  destruct (decide (c = child)) as [->|Hne].
  - intros [= <-]. split; [done|]. intros j Hj. lia.
  - destruct (index_of child l) as [i'|]; simpl; [|done].
    intros [= <-]. destruct (IH i' eq_refl) as [H1 H2]. split; [done|].
    intros [|j] Hj; simpl; [congruence|]. apply H2. lia.
Qed.


Lemma bind_Ok_inv {A B} (m : M A) (k : A -> M B) s b s' :
  bind m k s = Ok b s' -> exists a sm, m s = Ok a sm /\ k a sm = Ok b s'.
Proof.
  unfold bind. destruct (m s) as [a sm|e sm]; [|done]. intros H. by exists a, sm.
Qed.

Lemma keeps_weaken {A} (R R' : relation State) (m : M A) :
  (forall s s', R s s' -> R' s s') -> keeps R m -> keeps R' m.
Proof. intros HR Hm s. apply HR, Hm. Qed.

Lemma keeps_Ok {A} (R : relation State) (m : M A) s a s' :
  keeps R m -> m s = Ok a s' -> R s s'.
Proof. intros Hm H. specialize (Hm s). now rewrite H in Hm. Qed.

Lemma cache_same_trace s s' : same_but_cache s s' -> same_trace s s'.
Proof. by intros (_&?&_). Qed.

Lemma same_trace_grows s s' : same_trace s s' -> trace_grows s s'.
Proof. unfold same_trace, trace_grows. by intros ->. Qed.

Lemma keeps_same_trace_modify l f : keeps same_trace (modify_ent l f).
Proof.
  intros s. unfold modify_ent, bind, get_ent.
  by destruct (ents (heap s) !! l).
Qed.

Lemma keeps_same_trace_put_game g gm : keeps same_trace (put_game g gm).
Proof. by intros s. Qed.

Lemma keeps_trace_grows_emit ev : keeps trace_grows (emit ev).
Proof. intros s. by apply prefix_app_r. Qed.

Ltac trace_op :=
  first [ apply keeps_same_trace_modify
        | apply keeps_same_trace_put_game
        | apply (keeps_weaken same_but_cache same_trace _ cache_same_trace);
          apply calc_keeps_cache ].

Section Traversal.

Variable Math_pow : float -> float -> float.
Variable update_impl : hook -> loc -> float -> Heap -> JSVal * Heap.
Variable render_impl : hook -> loc -> Heap -> JSVal * Heap.

Lemma _updateEntity_unfold fuel delta this :
  _updateEntity Math_pow update_impl (S fuel) delta this
  = (emit (EUpdate this) ;;;
     expire this ;;;
     after_expire Math_pow update_impl fuel delta this).
Proof. reflexivity. Qed.

Lemma _renderEntity_unfold fuel this :
  _renderEntity render_impl (S fuel) this
  = (emit (ERender this) ;;;
     rendered <- run_render render_impl this ;;
     (if truthy rendered then count_render this else ret tt) ;;;
     render_children render_impl fuel this rendered).
Proof. reflexivity. Qed.

(** *** The end of the life of an entity *)

Lemma expire_fresh this s e :
  ents (heap s) !! this = Some e ->
  (ttl_set (timeToLive e)
   && (default 0 (timeToLive e) <? clock s - _creationTime e)%Z) = false ->
  expire this s = Ok tt s.
Proof.
  intros He H. unfold expire. rewrite (bind_Ok _ _ _ _ _ (get_ent_Some _ _ _ He)).
  destruct (ttl_set (timeToLive e)); [|done]. simpl in H.
  unfold bind, Date_now. now rewrite H.
Qed.

Lemma expire_orphan this s e :
  ents (heap s) !! this = Some e ->
  ttl_set (timeToLive e) = true ->
  (default 0 (timeToLive e) <? clock s - _creationTime e)%Z = true ->
  _parent e = None ->
  expire this s = Err TypeError s.
Proof.
  intros He H1 H2 Hp. unfold expire.
  rewrite (bind_Ok _ _ _ _ _ (get_ent_Some _ _ _ He)), H1.
  unfold bind, Date_now. now rewrite H2, Hp.
Qed.

Lemma expire_attached this s e p pe i :
  ents (heap s) !! this = Some e ->
  ttl_set (timeToLive e) = true ->
  (default 0 (timeToLive e) <? clock s - _creationTime e)%Z = true ->
  _parent e = Some p ->
  ents (heap s) !! p = Some pe ->
  index_of this (children pe) = Some i ->
  expire this s
  = Ok tt (store p (with_children (delete i (children pe)) pe) s).
Proof.
  intros He H1 H2 Hp Hpe Hi. unfold expire.
  rewrite (bind_Ok _ _ _ _ _ (get_ent_Some _ _ _ He)), H1.
  unfold bind at 1. unfold Date_now. rewrite H2, Hp.
  unfold detachChildEntity, modify_ent, bind.
  now rewrite (get_ent_Some _ _ _ Hpe), Hi, (get_ent_Some _ _ _ Hpe).
Qed.

(** C7, as amended. A node whose [timeToLive] is a non-zero [T], created at
    time [c] and standing at index [i] in the child array of its parent,
    is taken out of that array by exactly the calls of [_updateEntity] at
    which [Date.now() - c > T]: the age counts from the construction, and
    a call at the very time [c + T] does not detach. In both cases the
    rest of the update goes on. *)
Theorem expiry_is_strict fuel delta this s e p pe T i :
  ents (heap s) !! this = Some e ->
  timeToLive e = Some T ->
  T <> 0%Z ->
  _parent e = Some p ->
  ents (heap s) !! p = Some pe ->
  index_of this (children pe) = Some i ->
  let s0 := mkState (heap s) (clock s) (trace s ++ [EUpdate this]) in
  children pe !! i = Some this
  /\ ((T < clock s - _creationTime e)%Z ->
      _updateEntity Math_pow update_impl (S fuel) delta this s
      = after_expire Math_pow update_impl fuel delta this
          (store p (with_children (delete i (children pe)) pe) s0))
  /\ ((clock s - _creationTime e <= T)%Z ->
      _updateEntity Math_pow update_impl (S fuel) delta this s
      = after_expire Math_pow update_impl fuel delta this s0).
Proof.
  intros He HT HT0 Hp Hpe Hi s0.
  assert (Hset : ttl_set (timeToLive e) = true).
  { rewrite HT. simpl. apply negb_true_iff, Z.eqb_neq. exact HT0. }
  split; [apply (index_of_lookup _ _ _ Hi)|].
  rewrite _updateEntity_unfold.
  split; intros Hage.
  - unfold bind at 1. cbn [emit]. fold s0.
    erewrite (bind_Ok (expire this)); [reflexivity|].
    apply (expire_attached this s0 e p pe i); try done.
    rewrite HT. simpl. apply Z.ltb_lt. exact Hage.
  - unfold bind at 1. cbn [emit]. fold s0.
    erewrite (bind_Ok (expire this)); [reflexivity|].
    apply (expire_fresh this s0 e); [done|].
    rewrite Hset, HT. simpl. apply Z.ltb_ge. exact Hage.
Qed.

(** C8, on the code: the update of a node that has outlived its
    [timeToLive] and has no parent stops on [this._parent.detachChildEntity]
    with a TypeError; nothing after the expiry test is run. *)
Lemma expired_orphan_throws fuel delta this s e :
  ents (heap s) !! this = Some e ->
  ttl_set (timeToLive e) = true ->
  (default 0 (timeToLive e) <? clock s - _creationTime e)%Z = true ->
  _parent e = None ->
  _updateEntity Math_pow update_impl (S fuel) delta this s
  = Err TypeError (mkState (heap s) (clock s) (trace s ++ [EUpdate this])).
Proof.
  intros He H1 H2 Hp. rewrite _updateEntity_unfold.
  unfold bind at 1. cbn [emit].
  apply bind_Err. now apply (expire_orphan this _ e).
Qed.

(** *** Rendering *)

Lemma run_render_hidden this s e :
  ents (heap s) !! this = Some e ->
  truthy (display e) = false ->
  run_render render_impl this s = Ok (display e) s.
Proof.
  intros He Hd. unfold run_render.
  rewrite (bind_Ok _ _ _ _ _ (get_ent_Some _ _ _ He)). now rewrite Hd.
Qed.

(** C2, as amended. On an entity whose [display] is [false] the render
    hook is never called. If the entity has a render hook, nothing else
    happens either: no child is rendered and the call returns with the one
    event of its own entry. If it has no render hook, its children are
    rendered as those of any other container. *)
Theorem hidden_entity_render fuel this s e :
  ents (heap s) !! this = Some e ->
  display e = VBool false ->
  let s0 := mkState (heap s) (clock s) (trace s ++ [ERender this]) in
  (render e <> None ->
   _renderEntity render_impl (S fuel) this s = Ok tt s0)
  /\ (render e = None ->
      _renderEntity render_impl (S fuel) this s
      = forEach_children (_renderEntity render_impl fuel) this s0).
Proof.
  intros He Hd s0.
  assert (Hrun : run_render render_impl this s0 = Ok (VBool false) s0).
  { rewrite <- Hd. apply run_render_hidden; [done|]. now rewrite Hd. }
  assert (Hstart : forall k : JSVal -> M unit,
            (emit (ERender this) ;;; rendered <- run_render render_impl this ;; k rendered) s
            = k (VBool false) s0).
  { intros k. unfold bind at 1. cbn [emit]. fold s0. now rewrite (bind_Ok _ _ _ _ _ Hrun). }
  assert (Hbody : _renderEntity render_impl (S fuel) this s
                  = (if bool_decide (render e = None)
                     then forEach_children (_renderEntity render_impl fuel) this
                     else ret tt) s0).
  { rewrite _renderEntity_unfold, Hstart. cbn [truthy].
    unfold bind at 1. cbn [ret]. unfold render_children.
    now rewrite (bind_Ok _ _ _ _ _ (get_ent_Some this e s0 He)). }
  rewrite Hbody.
  split; intros Hr; destruct (render e) eqn:E; first [reflexivity|congruence].
Qed.

(** C10. On an entity whose [display] is truthy and whose render hook
    returns a truthy value, the render counter of the scene of the entity
    is incremented by one, once, before the children are rendered; without
    a scene the call stops on the increment with a TypeError. The hook may
    have changed the objects: the scene and the counter are read after it
    has returned. *)
Theorem rendered_entity_counts fuel this s e h v hp :
  ents (heap s) !! this = Some e ->
  truthy (display e) = true ->
  render e = Some h ->
  render_impl h this (heap s) = (v, hp) ->
  truthy v = true ->
  let s1 := mkState hp (clock s) (trace s ++ [ERender this; ERenderHook this]) in
  (forall e1 g gm,
     ents hp !! this = Some e1 -> _game e1 = Some g -> games hp !! g = Some gm ->
     let s2 :=
       store_game g (with_renders (_lastFrameTotalRenders gm + 1) gm) s1 in
     _renderEntity render_impl (S fuel) this s
     = forEach_children (_renderEntity render_impl fuel) this s2
     /\ (children e1 = [] ->
         _renderEntity render_impl (S fuel) this s = Ok tt s2))
  /\ (forall e1,
        ents hp !! this = Some e1 -> _game e1 = None ->
        _renderEntity render_impl (S fuel) this s = Err TypeError s1).
Proof.
  intros He Hd Hr Hh Hv s1.
  set (s0 := mkState (heap s) (clock s) (trace s ++ [ERender this])).
  assert (Hrun : run_render render_impl this s0 = Ok v s1).
  { unfold run_render.
    rewrite (bind_Ok _ _ _ _ _ (get_ent_Some this e s0 He)), Hd, Hr.
    unfold call_render, bind, s0. cbn [emit heap]. rewrite Hh.
    unfold with_heap, s1. cbn [clock trace]. now rewrite <- app_assoc. }
  assert (Hstart : forall k : JSVal -> M unit,
            (emit (ERender this) ;;; rendered <- run_render render_impl this ;; k rendered) s
            = k v s1).
  { intros k. unfold bind at 1. cbn [emit]. fold s0. now rewrite (bind_Ok _ _ _ _ _ Hrun). }
  rewrite _renderEntity_unfold, Hstart, Hv.
  split.
  - intros e1 g gm He1 Hg Hgm s2.
    assert (Hcount : count_render this s1 = Ok tt s2).
    { unfold count_render.
      rewrite (bind_Ok _ _ _ _ _ (get_ent_Some this e1 s1 He1)), Hg.
      now rewrite (bind_Ok _ _ _ _ _ (get_game_Some g gm s1 Hgm)). }
    rewrite (bind_Ok _ _ _ _ _ Hcount). unfold render_children.
    rewrite (bind_Ok _ _ _ _ _ (get_ent_Some this e1 s2 He1)), Hv. cbn [orb].
    split; [done|]. intros Hnil. unfold forEach_children.
    rewrite (bind_Ok _ _ _ _ _ (get_ent_Some this e1 s2 He1)), Hnil. done.
  - intros e1 He1 Hg. apply bind_Err. unfold count_render.
    now rewrite (bind_Ok _ _ _ _ _ (get_ent_Some this e1 s1 He1)), Hg.
Qed.

(** *** Updating *)

Lemma fields_loop_keeps_cache fuel delta this fs acc :
  keeps same_but_cache (fields_loop Math_pow fuel delta this fs acc).
Proof.
  revert acc. induction fs as [|f fs IH]; intros acc; cbn [fields_loop].
  - keeps_with fail.
  - unfold relativeLeft, relativeTop.
    keeps_with ltac:(first [apply calc_keeps_cache | apply IH]).
Qed.

Lemma _calculateFields_keeps_cache fuel delta this :
  keeps same_but_cache (_calculateFields Math_pow fuel delta this).
Proof.
  unfold _calculateFields.
  keeps_with ltac:(apply fields_loop_keeps_cache).
Qed.

Lemma detach_keeps_trace this child :
  keeps same_trace (detachChildEntity this child).
Proof. unfold detachChildEntity. keeps_with trace_op. Qed.

Lemma expire_keeps_trace this : keeps same_trace (expire this).
Proof.
  unfold expire. keeps_with ltac:(first [trace_op | apply detach_keeps_trace]).
Qed.

Lemma integrate_keeps_trace fuel delta this :
  keeps same_trace (integrate Math_pow fuel delta this).
Proof.
  unfold integrate.
  keeps_with ltac:(first
    [ trace_op
    | apply (keeps_weaken same_but_cache same_trace _ cache_same_trace);
      apply _calculateFields_keeps_cache ]).
Qed.

Lemma run_update_trace delta this s updated s1 :
  run_update update_impl delta this s = Ok updated s1 ->
  trace s1 = trace s \/ trace s1 = trace s ++ [EUpdateHook this].
Proof.
  unfold run_update. intros H.
  apply bind_Ok_inv in H as (e & sm & He & H).
  unfold get_ent in He. destruct (ents (heap s) !! this) as [e0|]; [|done].
  injection He as -> <-.
  destruct (update e) as [h|].
  - right. unfold call_update, bind in H. cbn [emit heap] in H.
    destruct (update_impl h this delta (heap s)) as [v hp].
    injection H as _ <-. reflexivity.
  - left. injection H as _ <-. reflexivity.
Qed.

Lemma _updateEntity_own fuel delta this s :
  _updateEntity Math_pow update_impl (S fuel) delta this s
  = (updated <- own_update Math_pow update_impl fuel delta this ;;
     update_children Math_pow update_impl fuel delta this updated) s.
Proof.
  rewrite _updateEntity_unfold. unfold own_update, after_expire, bind.
  cbn [emit].
  destruct (expire this _) as [[] sa|]; [|done].
  destruct (integrate Math_pow fuel delta this sa) as [[] sb|]; done.
Qed.

Lemma keeps_trace_grows_call_update h this delta :
  keeps trace_grows (call_update update_impl h this delta).
Proof.
  intros s. unfold call_update, bind. cbn [emit heap].
  destruct (update_impl h this delta (heap s)) as [v hp].
  by apply prefix_app_r.
Qed.

Lemma _updateEntity_trace_grows fuel delta this :
  keeps trace_grows (_updateEntity Math_pow update_impl fuel delta this).
Proof.
  revert this. induction fuel as [|fuel IH]; intros this; cbn [_updateEntity].
  - keeps_with fail.
  - keeps_with ltac:(first
      [ apply keeps_trace_grows_emit
      | apply (keeps_weaken same_trace trace_grows _ same_trace_grows);
        first [apply expire_keeps_trace | apply integrate_keeps_trace]
      | apply keeps_trace_grows_call_update
      | apply IH
      | progress unfold run_update ]).
Qed.

(** Once entered, an update shows in the trace, however it ends. *)
Lemma _updateEntity_enters fuel delta this s :
  (trace s ++ [EUpdate this])
    `prefix_of` trace (final (_updateEntity Math_pow update_impl (S fuel) delta this s)).
Proof.
  rewrite _updateEntity_unfold. unfold bind at 1. cbn [emit].
  set (s0 := mkState _ _ _).
  change (trace s ++ [EUpdate this]) with (trace s0).
  clearbody s0. revert s0. change (keeps trace_grows
    (expire this ;;; after_expire Math_pow update_impl fuel delta this)).
  unfold after_expire, update_children.
  keeps_with ltac:(first
      [ apply (keeps_weaken same_trace trace_grows _ same_trace_grows);
        first [apply expire_keeps_trace | apply integrate_keeps_trace]
      | apply keeps_trace_grows_call_update
      | apply _updateEntity_trace_grows
      | progress unfold run_update ]).
Qed.

Lemma own_update_trace fuel delta this s updated s1 :
  own_update Math_pow update_impl fuel delta this s = Ok updated s1 ->
  trace s1 = trace s ++ [EUpdate this]
  \/ trace s1 = trace s ++ [EUpdate this; EUpdateHook this].
Proof.
  unfold own_update. intros H.
  apply bind_Ok_inv in H as ([] & s0 & H0 & H). injection H0 as <-.
  apply bind_Ok_inv in H as ([] & sa & Ha & H).
  apply bind_Ok_inv in H as ([] & sb & Hb & H).
  apply (keeps_Ok _ _ _ _ _ (expire_keeps_trace this)) in Ha.
  apply (keeps_Ok _ _ _ _ _ (integrate_keeps_trace fuel delta this)) in Hb.
  unfold same_trace in *. cbn [trace] in Ha.
  destruct (run_update_trace _ _ _ _ _ H) as [-> | ->]; rewrite <- Hb, <- Ha.
  - by left.
  - right. by rewrite <- app_assoc.
Qed.

Lemma get_ent_inv l s e s' :
  get_ent l s = Ok e s' -> ents (heap s) !! l = Some e /\ s' = s.
Proof.
  unfold get_ent. destruct (ents (heap s) !! l); [|done]. by intros [= -> ->].
Qed.

Lemma expire_inv this s0 sa :
  expire this s0 = Ok tt sa -> lifecycle_done this s0 sa.
Proof.
  unfold expire. intros H.
  apply bind_Ok_inv in H as (e & s' & He & H).
  apply get_ent_inv in He as [He ->]. exists e. split; [done|].
  destruct (ttl_set (timeToLive e)); [|by injection H as <-]. cbn [andb].
  unfold bind at 1 in H. unfold Date_now in H.
  destruct (default 0 (timeToLive e) <? clock s0 - _creationTime e)%Z;
    [|by injection H as <-].
  destruct (_parent e) as [p|]; [|done]. exists p.
  apply bind_Ok_inv in H as (b & s' & Hd & H). injection H as <-.
  unfold detachChildEntity in Hd.
  apply bind_Ok_inv in Hd as (ep & s'' & Hep & Hd).
  apply get_ent_inv in Hep as [Hep ->]. exists ep. do 2 (split; [done|]).
  destruct (index_of this (children ep)) as [i|]; [|by injection Hd as _ <-].
  rewrite (bind_Ok _ _ _ _ _ (modify_ent_Some _ _ _ _ Hep)) in Hd.
  by injection Hd as _ <-.
Qed.

Lemma integrate_inv fuel delta this sa sb :
  integrate Math_pow fuel delta this sa = Ok tt sb ->
  physics_done Math_pow fuel delta this sa sb.
Proof.
  unfold integrate. intros H.
  apply bind_Ok_inv in H as (ea & s' & Hea & H).
  apply get_ent_inv in Hea as [Hea ->]. exists ea. split; [done|].
  destruct (moving (velocity ea)); [|by injection H as <-].
  apply bind_Ok_inv in H as (a & sf & Ha & H). exists a, sf.
  assert (is_Some (ents (heap sf) !! this)) as [ef Hef].
  { apply bind_Ok_inv in H as ([] & s' & H & _). unfold modify_ent in H.
    apply bind_Ok_inv in H as (ef & s'' & H & _).
    apply get_ent_inv in H as [H _]. by exists ef. }
  exists ef. do 2 (split; [done|]).
  rewrite (bind_Ok _ _ _ _ _ (modify_ent_Some _ _ _ _ Hef)) in H.
  rewrite (bind_Ok _ _ _ _ _ (modify_ent_Some _ _ _ _ (store_lookup_eq _ _ _)))
    in H.
  rewrite (modify_ent_Some _ _ _ _ (store_lookup_eq _ _ _)) in H.
  rewrite !store_store in H. by injection H as <-.
Qed.

Lemma run_update_inv delta this sb updated s1 :
  run_update update_impl delta this sb = Ok updated s1 ->
  hook_done update_impl delta this sb updated s1.
Proof.
  unfold run_update. intros H.
  apply bind_Ok_inv in H as (eb & s' & Heb & H).
  apply get_ent_inv in Heb as [Heb ->]. exists eb. split; [done|].
  destruct (update eb) as [h|]; [|by injection H as <- <-].
  unfold call_update, bind, emit in H. cbn [heap] in H.
  cbn zeta. change (heap (log [EUpdateHook this] sb)) with (heap sb).
  destruct (update_impl h this delta (heap sb)) as [v hp].
  by injection H as <- <-.
Qed.


(** *** The physics step *)

Lemma calc_cached fuel this s e :
  ents (heap s) !! this = Some e ->
  cache_current s e = true ->
  _calculateRelativePos (S fuel) this s = Ok (_relativePos e) s.
Proof.
  intros He Hc. cbn [_calculateRelativePos].
  rewrite (bind_Ok _ _ _ _ _ (get_ent_Some _ _ _ He)).
  unfold cache_current in Hc.
  assert (Hstale : (match _game e with
                    | Some g =>
                        gm <- get_game g ;;
                        ret (_lastRelativePosCalculated e <? frameCounter gm)%Z
                    | None => ret false
                    end) s = Ok false s).
  { destruct (_game e) as [g|]; [|done].
    destruct (games (heap s) !! g) as [gm|] eqn:Hg; [|done].
    rewrite (bind_Ok _ _ _ _ _ (get_game_Some _ _ _ Hg)).
    apply negb_true_iff in Hc. unfold ret. now rewrite Hc. }
  rewrite (bind_Ok _ _ _ _ _ Hstale). unfold bind at 1. cbn [ret].
  now rewrite (bind_Ok _ _ _ _ _ (get_ent_Some _ _ _ He)).
Qed.

Lemma read_cached fuel this s e :
  ents (heap s) !! this = Some e ->
  cache_current s e = true ->
  relativeLeft (S fuel) this s = Ok (Vector2D.x (_relativePos e)) s
  /\ relativeTop (S fuel) this s = Ok (Vector2D.y (_relativePos e)) s.
Proof.
  intros He Hc. unfold relativeLeft, relativeTop.
  now rewrite !(bind_Ok _ _ _ _ _ (calc_cached fuel this s e He Hc)).
Qed.

Lemma integrate_still fuel delta this s e :
  ents (heap s) !! this = Some e ->
  moving (velocity e) = false ->
  integrate Math_pow fuel delta this s = Ok tt s.
Proof.
  intros He Hm. unfold integrate.
  rewrite (bind_Ok _ _ _ _ _ (get_ent_Some _ _ _ He)). now rewrite Hm.
Qed.

End Traversal.

(** ** The cache of the relative position *)

(** A read that returns leaves the cache of the entity current, holding
    the vector it has returned. *)
Lemma calc_settles fuel this s r s1 :
  _calculateRelativePos fuel this s = Ok r s1 ->
  exists e1,
    ents (heap s1) !! this = Some e1
    /\ _relativePos e1 = r
    /\ cache_current s1 e1 = true.
Proof.
  destruct fuel as [|fuel]; [done|]. cbn [_calculateRelativePos]. intros H.
  apply bind_Ok_inv in H as (e & s' & He & H).
  unfold get_ent in He. destruct (ents (heap s) !! this) as [e0|] eqn:Hthis; [|done].
  injection He as -> <-.
  apply bind_Ok_inv in H as (stale & s' & Hst & H).
  assert (Hcur : s' = s /\ (stale = false -> cache_current s e = true)).
  { unfold cache_current. destruct (_game e) as [g|].
    - apply bind_Ok_inv in Hst as (gm & s'' & Hg & Hst).
      unfold get_game in Hg. destruct (games (heap s) !! g) as [gm0|]; [|done].
      injection Hg as -> <-. injection Hst as <- <-. split; [done|].
      intros ->. reflexivity.
    - injection Hst as <- <-. done. }
  destruct Hcur as [-> Hcur].
  apply bind_Ok_inv in H as ([] & sb & Hbody & H).
  apply bind_Ok_inv in H as (e2 & s' & He2 & H). injection H as <- <-.
  unfold get_ent in He2. destruct (ents (heap sb) !! this) as [e2'|] eqn:Hsb; [|done].
  injection He2 as -> <-. exists e2. split; [done|]. split; [done|].
  destruct stale.
  - apply bind_Ok_inv in Hbody as ([] & sa & _ & Hbody).
    apply bind_Ok_inv in Hbody as (e1 & s' & He1 & Hbody).
    unfold get_ent in He1.
    destruct (ents (heap sa) !! this) as [e1'|] eqn:Hsa; [|done].
    injection He1 as -> <-.
    destruct (_game e1) as [g|] eqn:Hg1; [|done].
    apply bind_Ok_inv in Hbody as (gm & s' & Hgm & Hbody).
    unfold get_game in Hgm.
    destruct (games (heap sa) !! g) as [gm0|] eqn:Hgs; [|done].
    injection Hgm as -> <-.
    rewrite (modify_ent_Some _ _ _ _ Hsa) in Hbody. injection Hbody as <-.
    rewrite store_lookup_eq in Hsb. injection Hsb as <-.
    unfold cache_current. cbn [_game with_lastRelativePosCalculated].
    rewrite Hg1. cbn [store heap games with_heap with_ents]. rewrite Hgs.
    cbn [_lastRelativePosCalculated with_lastRelativePosCalculated].
    now rewrite Z.ltb_irrefl.
  - injection Hbody as <-. rewrite Hthis in Hsb. injection Hsb as <-. now apply Hcur.
Qed.

Lemma same_but_cache_lookup s s' l :
  same_but_cache s s' ->
  uncached <$> (ents (heap s) !! l) = uncached <$> (ents (heap s') !! l).
Proof. intros (_&_&_&H). by rewrite <- !lookup_fmap, H. Qed.

Lemma same_but_cache_Some s s' l e :
  same_but_cache s s' ->
  ents (heap s) !! l = Some e ->
  exists e', ents (heap s') !! l = Some e' /\ uncached e' = uncached e.
Proof.
  intros H He. apply (same_but_cache_lookup _ _ l) in H. rewrite He in H.
  destruct (ents (heap s') !! l) as [e'|]; [|done].
  exists e'. split; [done|]. cbn in H. congruence.
Qed.

Lemma uncached_eq e e' :
  uncached e' = uncached e ->
  pos e' = pos e /\ _parent e' = _parent e /\ _game e' = _game e
  /\ forall a r,
      with_lastRelativePosCalculated a (with_relativePos r e')
      = with_lastRelativePosCalculated a (with_relativePos r e).
Proof.
  destruct e, e'. unfold uncached, with_lastRelativePosCalculated, with_relativePos.
  cbn. intros [=]. subst. done.
Qed.


Lemma chain_ok_not_self d s this e :
  chain_ok d s this = true ->
  ents (heap s) !! this = Some e ->
  _parent e <> Some this.
Proof.
  intros H He Hp. induction d as [|d IH]; [done|].
  cbn [chain_ok] in H. rewrite He, Hp in H.
  apply andb_true_iff in H as [_ H]. by apply IH.
Qed.


Lemma left_Some this s e :
  ents (heap s) !! this = Some e -> left this s = Ok (Vector2D.x (pos e)) s.
Proof. intros He. unfold left. now rewrite (bind_Ok _ _ _ _ _ (get_ent_Some _ _ _ He)). Qed.

Lemma top_Some this s e :
  ents (heap s) !! this = Some e -> top this s = Ok (Vector2D.y (pos e)) s.
Proof. intros He. unfold top. now rewrite (bind_Ok _ _ _ _ _ (get_ent_Some _ _ _ He)). Qed.



(** What a read computes and the state it leaves, for an entity whose
    chain of parents is in order: the cached vector when the cache is current, and otherwise the
    local position, added to what the read of the parent returns when there
    is a parent; the cache then holds this vector under the stamp of the
    current frame. *)
Lemma calc_full d :
  forall this s fuel e,
    chain_ok d s this = true ->
    (d <= fuel)%nat ->
    ents (heap s) !! this = Some e ->
    exists r s1,
      _calculateRelativePos fuel this s = Ok r s1
      /\ (cache_current s e = true -> r = _relativePos e /\ s1 = s)
      /\ (cache_current s e = false ->
          exists g gm sp,
            _game e = Some g /\ games (heap s) !! g = Some gm
            /\ s1 = store this
                      (with_lastRelativePosCalculated (frameCounter gm)
                         (with_relativePos r e)) sp
            /\ match _parent e with
               | None => r = pos e /\ sp = s
               | Some p =>
                   exists rp,
                     _calculateRelativePos (pred fuel) p s = Ok rp sp
                     /\ r = Vector2D.add (pos e) rp
               end).
Proof.
  induction d as [|d IH]; intros this s fuel e Hok Hle He; [done|].
  destruct fuel as [|fuel]; [lia|].
  destruct (cache_current s e) eqn:Hcur.
  { exists (_relativePos e), s. split; [by apply calc_cached|]. by split. }
  pose proof Hok as Hok'. cbn [chain_ok] in Hok'. rewrite He in Hok'.
  apply andb_true_iff in Hok' as [Hgame Hpar].
  unfold cache_current in Hcur.
  destruct (_game e) as [g|] eqn:Hg; [|done].
  apply bool_decide_eq_true in Hgame as [gm Hgm]. rewrite Hgm in Hcur.
  apply negb_false_iff in Hcur.
  assert (Hstale : (match _game e with
                    | Some g =>
                        gm <- get_game g ;;
                        ret (_lastRelativePosCalculated e <? frameCounter gm)%Z
                    | None => ret false
                    end) s = Ok true s).
  { rewrite Hg, (bind_Ok _ _ _ _ _ (get_game_Some _ _ _ Hgm)).
    unfold ret. now rewrite Hcur. }
  assert (Hend : forall sb eb r,
            ents (heap sb) !! this = Some eb ->
            uncached eb = uncached e ->
            _relativePos eb = r ->
            games (heap sb) = games (heap s) ->
            (e1 <- get_ent this ;;
             match _game e1 with
             | Some g =>
                 gm <- get_game g ;;
                 modify_ent this (with_lastRelativePosCalculated (frameCounter gm))
             | None => throw TypeError
             end) sb
            = Ok tt (store this (with_lastRelativePosCalculated (frameCounter gm)
                                   (with_relativePos r e)) sb)).
  { intros sb eb r Hb Hu Hr Hgs.
    destruct (uncached_eq _ _ Hu) as (_ & _ & Hgb & Hw).
    rewrite (bind_Ok _ _ _ _ _ (get_ent_Some _ _ _ Hb)), Hgb, Hg.
    assert (Hgm' : games (heap sb) !! g = Some gm) by now rewrite Hgs.
    rewrite (bind_Ok _ _ _ _ _ (get_game_Some _ _ _ Hgm')).
    rewrite (modify_ent_Some _ _ _ _ Hb). rewrite <- (Hw _ r), <- Hr.
    assert (Heta : with_relativePos (_relativePos eb) eb = eb) by (by destruct eb).
    by rewrite Heta. }
  cbn [_calculateRelativePos].
  rewrite (bind_Ok _ _ _ _ _ (get_ent_Some _ _ _ He)).
  rewrite (bind_Ok _ _ _ _ _ Hstale).
  destruct (_parent e) as [p|] eqn:Hp.
  - (* a parent *)
    cbn [chain_ok] in Hpar.
    assert (Hpne : p <> this).
    { intros ->. by apply (chain_ok_not_self _ _ _ _ Hok He). }
    assert (is_Some (ents (heap s) !! p)) as [ep Hep].
    { destruct d; [done|]. cbn [chain_ok] in Hpar.
      destruct (ents (heap s) !! p); [by eexists|done]. }
    destruct (IH p s fuel ep Hpar ltac:(lia) Hep) as (rp & sp & Hrp & _ & _).
    pose proof (keeps_Ok _ _ _ _ _ (calc_keeps_cache fuel p) Hrp) as Hsame.
    destruct (same_but_cache_Some _ _ _ _ Hsame He) as (ea & Hea & Hua).
    destruct (uncached_eq _ _ Hua) as (Hpos & _ & _ & _).
    destruct (calc_settles _ _ _ _ _ Hrp) as (ep1 & Hep1 & Hrel1 & Hcur1).
    set (ea' := with_relativePos
                  (Vector2D.mk (Vector2D.x (pos e) + Vector2D.x rp)%float
                     (Vector2D.y (_relativePos ea))) ea).
    set (sp1 := store this ea' sp).
    assert (Hrp2 : _calculateRelativePos fuel p sp1 = Ok rp sp1).
    { destruct fuel as [|fuel]; [done|]. rewrite <- Hrel1.
      apply calc_cached; [|done]. unfold sp1. by rewrite store_lookup_ne. }
    set (eb := with_relativePos
                 (Vector2D.mk (Vector2D.x (_relativePos ea'))
                    (Vector2D.y (pos e) + Vector2D.y rp)%float) ea').
    set (sp2 := store this eb sp1).
    assert (Hbody :
      (px <- left this ;;
       pl <- (v <- _calculateRelativePos fuel p ;; ret (Vector2D.x v)) ;;
       assign_relativePos_x this (px + pl)%float ;;;
       py <- top this ;;
       pt <- (v <- _calculateRelativePos fuel p ;; ret (Vector2D.y v)) ;;
       assign_relativePos_y this (py + pt)%float) s = Ok tt sp2).
    { rewrite (bind_Ok _ _ _ _ _ (left_Some _ _ _ He)).
      assert (H1 : (v <- _calculateRelativePos fuel p ;; ret (Vector2D.x v)) s
                   = Ok (Vector2D.x rp) sp) by now rewrite (bind_Ok _ _ _ _ _ Hrp).
      rewrite (bind_Ok _ _ _ _ _ H1).
      unfold assign_relativePos_x.
      rewrite (bind_Ok _ _ _ _ _ (modify_ent_Some _ _ _ _ Hea)). fold ea' sp1.
      assert (Hea' : ents (heap sp1) !! this = Some ea') by apply store_lookup_eq.
      rewrite (bind_Ok _ _ _ _ _ (top_Some _ _ _ Hea')).
      assert (H2 : (v <- _calculateRelativePos fuel p ;; ret (Vector2D.y v)) sp1
                   = Ok (Vector2D.y rp) sp1) by now rewrite (bind_Ok _ _ _ _ _ Hrp2).
      rewrite (bind_Ok _ _ _ _ _ H2).
      unfold assign_relativePos_y.
      rewrite (modify_ent_Some _ _ _ _ Hea'). unfold sp2, eb.
      assert (Hpos' : pos ea' = pos e) by exact Hpos.
      now rewrite Hpos'. }
    cbv beta iota. rewrite bind_assoc, (bind_Ok _ _ _ _ _ Hbody).
    assert (Hb : ents (heap sp2) !! this = Some eb) by apply store_lookup_eq.
    assert (Hgs : games (heap sp2) = games (heap s)).
    { destruct Hsame as (_&_&Hgs&_). by rewrite Hgs. }
    rewrite (bind_Ok _ _ _ _ _ (Hend sp2 eb (Vector2D.add (pos e) rp) Hb
                                  ltac:(by rewrite <- Hua; destruct ea)
                                  eq_refl Hgs)).
    rewrite (bind_Ok _ _ _ _ _ (get_ent_Some _ _ _ (store_lookup_eq _ _ _))).
    exists (Vector2D.add (pos e) rp), (store this
       (with_lastRelativePosCalculated (frameCounter gm)
          (with_relativePos (Vector2D.add (pos e) rp) e)) sp2).
    split; [done|]. split; [done|]. intros _.
    exists g, gm, sp. split; [done|]. split; [done|]. split.
    + unfold sp2, sp1. by rewrite !store_store.
    + by exists rp.
  - (* no parent *)
    set (ea := with_relativePos
                 (Vector2D.mk (Vector2D.x (pos e)) (Vector2D.y (_relativePos e))) e).
    set (eb := with_relativePos
                 (Vector2D.mk (Vector2D.x (_relativePos ea)) (Vector2D.y (pos e))) ea).
    assert (Hbody :
      (px <- left this ;;
       assign_relativePos_x this px ;;;
       py <- top this ;;
       assign_relativePos_y this py) s = Ok tt (store this eb s)).
    { rewrite (bind_Ok _ _ _ _ _ (left_Some _ _ _ He)).
      unfold assign_relativePos_x.
      rewrite (bind_Ok _ _ _ _ _ (modify_ent_Some _ _ _ _ He)). fold ea.
      assert (Hea : ents (heap (store this ea s)) !! this = Some ea)
        by apply store_lookup_eq.
      rewrite (bind_Ok _ _ _ _ _ (top_Some _ _ _ Hea)).
      unfold assign_relativePos_y.
      rewrite (modify_ent_Some _ _ _ _ Hea). now rewrite store_store. }
    cbv beta iota. rewrite bind_assoc, (bind_Ok _ _ _ _ _ Hbody).
    assert (Hb : ents (heap (store this eb s)) !! this = Some eb)
      by apply store_lookup_eq.
    rewrite (bind_Ok _ _ _ _ _ (Hend (store this eb s) eb (pos e) Hb
                                  ltac:(by destruct e)
                                  ltac:(by destruct e as [[] ]) eq_refl)).
    rewrite (bind_Ok _ _ _ _ _ (get_ent_Some _ _ _ (store_lookup_eq _ _ _))).
    eexists _, _. split; [reflexivity|]. split; [done|]. intros _.
    exists g, gm, s. split; [done|]. split; [done|]. split; [|done].
    by rewrite store_store.
Qed.

(** What a read computes, for an entity whose chain of parents is in
    order: the cached vector when the cache is current, and otherwise the
    local position, added to what the read of the parent returns when there
    is a parent; the cache then holds this vector under the stamp of the
    current frame. *)
Lemma calc_spec d :
  forall this s fuel e,
    chain_ok d s this = true ->
    (d <= fuel)%nat ->
    ents (heap s) !! this = Some e ->
    exists r s1,
      _calculateRelativePos fuel this s = Ok r s1
      /\ (cache_current s e = true -> r = _relativePos e /\ s1 = s)
      /\ (cache_current s e = false ->
          (exists g gm,
             _game e = Some g /\ games (heap s) !! g = Some gm
             /\ ents (heap s1) !! this
                = Some (with_lastRelativePosCalculated (frameCounter gm)
                          (with_relativePos r e)))
          /\ match _parent e with
             | None => r = pos e
             | Some p =>
                 exists rp sp,
                   _calculateRelativePos (pred fuel) p s = Ok rp sp
                   /\ r = Vector2D.add (pos e) rp
             end).
Proof.
  intros this s fuel e Hok Hle He.
  destruct (calc_full d this s fuel e Hok Hle He) as (r & s1 & Hr & Hcur & Hst).
  exists r, s1. split; [done|]. split; [done|]. intros Hc.
  destruct (Hst Hc) as (g & gm & sp & Hg & Hgm & -> & Hpar). split.
  - exists g, gm. split; [done|]. split; [done|]. apply store_lookup_eq.
  - destruct (_parent e) as [p|].
    + destruct Hpar as (rp & Hrp & ->). by exists rp, sp.
    + by destruct Hpar.
Qed.

Lemma chain_ok_root s this e :
  ents (heap s) !! this = Some e ->
  _parent e = None ->
  (forall g, _game e = Some g -> is_Some (games (heap s) !! g)) ->
  chain_ok 1 s this = true.
Proof.
  intros He Hp Hg. cbn [chain_ok]. rewrite He, Hp.
  destruct (_game e) as [g|]; [|done].
  rewrite andb_true_r. apply bool_decide_eq_true. by apply Hg.
Qed.

(** The read of an entity without parent whose cache agrees with its
    local position, or is recomputed, returns the local position, and the
    cache agrees with it afterwards. *)
Lemma calc_root fuel this s e :
  ents (heap s) !! this = Some e ->
  _parent e = None ->
  (forall g, _game e = Some g -> is_Some (games (heap s) !! g)) ->
  _relativePos e = pos e \/ cache_current s e = false ->
  exists s1 e1,
    _calculateRelativePos (S fuel) this s = Ok (pos e) s1
    /\ ents (heap s1) !! this = Some e1
    /\ pos e1 = pos e /\ _relativePos e1 = pos e.
Proof.
  intros He Hp Hg Hor.
  destruct (calc_spec 1 this s (S fuel) e (chain_ok_root _ _ _ He Hp Hg)
              ltac:(lia) He) as (r & s1 & Hr & Hcur & Hstale).
  destruct (cache_current s e) eqn:Hc.
  - destruct (Hcur eq_refl) as [-> ->]. destruct Hor as [Hrel|]; [|done].
    rewrite Hrel in Hr. by exists s, e.
  - destruct (Hstale eq_refl) as ((g & gm & _ & _ & He1) & Hv).
    rewrite Hp in Hv. subst r. by eexists s1, _.
Qed.

(** C5, as amended. For an entity without parent, [relativeLeft] is [left]
    and [relativeTop] is [top] at every read made while the cache agrees
    with the local position and at every read that recomputes; and a
    write through the accessor [left] (or [top]) is seen by the next read
    of [relativeLeft] (or [relativeTop]). Nothing is said of a read that
    finds a cache left behind by a write on the position vector itself or
    by the integration step. *)
Theorem parentless_relative_is_local this s e :
  ents (heap s) !! this = Some e ->
  _parent e = None ->
  (forall g, _game e = Some g -> is_Some (games (heap s) !! g)) ->
  (_relativePos e = pos e \/ cache_current s e = false ->
   forall fuel, exists s1,
     relativeLeft (S fuel) this s = Ok (Vector2D.x (pos e)) s1
     /\ left this s1 = Ok (Vector2D.x (pos e)) s1
     /\ relativeTop (S fuel) this s = Ok (Vector2D.y (pos e)) s1
     /\ top this s1 = Ok (Vector2D.y (pos e)) s1)
  /\ (forall v fuel, exists s1 s2,
       set_left fuel this v s = Ok tt s1
       /\ relativeLeft (S fuel) this s1 = Ok v s2
       /\ left this s2 = Ok v s2)
  /\ (forall v fuel, exists s1 s2,
       set_top fuel this v s = Ok tt s1
       /\ relativeTop (S fuel) this s1 = Ok v s2
       /\ top this s2 = Ok v s2).
Proof.
  intros He Hp Hg. split; [|split].
  - intros Hor fuel.
    destruct (calc_root fuel this s e He Hp Hg Hor) as (s1 & e1 & Hr & He1 & Hpos & _).
    exists s1. unfold relativeLeft, relativeTop.
    rewrite !(bind_Ok _ _ _ _ _ Hr), (left_Some _ _ _ He1), (top_Some _ _ _ He1).
    by rewrite Hpos.
  - intros v fuel.
    set (ea := with_pos (Vector2D.mk v (Vector2D.y (pos e))) e).
    set (eb := with_relativePos (Vector2D.mk v (Vector2D.y (_relativePos ea))) ea).
    assert (Hset : set_left fuel this v s = Ok tt (store this eb s)).
    { unfold set_left.
      rewrite (bind_Ok _ _ _ _ _ (modify_ent_Some _ _ _ _ He)). fold ea.
      assert (Hea : ents (heap (store this ea s)) !! this = Some ea)
        by apply store_lookup_eq.
      rewrite (bind_Ok _ _ _ _ _ (get_ent_Some _ _ _ Hea)).
      change (_parent ea) with (_parent e). rewrite Hp.
      rewrite (bind_Ok _ _ _ _ _ (left_Some _ _ _ Hea)).
      unfold assign_relativePos_x. rewrite (modify_ent_Some _ _ _ _ Hea).
      by rewrite store_store. }
    assert (Heb : ents (heap (store this eb s)) !! this = Some eb)
      by apply store_lookup_eq.
    destruct (calc_spec 1 this (store this eb s) (S fuel) eb
                (chain_ok_root _ _ _ Heb Hp Hg) ltac:(lia) Heb)
      as (r & s2 & Hr & Hcur & Hstale).
    exists (store this eb s), s2. split; [done|].
    unfold relativeLeft. rewrite (bind_Ok _ _ _ _ _ Hr).
    destruct (cache_current (store this eb s) eb) eqn:Hc.
    + destruct (Hcur eq_refl) as [-> ->]. split; [done|].
      by rewrite (left_Some _ _ _ Heb).
    + destruct (Hstale eq_refl) as ((g & gm & _ & _ & He2) & Hv).
      change (_parent eb) with (_parent e) in Hv. rewrite Hp in Hv. subst r.
      split; [done|]. by rewrite (left_Some _ _ _ He2).
  - intros v fuel.
    set (ea := with_pos (Vector2D.mk (Vector2D.x (pos e)) v) e).
    set (eb := with_relativePos (Vector2D.mk (Vector2D.x (_relativePos ea)) v) ea).
    assert (Hset : set_top fuel this v s = Ok tt (store this eb s)).
    { unfold set_top.
      rewrite (bind_Ok _ _ _ _ _ (modify_ent_Some _ _ _ _ He)). fold ea.
      assert (Hea : ents (heap (store this ea s)) !! this = Some ea)
        by apply store_lookup_eq.
      rewrite (bind_Ok _ _ _ _ _ (get_ent_Some _ _ _ Hea)).
      change (_parent ea) with (_parent e). rewrite Hp.
      rewrite (bind_Ok _ _ _ _ _ (top_Some _ _ _ Hea)).
      unfold assign_relativePos_y. rewrite (modify_ent_Some _ _ _ _ Hea).
      by rewrite store_store. }
    assert (Heb : ents (heap (store this eb s)) !! this = Some eb)
      by apply store_lookup_eq.
    destruct (calc_spec 1 this (store this eb s) (S fuel) eb
                (chain_ok_root _ _ _ Heb Hp Hg) ltac:(lia) Heb)
      as (r & s2 & Hr & Hcur & Hstale).
    exists (store this eb s), s2. split; [done|].
    unfold relativeTop. rewrite (bind_Ok _ _ _ _ _ Hr).
    destruct (cache_current (store this eb s) eb) eqn:Hc.
    + destruct (Hcur eq_refl) as [-> ->]. split; [done|].
      by rewrite (top_Some _ _ _ Heb).
    + destruct (Hstale eq_refl) as ((g & gm & _ & _ & He2) & Hv).
      change (_parent eb) with (_parent e) in Hv. rewrite Hp in Hv. subst r.
      split; [done|]. by rewrite (top_Some _ _ _ He2).
Qed.

(** C6. An entity in a scene: a read that follows a read, with the entity
    and its scene as the first read has left them, returns the same value
    and changes nothing; a cache stamped with the current frame counter is
    returned as it stands; and once the frame counter has moved on, the
    next read recomputes: it returns the local position, added to what
    the read of the parent returns when there is a parent, and stamps the
    cache with the new frame counter. *)
Theorem cache_within_frame this s e g gm :
  ents (heap s) !! this = Some e ->
  _game e = Some g ->
  games (heap s) !! g = Some gm ->
  (forall fuel v s1,
     relativeLeft fuel this s = Ok v s1 ->
     forall s1' fuel',
       ents (heap s1') !! this = ents (heap s1) !! this ->
       games (heap s1') !! g = games (heap s1) !! g ->
       relativeLeft (S fuel') this s1' = Ok v s1')
  /\ (_lastRelativePosCalculated e = frameCounter gm ->
      forall fuel,
        _calculateRelativePos (S fuel) this s = Ok (_relativePos e) s)
  /\ (_lastRelativePosCalculated e = frameCounter gm ->
      forall fc' d fuel,
        (frameCounter gm < fc')%Z ->
        let s' := store_game g (with_frameCounter fc' gm) s in
        chain_ok d s' this = true ->
        (d <= fuel)%nat ->
        exists r s2,
          _calculateRelativePos fuel this s' = Ok r s2
          /\ ents (heap s2) !! this
             = Some (with_lastRelativePosCalculated fc' (with_relativePos r e))
          /\ match _parent e with
             | None => r = pos e
             | Some p =>
                 exists rp sp,
                   _calculateRelativePos (pred fuel) p s' = Ok rp sp
                   /\ r = Vector2D.add (pos e) rp
             end).
Proof.
  intros He Hg Hgm. split; [|split].
  - intros fuel v s1 Hread s1' fuel' Hsame Hgame.
    unfold relativeLeft in Hread.
    apply bind_Ok_inv in Hread as (r & s1_ & Hr & Hret). injection Hret as <- <-.
    destruct (calc_settles _ _ _ _ _ Hr) as (e1 & He1 & Hrel & Hcur).
    pose proof (keeps_Ok _ _ _ _ _ (calc_keeps_cache fuel this) Hr) as Hkeep.
    destruct (same_but_cache_Some _ _ _ _ Hkeep He) as (e1' & He1' & Hu).
    rewrite He1 in He1'. injection He1' as <-.
    destruct (uncached_eq _ _ Hu) as (_ & _ & Hg1 & _).
    rewrite <- Hsame in He1.
    assert (Hcur' : cache_current s1' e1 = true).
    { unfold cache_current in *. rewrite Hg1, Hg in *. by rewrite Hgame. }
    unfold relativeLeft.
    rewrite (bind_Ok _ _ _ _ _ (calc_cached fuel' this s1' e1 He1 Hcur')).
    by rewrite Hrel.
  - intros Hstamp fuel. apply calc_cached; [done|].
    unfold cache_current. rewrite Hg, Hgm, Hstamp. by rewrite Z.ltb_irrefl.
  - intros Hstamp fc' d fuel Hlt s' Hok Hle.
    assert (He' : ents (heap s') !! this = Some e) by exact He.
    assert (Hgm' : games (heap s') !! g = Some (with_frameCounter fc' gm))
      by apply lookup_insert_eq.
    destruct (calc_spec d this s' fuel e Hok Hle He')
      as (r & s2 & Hr & _ & Hstale).
    destruct Hstale as ((g0 & gm0 & Hg0 & Hgm0 & He2) & Hv).
    { unfold cache_current. rewrite Hg, Hgm'. cbn [frameCounter with_frameCounter].
      apply negb_false_iff, Z.ltb_lt. lia. }
    rewrite Hg in Hg0. injection Hg0 as <-.
    rewrite Hgm' in Hgm0. injection Hgm0 as <-.
    by exists r, s2.
Qed.

(** ** The tree of the entities *)

Section Graph.

Implicit Types K : gmap loc (list loc).

Lemma child_of_push K this l child p c :
  K !! this = Some l ->
  child_of (<[this := l ++ [child]]> K) p c
  <-> child_of K p c \/ (p = this /\ c = child).
Proof.
  intros Hl. unfold child_of. split.
  - intros (l' & Hl' & Hc). destruct (decide (this = p)) as [->|Hne].
    + rewrite lookup_insert_eq in Hl'. injection Hl' as <-.
      apply elem_of_app in Hc as [Hc|Hc]; [left; eauto|].
      apply list_elem_of_singleton in Hc. by right.
    + rewrite lookup_insert_ne in Hl' by done. left; eauto.
  - intros [(l' & Hl' & Hc)|[-> ->]].
    + destruct (decide (this = p)) as [->|Hne].
      * exists (l ++ [child]). rewrite lookup_insert_eq. split; [done|].
        rewrite Hl in Hl'. injection Hl' as <-. apply elem_of_app. by left.
      * exists l'. by rewrite lookup_insert_ne.
    + exists (l ++ [child]). rewrite lookup_insert_eq. split; [done|].
      apply elem_of_app. right. by apply list_elem_of_singleton.
Qed.

Lemma child_of_remove K this l i p c :
  K !! this = Some l ->
  child_of (<[this := delete i l]> K) p c -> child_of K p c.
Proof.
  intros Hl (l' & Hl' & Hc). destruct (decide (this = p)) as [->|Hne].
  - rewrite lookup_insert_eq in Hl'. injection Hl' as <-. exists l.
    split; [done|]. eapply elem_of_sublist; [done|apply sublist_delete].
  - rewrite lookup_insert_ne in Hl' by done. by exists l'.
Qed.

Lemma child_of_fresh K l p c :
  K !! l = None ->
  child_of (<[l := []]> K) p c <-> child_of K p c.
Proof.
  intros Hl. unfold child_of. split.
  - intros (l' & Hl' & Hc). destruct (decide (l = p)) as [->|Hne].
    + rewrite lookup_insert_eq in Hl'. injection Hl' as <-.
      by apply not_elem_of_nil in Hc.
    + rewrite lookup_insert_ne in Hl' by done. eauto.
  - intros (l' & Hl' & Hc). exists l'. split; [|done].
    rewrite lookup_insert_ne; [done|]. intros ->. congruence.
Qed.

Lemma tc_mono (R1 R2 : relation loc) x y :
  (forall a b, R1 a b -> R2 a b) -> tc R1 x y -> tc R2 x y.
Proof.
  intros HR. induction 1 as [x y H|x y z H _ IH].
  - apply tc_once. by apply HR.
  - eapply tc_l; [by apply HR|done].
Qed.

(** A path through a graph with one more edge either avoids the edge or
    reaches its source and leaves from its target. *)
Lemma tc_extra_edge (R R' : relation loc) a b x y :
  (forall p c, R' p c -> R p c \/ (p = a /\ c = b)) ->
  tc R' x y ->
  tc R x y \/ (rtc R x a /\ rtc R b y).
Proof.
  intros HR'. induction 1 as [x y H|x y z H _ IH].
  - destruct (HR' _ _ H) as [H'|[-> ->]].
    + left. by apply tc_once.
    + right. split; apply rtc_refl.
  - destruct (HR' _ _ H) as [H'|[-> ->]].
    + destruct IH as [IH|[IH1 IH2]].
      * left. by eapply tc_l.
      * right. split; [by eapply rtc_l|done].
    + right. split; [apply rtc_refl|].
      destruct IH as [IH|[_ IH2]]; [by apply tc_rtc|done].
Qed.

Lemma tree_inv_empty : tree_inv ∅.
Proof.
  assert (H : forall p c, ~ child_of (∅ : gmap loc (list loc)) p c).
  { intros p c (l & Hl & _). by rewrite lookup_empty in Hl. }
  split.
  - intros p c Hc. by apply H in Hc.
  - intros p1 p2 c Hc. by apply H in Hc.
  - intros x Hx. inversion Hx as [? ? Hc|? ? ? Hc]; by apply H in Hc.
Qed.

Lemma tree_inv_fresh K l :
  tree_inv K -> K !! l = None -> tree_inv (<[l := []]> K).
Proof.
  intros [Hclosed Hsingle Hacyclic] Hl. split.
  - intros p c Hc%child_of_fresh; [|done].
    apply lookup_insert_is_Some'. right. by eapply Hclosed.
  - intros p1 p2 c H1%child_of_fresh H2%child_of_fresh; try done.
    by eapply Hsingle.
  - intros x Hx. apply (Hacyclic x). eapply tc_mono; [|done].
    intros a b. by apply child_of_fresh.
Qed.

Lemma tree_inv_remove K this l i :
  tree_inv K -> K !! this = Some l -> tree_inv (<[this := delete i l]> K).
Proof.
  intros [Hclosed Hsingle Hacyclic] Hl. split.
  - intros p c Hc%(child_of_remove _ _ _ _ _ _ Hl).
    apply lookup_insert_is_Some'. right. by eapply Hclosed.
  - intros p1 p2 c H1%(child_of_remove _ _ _ _ _ _ Hl)
      H2%(child_of_remove _ _ _ _ _ _ Hl).
    by eapply Hsingle.
  - intros x Hx. apply (Hacyclic x). eapply tc_mono; [|done].
    intros a b. by apply child_of_remove.
Qed.

Lemma tree_inv_push K this l child :
  tree_inv K ->
  K !! this = Some l ->
  is_Some (K !! child) ->
  (forall p, child_of K p child -> p = this) ->
  ~ rtc (child_of K) child this ->
  tree_inv (<[this := l ++ [child]]> K).
Proof.
  intros [Hclosed Hsingle Hacyclic] Hl Hchild Honly Hnot. split.
  - intros p c [Hc|[-> ->]]%(child_of_push _ _ _ _ _ _ Hl);
      apply lookup_insert_is_Some'; right; [by eapply Hclosed|done].
  - intros p1 p2 c [H1|[-> ->]]%(child_of_push _ _ _ _ _ _ Hl)
      [H2|[-> Hc]]%(child_of_push _ _ _ _ _ _ Hl).
    + by eapply Hsingle.
    + subst c. by apply Honly.
    + symmetry. by apply Honly.
    + done.
  - intros x Hx.
    destruct (tc_extra_edge (child_of K) _ this child x x
                (fun p c => proj1 (child_of_push K this l child p c Hl)) Hx)
      as [Hx'|[H1 H2]].
    + by apply (Hacyclic x).
    + apply Hnot. by etrans.
Qed.

End Graph.

Lemma kids_store l e s : kids (store l e s) = <[l := children e]> (kids s).
Proof. unfold kids, store. cbn [heap ents with_heap with_ents]. apply fmap_insert. Qed.

Lemma kids_lookup s l e :
  ents (heap s) !! l = Some e -> kids s !! l = Some (children e).
Proof. intros H. unfold kids. by rewrite lookup_fmap, H. Qed.

Lemma kids_lookup_None s l :
  ents (heap s) !! l = None -> kids s !! l = None.
Proof. intros H. unfold kids. by rewrite lookup_fmap, H. Qed.

Lemma kids_is_Some s l :
  is_Some (kids s !! l) <-> is_Some (ents (heap s) !! l).
Proof. unfold kids. rewrite lookup_fmap. apply fmap_is_Some. Qed.

Lemma keeps_kids_modify l f :
  (forall e, children (f e) = children e) ->
  keeps same_kids (modify_ent l f).
Proof.
  intros Hf s. unfold modify_ent, bind, get_ent.
  destruct (ents (heap s) !! l) as [e|] eqn:He; [|done].
  cbn [final put_ent]. unfold same_kids. rewrite kids_store, Hf.
  symmetry. apply insert_id. by apply kids_lookup.
Qed.

Lemma _updateGame_keeps_kids fuel this game :
  keeps same_kids (_updateGame fuel this game).
Proof.
  revert this. induction fuel as [|fuel IH]; intros this; cbn [_updateGame].
  - keeps_with fail.
  - keeps_with ltac:(first [apply keeps_kids_modify; by intros | apply IH]).
Qed.

Lemma _updateGame_leaf fuel this game s e :
  ents (heap s) !! this = Some e ->
  children e = [] ->
  _updateGame (S fuel) this game s = Ok tt (store this (with_game game e) s).
Proof.
  intros He Hnil. cbn [_updateGame].
  rewrite (bind_Ok _ _ _ _ _ (modify_ent_Some _ _ _ _ He)).
  unfold forEach_children.
  rewrite (bind_Ok _ _ _ _ _ (get_ent_Some _ _ _ (store_lookup_eq _ _ _))).
  cbn [children with_game]. by rewrite Hnil.
Qed.

Lemma _updateGame_Ok_Some fuel this game s s' :
  _updateGame fuel this game s = Ok tt s' -> is_Some (ents (heap s) !! this).
Proof.
  destruct fuel as [|fuel]; [done|]. cbn [_updateGame]. intros H.
  apply bind_Ok_inv in H as ([] & sm & H & _).
  unfold modify_ent in H. apply bind_Ok_inv in H as (e & sm' & H & _).
  unfold get_ent in H. destruct (ents (heap s) !! this); [by eexists|done].
Qed.

Lemma push_child_kids this child s e :
  ents (heap s) !! this = Some e ->
  exists s', push_child this child s = Ok tt s'
             /\ kids s' = <[this := children e ++ [child]]> (kids s).
Proof.
  intros He. unfold push_child. rewrite (modify_ent_Some _ _ _ _ He).
  eexists. split; [done|]. by rewrite kids_store.
Qed.

Lemma attach_kids fuel this child s c s' :
  addChildEntity fuel this child s = Ok c s' ->
  exists l,
    kids s !! this = Some l /\ is_Some (kids s !! child)
    /\ kids s' = <[this := l ++ [child]]> (kids s).
Proof.
  unfold addChildEntity. intros H.
  apply bind_Ok_inv in H as (e & s0 & He & H).
  unfold get_ent in He. destruct (ents (heap s) !! this) as [e0|] eqn:Hthis; [|done].
  injection He as -> <-.
  apply bind_Ok_inv in H as ([] & sa & Ha & H).
  apply bind_Ok_inv in H as ([] & sb & Hb & H).
  apply bind_Ok_inv in H as ([] & sc & Hc & H). injection H as _ <-.
  pose proof (keeps_Ok _ _ _ _ _ (_updateGame_keeps_kids fuel child (_game e)) Ha) as Ka.
  pose proof (keeps_Ok _ _ _ _ _
                (keeps_kids_modify child (with_parent (Some this)) (fun _ => eq_refl)) Hb) as Kb.
  unfold same_kids in *.
  assert (Hthis' : kids sb !! this = Some (children e)).
  { rewrite <- Kb, <- Ka. by apply kids_lookup. }
  unfold kids at 1 in Hthis'. rewrite lookup_fmap in Hthis'.
  destruct (ents (heap sb) !! this) as [eb|] eqn:Heb; [|done].
  injection Hthis' as Hkids.
  destruct (push_child_kids this child sb eb Heb) as (sc' & Hc' & Kc).
  rewrite Hc in Hc'. injection Hc' as <-.
  exists (children e). split; [by apply kids_lookup|]. split.
  - apply kids_is_Some. by eapply _updateGame_Ok_Some.
  - by rewrite Kc, Hkids, <- Kb, <- Ka.
Qed.

Lemma attach_tree_inv fuel this child s c s' :
  tree_inv (kids s) ->
  addChildEntity fuel this child s = Ok c s' ->
  (forall p, child_of (kids s) p child -> p = this) ->
  ~ rtc (child_of (kids s)) child this ->
  tree_inv (kids s').
Proof.
  intros Hinv H Honly Hnot.
  destruct (attach_kids _ _ _ _ _ _ H) as (l & Hl & Hchild & ->).
  by apply tree_inv_push.
Qed.

Lemma attach_leaf fuel this child s e ec :
  ents (heap s) !! this = Some e ->
  ents (heap s) !! child = Some ec ->
  children ec = [] ->
  this <> child ->
  exists s', addChildEntity (S fuel) this child s = Ok child s'.
Proof.
  intros He Hec Hnil Hne. unfold addChildEntity.
  rewrite (bind_Ok _ _ _ _ _ (get_ent_Some _ _ _ He)).
  rewrite (bind_Ok _ _ _ _ _ (_updateGame_leaf fuel child (_game e) s ec Hec Hnil)).
  rewrite (bind_Ok _ _ _ _ _
             (modify_ent_Some _ _ _ _ (store_lookup_eq _ _ _))).
  rewrite store_store.
  assert (Hthis : ents (heap (store child
                    (with_parent (Some this) (with_game (_game e) ec)) s)) !! this
                  = Some e) by now rewrite store_lookup_ne.
  destruct (push_child_kids this child _ e Hthis) as (s' & Hpush & _).
  rewrite (bind_Ok _ _ _ _ _ Hpush). by exists s'.
Qed.

Lemma new_Entity_kids x y s :
  exists l s',
    new_Entity x y s = Ok l s'
    /\ ents (heap s) !! l = None
    /\ (exists e, ents (heap s') !! l = Some e /\ children e = [])
    /\ (forall l', l' <> l -> ents (heap s') !! l' = ents (heap s) !! l')
    /\ kids s' = <[l := []]> (kids s).
Proof.
  unfold new_Entity. cbv zeta. eexists _, _. split; [reflexivity|].
  split; [apply not_elem_of_dom, is_fresh|].
  split; [eexists; split; [apply store_lookup_eq|done]|].
  split; [intros l' Hne; by apply store_lookup_ne|].
  exact (kids_store _ _ s).
Qed.

(** C9, as amended. In a state where every child is an object of the
    store, no entity stands in the child array of two entities and no
    entity is among its own descendants, [createChildEntity] returns and
    keeps these three properties, [detachChildEntity] returns and keeps
    them, and [addChildEntity], when it returns, keeps them provided that
    the entity attached stands in the child array of no other entity and
    that the receiver is neither this entity nor one of its descendants. *)
Theorem tree_invariant_preserved this s :
  tree_inv (kids s) ->
  is_Some (ents (heap s) !! this) ->
  (forall fuel, exists c s',
     createChildEntity (S fuel) this s = Ok c s' /\ tree_inv (kids s'))
  /\ (forall child, exists b s',
       detachChildEntity this child s = Ok b s' /\ tree_inv (kids s'))
  /\ (forall fuel child c s',
       addChildEntity fuel this child s = Ok c s' ->
       (forall p, child_of (kids s) p child -> p = this) ->
       ~ rtc (child_of (kids s)) child this ->
       tree_inv (kids s')).
Proof.
  intros Hinv [e He]. split; [|split].
  - intros fuel.
    destruct (new_Entity_kids 0 0 s) as (child & sa & Hnew & Hfresh & (ec & Hec & Hnil) & Hold & Ka).
    assert (Hne : this <> child) by (intros ->; congruence).
    assert (Hea : ents (heap sa) !! this = Some e) by (rewrite Hold; done).
    destruct (attach_leaf fuel this child sa e ec Hea Hec Hnil Hne) as (s' & Hs').
    exists child, s'. split.
    + unfold createChildEntity. by rewrite (bind_Ok _ _ _ _ _ Hnew).
    + assert (Hk : kids s !! child = None) by by apply kids_lookup_None.
      apply (attach_tree_inv (S fuel) this child sa child s'); [| done | |].
      * rewrite Ka. by apply tree_inv_fresh.
      * intros p Hp. rewrite Ka in Hp. apply child_of_fresh in Hp; [|done].
        apply (inv_closed _ Hinv) in Hp. rewrite Hk in Hp. by destruct Hp.
      * rewrite Ka. intros Hr. apply rtc_inv in Hr as [Heq|(y & (l & Hl & Hy) & _)].
        -- by apply Hne.
        -- rewrite lookup_insert_eq in Hl. injection Hl as <-.
           by apply not_elem_of_nil in Hy.
  - intros child. unfold detachChildEntity.
    rewrite (bind_Ok _ _ _ _ _ (get_ent_Some _ _ _ He)).
    destruct (index_of child (children e)) as [i|].
    + rewrite (bind_Ok _ _ _ _ _ (modify_ent_Some _ _ _ _ He)).
      eexists _, _. split; [reflexivity|]. rewrite kids_store.
      apply tree_inv_remove; [done|]. by apply kids_lookup.
    + by exists false, s.
  - intros fuel child c s' H Honly Hnot. by eapply attach_tree_inv.
Qed.

(** ** The claims on the scenes of the examples *)

(** C1 fails as stated: an entity at rest at the origin with one field of
    mass 25 at (3, 4) is still at rest after [_updateEntity(2)], where the
    inverse-square formula announces the velocity (1.2, 1.6). *)
Lemma still_entity_ignores_field :
  let s := final (scene_field (Vector2D.mk 0 0) empty_state) in
  exists s' e',
    _updateEntity demo_pow demo_update 3 2 1 s = Ok tt s'
    /\ ents (heap s') !! 1%positive = Some e'
    /\ velocity e' = Vector2D.mk 0 0
    /\ announced_velocity 25 (Vector2D.mk 3 4) 2
       = Vector2D.mk 0x1.3333333333334p+0 0x1.999999999999ap+0
    /\ within 1 (Vector2D.x (velocity e'))
         (Vector2D.x (announced_velocity 25 (Vector2D.mk 3 4) 2)) = false.
Proof.
  intros s. do 2 eexists. split; [vm_compute; reflexivity|].
  split; [vm_compute; reflexivity|].
  repeat split; vm_compute; reflexivity.
Qed.

(** At time 11 the child of [scene_ttl], ten milliseconds to live and
    created at time 0, leaves the child array of the root. *)
Lemma expiry_is_strict_witness :
  let s := final (scene_ttl 11 empty_state) in
  exists s' r,
    _updateEntity demo_pow demo_update 3 1 2 s = Ok tt s'
    /\ ents (heap s') !! 1%positive = Some r
    /\ children r = [].
Proof.
  intros s.
  edestruct (expiry_is_strict demo_pow demo_update 2 1 2 s) as (_ & H & _).
  - vm_compute. reflexivity.
  - reflexivity.
  - discriminate.
  - reflexivity.
  - vm_compute. reflexivity.
  - reflexivity.
  - rewrite H by reflexivity. do 2 eexists.
    split; [vm_compute; reflexivity|]. split; vm_compute; reflexivity.
Defined.

(** C7 fails as stated: the child of [scene_ttl] was created and attached
    at time 0 with ten milliseconds to live, and the update that runs at
    time 10 leaves it in the child array of the root. *)
Lemma no_detach_at_the_deadline :
  let s := final (scene_ttl 10 empty_state) in
  exists s' r,
    _updateEntity demo_pow demo_update 3 1 2 s = Ok tt s'
    /\ ents (heap s') !! 1%positive = Some r
    /\ children r = [2%positive].
Proof.
  intros s. do 2 eexists.
  split; [vm_compute; reflexivity|]. split; vm_compute; reflexivity.
Qed.

(** C8, on the code: the entity of [scene_orphan] has no parent and has
    outlived its five milliseconds; its update throws a TypeError right
    after it is entered. *)
Lemma expired_orphan_update_throws :
  let s := final (scene_orphan empty_state) in
  _updateEntity demo_pow demo_update 3 1 1 s
  = Err TypeError (mkState (heap s) 10 [EUpdate 1%positive]).
Proof.
  intros s.
  eapply (expired_orphan_throws demo_pow demo_update 2 1 1 s);
    vm_compute; reflexivity.
Qed.

(** The hidden entity of [scene_hidden_drawable] has a render hook: its
    rendering records its own entry and nothing else. *)
Lemma hidden_entity_render_witness :
  let s := final (scene_hidden_drawable empty_state) in
  _renderEntity demo_render 3 1 s
  = Ok tt (mkState (heap s) (clock s) [ERender 1%positive]).
Proof.
  intros s.
  edestruct (hidden_entity_render demo_render 2 1 s) as [H _].
  - vm_compute. reflexivity.
  - reflexivity.
  - apply H. discriminate.
Defined.

(** C2 fails as stated: the parent of [scene_hidden_container] has
    [display = false] and no render hook, and its rendering goes on to
    render its child and to call the render hook of the child. *)
Lemma hidden_container_renders_children :
  let s := final (scene_hidden_container empty_state) in
  (exists e, ents (heap s) !! 1%positive = Some e
             /\ display e = VBool false /\ children e = [2%positive])
  /\ _renderEntity demo_render 3 1 s
     = Ok tt (mkState (heap s) (clock s)
                [ERender 1%positive; ERender 2%positive; ERenderHook 2%positive]).
Proof.
  intros s. split.
  - eexists. split; [vm_compute; reflexivity|]. split; reflexivity.
  - vm_compute. reflexivity.
Qed.

(** The entity of [scene_drawn] is rendered: the counter of its scene goes
    from 0 to 1. The entity of [scene_drawn_nowhere] has no scene: its
    rendering throws after the hook has been called. *)
Lemma rendered_entity_counts_witness :
  (let s := final (scene_drawn empty_state) in
   exists s',
     _renderEntity demo_render 3 1 s = Ok tt s'
     /\ _lastFrameTotalRenders <$> games (heap s) !! 1%positive = Some 0%Z
     /\ _lastFrameTotalRenders <$> games (heap s') !! 1%positive = Some 1%Z)
  /\ (let s := final (scene_drawn_nowhere empty_state) in
      _renderEntity demo_render 3 1 s
      = Err TypeError
          (mkState (heap s) (clock s) [ERender 1%positive; ERenderHook 1%positive])).
Proof.
  split; intros s.
  - edestruct (rendered_entity_counts demo_render 2 1 s) as [H _].
    + vm_compute. reflexivity.
    + reflexivity.
    + reflexivity.
    + reflexivity.
    + reflexivity.
    + edestruct H as [_ H'];
        [vm_compute; reflexivity|reflexivity|vm_compute; reflexivity|].
      eexists. split; [apply H'; reflexivity|]. split; vm_compute; reflexivity.
  - edestruct (rendered_entity_counts demo_render 2 1 s) as [_ H].
    + vm_compute. reflexivity.
    + reflexivity.
    + reflexivity.
    + reflexivity.
    + reflexivity.
    + eapply H; [vm_compute; reflexivity|reflexivity].
Defined.


(** An entity just created at (3, 4), outside any scene: its relative
    position is its local position. *)
Lemma parentless_relative_is_local_witness :
  let s := final (new_Entity 3 4 empty_state) in
  exists s1,
    relativeLeft 1 1 s = Ok 3%float s1
    /\ left 1 s1 = Ok 3%float s1
    /\ relativeTop 1 1 s = Ok 4%float s1
    /\ top 1 s1 = Ok 4%float s1.
Proof.
  intros s.
  edestruct (parentless_relative_is_local 1 s) as [H _].
  - vm_compute. reflexivity.
  - reflexivity.
  - discriminate.
  - apply (H (or_introl eq_refl) 0%nat).
Defined.

(** C5 fails as stated: the entity of [scene_poked] has no parent and has
    been moved to (5, 0) by a write on its position vector; in the same
    frame [left] is 5 while [relativeLeft] is still 0. Likewise for the
    entity of [scene_mover], which the integration step has moved to
    (1, 0). *)
Lemma stale_cache_of_a_root :
  (let s := final (scene_poked empty_state) in
   (exists e, ents (heap s) !! 1%positive = Some e /\ _parent e = None)
   /\ left 1 s = Ok 5%float s
   /\ relativeLeft 3 1 s = Ok 0%float s)
  /\ (let s := final (scene_mover empty_state) in
      (exists e, ents (heap s) !! 1%positive = Some e /\ _parent e = None)
      /\ left 1 s = Ok 1%float s
      /\ relativeLeft 3 1 s = Ok 0%float s).
Proof.
  split; intros s; (split; [|split]);
    first [ eexists; split; [vm_compute; reflexivity|reflexivity]
          | vm_compute; reflexivity ].
Qed.

(** The child of [scene_family] reads 11 at frame 1, and 11 again at the
    next read, which changes nothing; at frame 2 its read computes (11, 0)
    anew and stamps the cache with 2. *)
Lemma cache_within_frame_witness :
  let s := final (scene_family empty_state) in
  let s1 := final (relativeLeft 3 2 s) in
  relativeLeft 3 2 s = Ok 11%float s1
  /\ relativeLeft 1 2 s1 = Ok 11%float s1
  /\ exists s2 e2,
      _calculateRelativePos 2 2 (store_game 1 (mkGame 2 0) s1)
      = Ok (Vector2D.mk 11 0) s2
      /\ ents (heap s2) !! 2%positive = Some e2
      /\ _lastRelativePosCalculated e2 = 2%Z.
Proof.
  intros s s1. split; [vm_compute; reflexivity|]. split.
  - edestruct (cache_within_frame 2 s) as (H & _ & _).
    + vm_compute. reflexivity.
    + reflexivity.
    + vm_compute. reflexivity.
    + eapply (H 3%nat); [vm_compute; reflexivity|reflexivity|reflexivity].
  - edestruct (cache_within_frame 2 s1) as (_ & _ & H).
    + vm_compute. reflexivity.
    + reflexivity.
    + vm_compute. reflexivity.
    + destruct (H eq_refl 2%Z 2%nat 2%nat) as (r & s2 & Hr & He2 & _);
        [reflexivity|vm_compute; reflexivity|lia|].
      assert (Hv : r = Vector2D.mk 11 0).
      { change (store_game 1 (with_frameCounter 2 (mkGame 1 0)) s1)
          with (store_game 1 (mkGame 2 0) s1) in Hr.
        assert (Hc : exists s2',
                  _calculateRelativePos 2 2 (store_game 1 (mkGame 2 0) s1)
                  = Ok (Vector2D.mk 11 0) s2')
          by (eexists; vm_compute; reflexivity).
        destruct Hc as (s2' & Hc). rewrite Hc in Hr. by injection Hr. }
      subst r. by eexists s2, _.
Defined.

Lemma no_edges (K : gmap loc (list loc)) p c :
  map_Forall (fun _ l => l = []) K -> ~ child_of K p c.
Proof.
  intros HK (l & Hl & Hc). apply HK in Hl. subst l. by apply not_elem_of_nil in Hc.
Qed.

(** The three entities of [scene_roots] make a tree without edges. *)
Lemma roots_tree :
  let s := final (scene_roots empty_state) in
  tree_inv (kids s) /\ map_Forall (fun _ l => l = []) (kids s).
Proof.
  intros s.
  assert (HK : kids s = <[3%positive := []]> (<[2%positive := []]>
                 (<[1%positive := []]> (∅ : gmap loc (list loc)))))
    by reflexivity.
  split.
  - rewrite HK. repeat (apply tree_inv_fresh; [|reflexivity]). apply tree_inv_empty.
  - rewrite HK. intros p l Hl.
    repeat (apply lookup_insert_Some in Hl as [[_ <-]|[_ Hl]]; [done|]).
    by rewrite lookup_empty in Hl.
Qed.

Lemma roots_unreachable p c :
  ~ child_of (kids (final (scene_roots empty_state))) p c
  /\ (p <> c -> ~ rtc (child_of (kids (final (scene_roots empty_state)))) p c).
Proof.
  destruct roots_tree as [_ HK]. split; [by apply no_edges|].
  intros Hne Hr. apply rtc_inv in Hr as [Heq|(y & Hy & _)]; [done|].
  by apply no_edges in Hy.
Qed.

(** A root just created gets a child from [createChildEntity], and the
    scene is still a tree; in [scene_roots], [addChildEntity] gives the
    third entity to the first, and the scene is still a tree. *)
Lemma tree_invariant_preserved_witness :
  (let s := final (new_Entity 0 0 empty_state) in
   exists c s', createChildEntity 1 1 s = Ok c s' /\ tree_inv (kids s'))
  /\ (let s := final (scene_roots empty_state) in
      exists s', addChildEntity 2 1 3 s = Ok 3%positive s' /\ tree_inv (kids s')).
Proof.
  split; intros s.
  - edestruct (tree_invariant_preserved 1 s) as [H _].
    + change (kids s) with (<[1%positive := []]> (kids empty_state)).
      apply tree_inv_fresh; [apply tree_inv_empty|reflexivity].
    + eexists. vm_compute. reflexivity.
    + apply (H 0%nat).
  - edestruct (tree_invariant_preserved 1 s) as (_ & _ & H).
    + apply roots_tree.
    + eexists. vm_compute. reflexivity.
    + eexists. split; [vm_compute; reflexivity|].
      eapply (H 2%nat 3%positive).
      * vm_compute. reflexivity.
      * intros p Hp. by apply roots_unreachable in Hp.
      * by apply roots_unreachable.
Defined.

(** C9 fails as stated. In [scene_three], a tree, the third entity is a
    child of the first: attaching it to the second leaves it in the child
    arrays of both, and attaching the first entity to itself makes it its
    own descendant. Both calls return. *)
Lemma attaching_twice_breaks_the_tree :
  let s := final (scene_three empty_state) in
  tree_inv (kids s)
  /\ (exists s1,
        addChildEntity 2 2 3 s = Ok 3%positive s1
        /\ child_of (kids s1) 1 3 /\ child_of (kids s1) 2 3
        /\ ~ tree_inv (kids s1))
  /\ (exists s2,
        addChildEntity 2 1 1 s = Ok 1%positive s2
        /\ child_of (kids s2) 1 1
        /\ ~ tree_inv (kids s2)).
Proof.
  intros s. split; [|split].
  - apply (attach_tree_inv 2 1 3 (final (scene_roots empty_state)) 3%positive s).
    + apply roots_tree.
    + vm_compute. reflexivity.
    + intros p Hp. by apply roots_unreachable in Hp.
    + by apply roots_unreachable.
  - eexists. split; [vm_compute; reflexivity|].
    assert (H1 : child_of (kids (final (addChildEntity 2 2 3 s))) 1 3).
    { exists [3%positive]. split; [vm_compute; reflexivity|]. left. }
    assert (H2 : child_of (kids (final (addChildEntity 2 2 3 s))) 2 3).
    { exists [3%positive]. split; [vm_compute; reflexivity|]. left. }
    split; [exact H1|]. split; [exact H2|].
    intros Hinv. by pose proof (inv_single _ Hinv _ _ _ H1 H2).
  - eexists. split; [vm_compute; reflexivity|].
    assert (H1 : child_of (kids (final (addChildEntity 2 1 1 s))) 1 1).
    { exists [3%positive; 1%positive]. split; [vm_compute; reflexivity|].
      right. left. }
    split; [exact H1|].
    intros Hinv. apply (inv_acyclic _ Hinv 1%positive). by apply tc_once.
Qed.

(** * Further properties *)

(** ** Detaching a child *)

Lemma index_of_split child l i :
  index_of child l = Some i ->
  exists l1 l2,
    l = l1 ++ child :: l2 /\ (child ∉ l1) /\ length l1 = i
    /\ delete i l = l1 ++ l2.
Proof.
  revert i. induction l as [|c l IH]; intros i; simpl; [done|].
  destruct (decide (c = child)) as [->|Hne].
  - intros [= <-]. exists [], l. repeat split; [apply not_elem_of_nil|done..].
  - destruct (index_of child l) as [i'|]; simpl; [|done].
    intros [= <-]. destruct (IH i' eq_refl) as (l1 & l2 & -> & Hnot & Hlen & Hdel).
    exists (c :: l1), l2. repeat split.
    + apply not_elem_of_cons. split; [by intros ->|done].
    + simpl. by rewrite Hlen.
    + simpl. by rewrite Hdel.
Qed.

Lemma index_of_absent child l : child ∉ l -> index_of child l = None.
Proof.
  induction l as [|c l IH]; simpl; [done|].
  intros [Hne Hl]%not_elem_of_cons.
  destruct (decide (c = child)) as [->|_]; [done|]. by rewrite IH.
Qed.

Lemma index_of_present child l : child ∈ l -> is_Some (index_of child l).
Proof.
  induction l as [|c l IH]; simpl; [by intros ?%not_elem_of_nil|].
  destruct (decide (c = child)) as [_|Hne]; [by eexists|].
  intros [Heq|Hl]%elem_of_cons; [by subst|].
  destruct (IH Hl) as [i ->]. by eexists.
Qed.

(** X1. [detachChildEntity] takes the first occurrence of the child out of
    the child array of the receiver, keeps the order of the others and
    returns [true]; when the child is not in the array it returns [false]
    and changes nothing. No other object is written: the entity detached
    keeps its parent reference and its scene. When the child stood once in
    the array, a second call returns [false]. *)
Theorem detach_removes_first_occurrence this child s e :
  ents (heap s) !! this = Some e ->
  (child ∉ children e -> detachChildEntity this child s = Ok false s)
  /\ (child ∈ children e ->
      exists l1 l2,
        children e = l1 ++ child :: l2 /\ (child ∉ l1)
        /\ detachChildEntity this child s
           = Ok true (store this (with_children (l1 ++ l2) e) s)
        /\ (NoDup (children e) ->
            detachChildEntity this child
              (store this (with_children (l1 ++ l2) e) s)
            = Ok false (store this (with_children (l1 ++ l2) e) s))).
Proof.
  intros He. split.
  - intros Hnot. unfold detachChildEntity.
    rewrite (bind_Ok _ _ _ _ _ (get_ent_Some _ _ _ He)).
    by rewrite (index_of_absent _ _ Hnot).
  - intros Hin. destruct (index_of_present _ _ Hin) as [i Hi].
    destruct (index_of_split _ _ _ Hi) as (l1 & l2 & Hl & Hnot & _ & Hdel).
    exists l1, l2. split; [done|]. split; [done|]. split.
    + unfold detachChildEntity.
      rewrite (bind_Ok _ _ _ _ _ (get_ent_Some _ _ _ He)), Hi.
      rewrite (bind_Ok _ _ _ _ _ (modify_ent_Some _ _ _ _ He)).
      by rewrite Hdel.
    + intros Hnd. unfold detachChildEntity.
      rewrite (bind_Ok _ _ _ _ _ (get_ent_Some _ _ _ (store_lookup_eq _ _ _))).
      cbn [children with_children].
      rewrite index_of_absent; [done|].
      rewrite Hl in Hnd. apply NoDup_app in Hnd as (_ & Hdis & Hnd2).
      apply NoDup_cons in Hnd2 as [Hn2 _].
      apply not_elem_of_app. by split.
Qed.

(** ** Traversals of a scene at rest *)

Lemma log_log a b s : log b (log a s) = log (a ++ b) s.
Proof. unfold log. cbn [heap clock trace]. by rewrite app_assoc. Qed.

Lemma log_nil s : log [] s = s.
Proof. destruct s. unfold log. cbn. by rewrite app_nil_r. Qed.

Lemma all_below_inv P d m this :
  all_below P (S d) m this = true ->
  exists e,
    m !! this = Some e /\ P e = true
    /\ forall c, c ∈ children e -> all_below P d m c = true.
Proof.
  cbn [all_below]. destruct (m !! this) as [e|]; [|done].
  intros [HP Hall]%andb_true_iff. exists e. split; [done|]. split; [done|].
  intros c Hc. rewrite forallb_forall in Hall. apply Hall.
  by apply list_elem_of_In.
Qed.

(** [forEach] over a child array that the callback leaves alone, the
    callback adding to the trace only: the calls follow the array. *)
Lemma forEach_from_log cb this s e (ev : loc -> list Event) :
  ents (heap s) !! this = Some e ->
  (forall c, c ∈ children e ->
             forall t, cb c (log t s) = Ok tt (log (t ++ ev c) s)) ->
  forall n k t,
    forEach_from cb this k n (log t s)
    = Ok tt (log (t ++ List.concat (List.map ev (take n (drop k (children e))))) s).
Proof.
  intros He Hcb. induction n as [|n IH]; intros k t.
  - cbn [forEach_from take List.map List.concat]. by rewrite app_nil_r.
  - cbn [forEach_from].
    assert (He' : ents (heap (log t s)) !! this = Some e) by exact He.
    rewrite (bind_Ok _ _ _ _ _ (get_ent_Some _ _ _ He')).
    destruct (children e !! k) as [c|] eqn:Hk.
    + rewrite (drop_S _ _ _ Hk). cbn [take List.map List.concat].
      rewrite (bind_Ok _ _ _ _ _ (Hcb c (list_elem_of_lookup_2 _ _ _ Hk) t)).
      rewrite IH. by rewrite app_assoc.
    + rewrite (bind_Ok _ _ _ _ _ (eq_refl : ret tt (log t s) = Ok tt (log t s))).
      rewrite IH. apply lookup_ge_None in Hk.
      rewrite (drop_ge _ k), (drop_ge _ (S k)) by lia. by destruct n.
Qed.

Lemma forEach_children_log cb this s e (ev : loc -> list Event) t :
  ents (heap s) !! this = Some e ->
  (forall c, c ∈ children e ->
             forall t, cb c (log t s) = Ok tt (log (t ++ ev c) s)) ->
  forEach_children cb this (log t s)
  = Ok tt (log (t ++ List.concat (List.map ev (children e))) s).
Proof.
  intros He Hcb. unfold forEach_children.
  assert (He' : ents (heap (log t s)) !! this = Some e) by exact He.
  rewrite (bind_Ok _ _ _ _ _ (get_ent_Some _ _ _ He')).
  rewrite (forEach_from_log cb this s e ev He Hcb).
  by rewrite drop_0, take_ge.
Qed.

Section Further.

Variable Math_pow : float -> float -> float.
Variable update_impl : hook -> loc -> float -> Heap -> JSVal * Heap.
Variable render_impl : hook -> loc -> Heap -> JSVal * Heap.

Lemma run_update_absent delta this s e :
  ents (heap s) !! this = Some e ->
  update e = None ->
  run_update update_impl delta this s = Ok VUndefined s.
Proof.
  intros He Hup. unfold run_update.
  rewrite (bind_Ok _ _ _ _ _ (get_ent_Some _ _ _ He)). by rewrite Hup.
Qed.

(** X2. On a part of the scene that unfolds into a finite tree of entities
    without time to live, velocity or update hook, [_updateEntity] returns,
    given the depth of the tree as fuel, changes no object, and enters
    every entity once per path from the root, parents before children and
    children in the order of the child arrays. *)
Theorem update_at_rest_is_preorder d :
  forall this fuel s delta,
    all_below at_rest d (ents (heap s)) this = true ->
    (d <= fuel)%nat ->
    _updateEntity Math_pow update_impl fuel delta this s
    = Ok tt (log (List.map EUpdate (preorder d (kids s) this)) s).
Proof.
  induction d as [|d IH]; intros this fuel s delta Hall Hle; [done|].
  destruct fuel as [|fuel]; [lia|].
  destruct (all_below_inv _ _ _ _ Hall) as (e & He & Hrest & Hch).
  unfold at_rest in Hrest.
  apply andb_true_iff in Hrest as [[Httl Hmov]%andb_true_iff Hup].
  apply negb_true_iff in Httl, Hmov. apply bool_decide_eq_true in Hup.
  rewrite _updateEntity_unfold. unfold bind at 1. cbn [emit].
  change (mkState (heap s) (clock s) (trace s ++ [EUpdate this]))
    with (log [EUpdate this] s).
  assert (He0 : ents (heap (log [EUpdate this] s)) !! this = Some e) by exact He.
  assert (Hexp : expire this (log [EUpdate this] s) = Ok tt (log [EUpdate this] s)).
  { apply (expire_fresh this _ e He0). by rewrite Httl. }
  rewrite (bind_Ok _ _ _ _ _ Hexp). unfold after_expire.
  rewrite (bind_Ok _ _ _ _ _ (integrate_still Math_pow fuel delta this _ e He0 Hmov)).
  assert (Hrun : run_update update_impl delta this (log [EUpdate this] s)
                 = Ok VUndefined (log [EUpdate this] s)).
  { unfold run_update. rewrite (bind_Ok _ _ _ _ _ (get_ent_Some _ _ _ He0)).
    by rewrite Hup. }
  rewrite (bind_Ok _ _ _ _ _ Hrun). unfold update_children.
  rewrite (bind_Ok _ _ _ _ _ (get_ent_Some _ _ _ He0)). cbn [truthy is_undefined orb].
  rewrite (forEach_children_log _ this s e
             (fun c => List.map EUpdate (preorder d (kids s) c)) _ He).
  - cbn [preorder]. rewrite (kids_lookup _ _ _ He).
    cbn [List.map app]. by rewrite concat_map, map_map.
  - intros c Hc t. rewrite (IH c fuel (log t s) delta (Hch c Hc) ltac:(lia)).
    by rewrite log_log.
Qed.

(** X3. On a part of the scene that unfolds into a finite tree of entities
    without render hook, whatever their [display], [_renderEntity]
    returns, changes no object (the render counter is not touched and no
    scene is needed), and enters the entities in the same order. *)
Theorem render_without_hooks_is_preorder d :
  forall this fuel s,
    all_below no_render_hook d (ents (heap s)) this = true ->
    (d <= fuel)%nat ->
    _renderEntity render_impl fuel this s
    = Ok tt (log (List.map ERender (preorder d (kids s) this)) s).
Proof.
  induction d as [|d IH]; intros this fuel s Hall Hle; [done|].
  destruct fuel as [|fuel]; [lia|].
  destruct (all_below_inv _ _ _ _ Hall) as (e & He & Hno & Hch).
  apply bool_decide_eq_true in Hno.
  rewrite _renderEntity_unfold. unfold bind at 1. cbn [emit].
  change (mkState (heap s) (clock s) (trace s ++ [ERender this]))
    with (log [ERender this] s).
  assert (He0 : ents (heap (log [ERender this] s)) !! this = Some e) by exact He.
  assert (Hrun : exists v,
            run_render render_impl this (log [ERender this] s)
            = Ok v (log [ERender this] s)
            /\ truthy v = false).
  { unfold run_render. rewrite (bind_Ok _ _ _ _ _ (get_ent_Some _ _ _ He0)).
    destruct (truthy (display e)) eqn:Hd.
    - exists VUndefined. by rewrite Hno.
    - by exists (display e). }
  destruct Hrun as (v & Hrun & Hv).
  rewrite (bind_Ok _ _ _ _ _ Hrun), Hv.
  rewrite (bind_Ok _ _ _ _ _ (eq_refl : ret tt (log [ERender this] s) = Ok tt _)).
  unfold render_children.
  rewrite (bind_Ok _ _ _ _ _ (get_ent_Some _ _ _ He0)), Hno.
  rewrite bool_decide_eq_true_2 by done. rewrite !orb_true_r.
  rewrite (forEach_children_log _ this s e
             (fun c => List.map ERender (preorder d (kids s) c)) _ He).
  - cbn [preorder]. rewrite (kids_lookup _ _ _ He).
    cbn [List.map app]. by rewrite concat_map, map_map.
  - intros c Hc t. rewrite (IH c fuel (log t s) (Hch c Hc) ltac:(lia)).
    by rewrite log_log.
Qed.

(** X4. A child that expires while its parent updates its children takes
    itself out of the array the parent is walking through: with the
    children [a; b], [a] expired and childless, the array becomes [b], the
    walk finds nothing at index 1, and [b] is not updated in this tick. *)
Theorem expiring_child_hides_its_sibling fuel delta p a b s ep ea T :
  ents (heap s) !! p = Some ep ->
  ents (heap s) !! a = Some ea ->
  p <> a ->
  at_rest ep = true ->
  children ep = [a; b] ->
  timeToLive ea = Some T ->
  T <> 0%Z ->
  (T < clock s - _creationTime ea)%Z ->
  _parent ea = Some p ->
  moving (velocity ea) = false ->
  update ea = None ->
  children ea = [] ->
  _updateEntity Math_pow update_impl (S (S fuel)) delta p s
  = Ok tt (log [EUpdate p; EUpdate a] (store p (with_children [b] ep) s)).
Proof.
  intros Hp Ha Hne Hrest Hch HT HT0 Hage Hpar Hmov Hup Hnil.
  unfold at_rest in Hrest.
  apply andb_true_iff in Hrest as [[Httl Hmovp]%andb_true_iff Hupp].
  apply negb_true_iff in Httl, Hmovp. apply bool_decide_eq_true in Hupp.
  (* the update of the child, in the state the parent calls it in *)
  set (s0 := log [EUpdate p] s).
  set (s1 := log [EUpdate p; EUpdate a] (store p (with_children [b] ep) s)).
  assert (Hchild : _updateEntity Math_pow update_impl (S fuel) delta a s0 = Ok tt s1).
  { rewrite _updateEntity_unfold. unfold bind at 1. cbn [emit].
    assert (Hexp : expire a (mkState (heap s0) (clock s0) (trace s0 ++ [EUpdate a]))
                   = Ok tt s1).
    { rewrite (expire_attached a _ ea p ep 0%nat); try done.
      - rewrite Hch. unfold s1, s0, log, store. cbn. by rewrite <- app_assoc.
      - rewrite HT. cbn. by apply negb_true_iff, Z.eqb_neq.
      - rewrite HT. cbn. by apply Z.ltb_lt.
      - rewrite Hch. cbn. by destruct (decide (a = a)). }
    rewrite (bind_Ok _ _ _ _ _ Hexp). unfold after_expire.
    assert (Ha1 : ents (heap s1) !! a = Some ea).
    { unfold s1. change (ents (heap (log _ ?st))) with (ents (heap st)).
      by rewrite store_lookup_ne. }
    rewrite (bind_Ok _ _ _ _ _ (integrate_still Math_pow fuel delta a s1 ea Ha1 Hmov)).
    rewrite (bind_Ok _ _ _ _ _ (run_update_absent delta a s1 ea Ha1 Hup)).
    unfold update_children.
    rewrite (bind_Ok _ _ _ _ _ (get_ent_Some _ _ _ Ha1)). cbn [truthy is_undefined orb].
    unfold forEach_children.
    rewrite (bind_Ok _ _ _ _ _ (get_ent_Some _ _ _ Ha1)). by rewrite Hnil. }
  (* the update of the parent *)
  rewrite _updateEntity_unfold. unfold bind at 1. cbn [emit]. fold (log [EUpdate p] s). fold s0.
  assert (Hp0 : ents (heap s0) !! p = Some ep) by exact Hp.
  assert (Hexp : expire p s0 = Ok tt s0).
  { apply (expire_fresh p s0 ep Hp0). by rewrite Httl. }
  rewrite (bind_Ok _ _ _ _ _ Hexp). unfold after_expire.
  rewrite (bind_Ok _ _ _ _ _ (integrate_still Math_pow (S fuel) delta p s0 ep Hp0 Hmovp)).
  rewrite (bind_Ok _ _ _ _ _ (run_update_absent delta p s0 ep Hp0 Hupp)).
  unfold update_children.
  rewrite (bind_Ok _ _ _ _ _ (get_ent_Some _ _ _ Hp0)). cbn [truthy is_undefined orb].
  unfold forEach_children.
  rewrite (bind_Ok _ _ _ _ _ (get_ent_Some _ _ _ Hp0)), Hch.
  cbn [length forEach_from].
  rewrite (bind_Ok _ _ _ _ _ (get_ent_Some _ _ _ Hp0)), Hch.
  cbn [lookup list_lookup].
  rewrite (bind_Ok _ _ _ _ _ Hchild).
  assert (Hp1 : ents (heap s1) !! p = Some (with_children [b] ep)).
  { unfold s1. change (ents (heap (log _ ?st))) with (ents (heap st)).
    apply store_lookup_eq. }
  rewrite (bind_Ok _ _ _ _ _ (get_ent_Some _ _ _ Hp1)).
  reflexivity.
Qed.

End Further.

(** ** Giving a scene to a subtree *)

(** [forEach] with an invariant that follows the index: it returns when
    every call does. *)
Lemma forEach_from_indexed (I : nat -> State -> Prop) cb this l :
  (forall k s, I k s ->
               exists e, ents (heap s) !! this = Some e /\ children e = l) ->
  (forall k c s, l !! k = Some c -> I k s ->
                 exists s', cb c s = Ok tt s' /\ I (S k) s') ->
  (forall k s, l !! k = None -> I k s -> I (S k) s) ->
  forall n k s,
    I k s ->
    exists s', forEach_from cb this k n s = Ok tt s' /\ I (k + n)%nat s'.
Proof.
  intros Hthis Hcall Hskip. induction n as [|n IH]; intros k s HI.
  - exists s. split; [done|]. by rewrite Nat.add_0_r.
  - cbn [forEach_from]. destruct (Hthis k s HI) as (e & He & Hl).
    rewrite (bind_Ok _ _ _ _ _ (get_ent_Some _ _ _ He)), Hl.
    replace (k + S n)%nat with (S k + n)%nat by lia.
    destruct (l !! k) as [c|] eqn:Hk.
    + destruct (Hcall k c s Hk HI) as (s1 & Hc & HI1).
      rewrite (bind_Ok _ _ _ _ _ Hc). by apply IH.
    + rewrite (bind_Ok _ _ _ _ _ (eq_refl : ret tt s = Ok tt s)).
      apply IH. by apply Hskip.
Qed.

Lemma all_below_kids d m m' this :
  children <$> m = children <$> m' ->
  all_below (fun _ => true) d m this = all_below (fun _ => true) d m' this.
Proof.
  intros Hk. revert this. induction d as [|d IH]; intros this; [done|].
  cbn [all_below].
  assert (Hl : children <$> (m !! this) = children <$> (m' !! this))
    by (by rewrite <- !lookup_fmap, Hk).
  destruct (m !! this) as [e|], (m' !! this) as [e'|]; try done.
  cbn in Hl. injection Hl as ->. cbn [andb].
  induction (children e') as [|c l IHl]; [done|]. cbn. by rewrite IH, IHl.
Qed.

Section Paint.

Variable game : option loc.

Lemma with_game_twice (o : option Entity) :
  with_game game <$> (with_game game <$> o) = with_game game <$> o.
Proof. by destruct o. Qed.

Lemma paint_trans o2 o1 o0 :
  paint game o1 o0 -> paint game o2 o1 -> paint game o2 o0.
Proof.
  unfold paint. intros [H1|H1] [H2|H2]; subst; rewrite ?with_game_twice; auto.
Qed.

Lemma paint_done o2 o1 o0 :
  o1 = with_game game <$> o0 -> paint game o2 o1 -> o2 = with_game game <$> o0.
Proof. intros H1 [H2|H2]; subst; by rewrite ?with_game_twice. Qed.

Lemma paint_after o2 o1 o0 :
  paint game o1 o0 -> o2 = with_game game <$> o1 -> o2 = with_game game <$> o0.
Proof. intros [H1|H1] H2; subst; by rewrite ?with_game_twice. Qed.

(** [_updateGame] on a finite tree, with what the induction needs besides
    [scene_given]: the child arrays stay, and no object is changed but by
    the gift of [game]. *)
Lemma _updateGame_tree d :
  forall this fuel s,
    all_below (fun _ => true) d (ents (heap s)) this = true ->
    (d <= fuel)%nat ->
    exists s',
      _updateGame fuel this game s = Ok tt s'
      /\ scene_given game this s s'
      /\ kids s' = kids s
      /\ (forall x, paint game (ents (heap s') !! x) (ents (heap s) !! x)).
Proof.
  induction d as [|d IH]; intros this fuel s Hall Hle; [done|].
  destruct fuel as [|fuel]; [lia|].
  destruct (all_below_inv _ _ _ _ Hall) as (e & He & _ & Hch).
  cbn [_updateGame].
  rewrite (bind_Ok _ _ _ _ _ (modify_ent_Some _ _ _ _ He)).
  set (s1 := store this (with_game game e) s).
  assert (K1 : kids s1 = kids s).
  { unfold s1. rewrite kids_store. apply insert_id. exact (kids_lookup _ _ _ He). }
  assert (P1 : forall x, paint game (ents (heap s1) !! x) (ents (heap s) !! x)).
  { intros x. destruct (decide (this = x)) as [<-|Hne].
    - right. unfold s1. by rewrite store_lookup_eq, He.
    - left. unfold s1. by rewrite store_lookup_ne. }
  set (l := children e).
  set (I := fun (k : nat) (sk : State) =>
    kids sk = kids s
    /\ games (heap sk) = games (heap s)
    /\ clock sk = clock s /\ trace sk = trace s
    /\ (forall x, paint game (ents (heap sk) !! x) (ents (heap s) !! x))
    /\ ents (heap sk) !! this = Some (with_game game e)
    /\ (forall j c x, (j < k)%nat -> l !! j = Some c ->
                      rtc (child_of (kids s)) c x ->
                      ents (heap sk) !! x = with_game game <$> ents (heap s) !! x)
    /\ (forall x, ~ rtc (child_of (kids s)) this x ->
                  ents (heap sk) !! x = ents (heap s) !! x)).
  assert (HI0 : I 0%nat s1).
  { unfold I. split; [done|]. split; [done|]. split; [done|]. split; [done|].
    split; [done|]. split; [apply store_lookup_eq|]. split; [intros; lia|].
    intros x Hx. unfold s1. rewrite store_lookup_ne; [done|].
    intros <-. apply Hx. apply rtc_refl. }
  destruct (forEach_from_indexed I
              (fun child => _updateGame fuel child game) this l) with
    (n := length l) (k := 0%nat) (s := s1) as (s' & Hs' & HI').
  - intros k sk (_&_&_&_&_&Hthis&_). eexists. split; [exact Hthis|done].
  - intros k c sk Hk (Kk & Gk & Ck & Tk & Pk & Hthis & Hdone & Hout).
    assert (Hc : c ∈ children e) by (by eapply list_elem_of_lookup_2).
    assert (Hallc : all_below (fun _ => true) d (ents (heap sk)) c = true).
    { rewrite (all_below_kids d _ (ents (heap s))); [by apply Hch|exact Kk]. }
    destruct (IH c fuel sk Hallc ltac:(lia))
      as (sk' & Hrun & (Gk' & Ck' & Tk' & Hin & Hout') & Kk' & Pk').
    exists sk'. split; [done|]. unfold I.
    split; [congruence|]. split; [congruence|]. split; [congruence|].
    split; [congruence|].
    split; [intros x; eapply paint_trans; [apply Pk|apply Pk']|].
    split.
    { apply (paint_done (ents (heap sk') !! this) (ents (heap sk) !! this) (Some e));
        [exact Hthis|apply Pk']. }
    split.
    + intros j c' x Hj Hj' Hreach.
      destruct (decide (j = k)) as [->|Hjk].
      * rewrite Hk in Hj'. injection Hj' as <-.
        eapply paint_after; [apply Pk|]. apply Hin. by rewrite Kk.
      * eapply paint_done; [|apply Pk'].
        apply (Hdone j c' x); [lia|done|done].
    + intros x Hx. rewrite Hout'; [by apply Hout|].
      rewrite Kk. intros Hcx. apply Hx.
      eapply rtc_l; [|exact Hcx]. exists (children e). split; [|done].
      by apply kids_lookup.
  - intros k sk Hk (Kk & Gk & Ck & Tk & Pk & Hthis & Hdone & Hout).
    unfold I. repeat (split; [done|]). split; [|done].
    intros j c x Hj Hj' Hreach. destruct (decide (j = k)) as [->|Hjk].
    + congruence.
    + apply (Hdone j c x); [lia|done|done].
  - exact HI0.
  - destruct HI' as (Kk & Gk & Ck & Tk & Pk & Hthis & Hdone & Hout).
    exists s'. split.
    { unfold forEach_children.
      assert (He1 : ents (heap s1) !! this = Some (with_game game e))
        by apply store_lookup_eq.
      by rewrite (bind_Ok _ _ _ _ _ (get_ent_Some _ _ _ He1)). }
    split; [|by split].
    split; [done|]. split; [done|]. split; [done|]. split; [|done].
    intros x Hx. apply rtc_inv in Hx as [<-|(c & (l' & Hl' & Hc) & Hcx)].
    + by rewrite Hthis, He.
    + rewrite (kids_lookup _ _ _ He) in Hl'. injection Hl' as <-.
      apply list_elem_of_lookup_1 in Hc as [j Hj].
      apply (Hdone j c x); [|done|done].
      apply lookup_lt_Some in Hj. simpl. exact Hj.
Qed.

(** X5. On a part of the scene that unfolds into a finite tree,
    [_updateGame] returns, given the depth of the tree as fuel, and gives
    the scene to every entity of the subtree and to no other object; it
    changes nothing else. *)
Theorem _updateGame_gives_the_scene d this fuel s :
  all_below (fun _ => true) d (ents (heap s)) this = true ->
  (d <= fuel)%nat ->
  exists s',
    _updateGame fuel this game s = Ok tt s' /\ scene_given game this s s'.
Proof.
  intros Hall Hle.
  destruct (_updateGame_tree d this fuel s Hall Hle) as (s' & H & Hg & _).
  by exists s'.
Qed.

End Paint.

(** ** Attaching *)

Lemma all_below_reach P m x y :
  rtc (child_of (children <$> m)) x y ->
  forall d, all_below P d m x = true -> exists d', all_below P (S d') m y = true.
Proof.
  induction 1 as [x|x y z (l & Hl & Hy) _ IH]; intros d Hall.
  - destruct d as [|d]; [done|]. by exists d.
  - destruct d as [|d]; [done|].
    destruct (all_below_inv _ _ _ _ Hall) as (e & He & _ & Hch).
    rewrite lookup_fmap, He in Hl. injection Hl as <-.
    by apply (IH d), Hch.
Qed.

Lemma store_same_game l e0 e1 s x :
  ents (heap s) !! l = Some e0 ->
  _game e1 = _game e0 ->
  _game <$> ents (heap (store l e1 s)) !! x = _game <$> ents (heap s) !! x.
Proof.
  intros H0 Hg. destruct (decide (l = x)) as [<-|Hne].
  - rewrite store_lookup_eq, H0. cbn. by rewrite Hg.
  - by rewrite store_lookup_ne.
Qed.

(** X6. [addChildEntity] of an entity whose subtree is finite returns this
    entity, given the depth of the subtree as fuel. Afterwards the entity
    is the last element of the child array of the receiver, the other
    child arrays are as before, its parent reference is the receiver, the
    entity and every entity below it have the scene the receiver had, and
    the objects that are neither the receiver nor in the subtree are
    untouched. *)
Theorem addChildEntity_attaches_the_subtree d this child fuel s e :
  ents (heap s) !! this = Some e ->
  all_below (fun _ => true) d (ents (heap s)) child = true ->
  (d <= fuel)%nat ->
  exists s',
    addChildEntity fuel this child s = Ok child s'
    /\ kids s' = <[this := children e ++ [child]]> (kids s)
    /\ _parent <$> ents (heap s') !! child = Some (Some this)
    /\ (forall x, rtc (child_of (kids s)) child x ->
                  _game <$> ents (heap s') !! x = Some (_game e))
    /\ (forall x, x <> this -> ~ rtc (child_of (kids s)) child x ->
                  ents (heap s') !! x = ents (heap s) !! x)
    /\ games (heap s') = games (heap s)
    /\ clock s' = clock s /\ trace s' = trace s.
Proof.
  intros He Hall Hle. unfold addChildEntity.
  rewrite (bind_Ok _ _ _ _ _ (get_ent_Some _ _ _ He)).
  destruct (_updateGame_tree (_game e) d child fuel s Hall Hle)
    as (sa & Hrun & (Ga & Ca & Ta & Hin & Hout) & Ka & Pa).
  rewrite (bind_Ok _ _ _ _ _ Hrun).
  assert (Hca : exists ec, ents (heap s) !! child = Some ec
                           /\ ents (heap sa) !! child = Some (with_game (_game e) ec)).
  { destruct d as [|d]; [done|].
    destruct (all_below_inv _ _ _ _ Hall) as (ec & Hec & _). exists ec.
    split; [done|]. rewrite (Hin child (rtc_refl _ _)). by rewrite Hec. }
  destruct Hca as (ec & Hec & Hca).
  rewrite (bind_Ok _ _ _ _ _ (modify_ent_Some _ _ _ _ Hca)).
  set (sb := store child (with_parent (Some this) (with_game (_game e) ec)) sa).
  assert (Kb : kids sb = kids s).
  { unfold sb. rewrite kids_store, Ka. apply insert_id.
    exact (kids_lookup _ _ _ Hec). }
  assert (Hb : exists eb, ents (heap sb) !! this = Some eb
                          /\ children eb = children e
                          /\ (this = child -> _parent eb = Some this)).
  { pose proof (kids_lookup _ _ _ He) as Hk. rewrite <- Kb in Hk.
    unfold kids in Hk. rewrite lookup_fmap in Hk.
    destruct (ents (heap sb) !! this) as [eb|] eqn:Heb; [|done].
    exists eb. split; [done|]. split; [cbn in Hk; congruence|].
    intros ->. unfold sb in Heb. rewrite store_lookup_eq in Heb.
    by injection Heb as <-. }
  destruct Hb as (eb & Heb & Hchb & Hparb).
  unfold push_child.
  rewrite (bind_Ok _ _ _ _ _ (modify_ent_Some _ _ _ _ Heb)).
  eexists. split; [reflexivity|].
  split; [by rewrite kids_store, Kb, Hchb|].
  split.
  { destruct (decide (this = child)) as [Heq|Hne].
    - rewrite <- Heq, store_lookup_eq. cbn. by rewrite Hparb.
    - rewrite store_lookup_ne by done. unfold sb. by rewrite store_lookup_eq. }
  split.
  { intros x Hx.
    rewrite (store_same_game this eb
               (with_children (children eb ++ [child]) eb) sb x Heb eq_refl).
    unfold sb.
    rewrite (store_same_game child (with_game (_game e) ec)
               (with_parent (Some this) (with_game (_game e) ec)) sa x Hca eq_refl).
    rewrite (Hin x Hx).
    destruct (all_below_reach _ _ _ _ Hx d Hall) as (d' & Hx').
    destruct (all_below_inv _ _ _ _ Hx') as (ex & -> & _). done. }
  split.
  { intros x Hthis Hx. rewrite store_lookup_ne by done.
    unfold sb. rewrite store_lookup_ne; [by apply Hout|].
    intros <-. apply Hx. apply rtc_refl. }
  done.
Qed.

(** X7. [createChildEntity] returns a new object: an entity at the origin,
    at rest, visible, without fields or children, created at the current
    time, with the receiver as parent and the scene of the receiver. It is
    the last element of the child array of the receiver, and nothing else
    changes. *)
Theorem createChildEntity_makes_a_blank_child fuel this s e :
  ents (heap s) !! this = Some e ->
  let child := fresh (dom (ents (heap s))) in
  let blank :=
    {| pos := Vector2D.mk 0 0;
       velocity := Vector2D.mk 0 0;
       acceleration := Vector2D.mk 0 0;
       size := Vector2D.mk 0 0;
       rotation := 0;
       display := VBool true;
       fields := [];
       children := [];
       _relativePos := Vector2D.mk 0 0;
       _lastRelativePosCalculated := 0;
       _game := _game e;
       _parent := Some this;
       _creationTime := clock s;
       timeToLive := None;
       mass := None;
       update := None;
       render := None |} in
  ents (heap s) !! child = None
  /\ createChildEntity (S fuel) this s
     = Ok child
         (store this (with_children (children e ++ [child]) e)
            (store child blank s)).
Proof.
  intros He child blank.
  assert (Hfresh : ents (heap s) !! child = None)
    by apply not_elem_of_dom, is_fresh.
  split; [done|].
  assert (Hne : child <> this) by (intros Heq; rewrite Heq in Hfresh; congruence).
  unfold createChildEntity.
  rewrite (bind_Ok _ _ _ _ _ (eq_refl : new_Entity 0 0 s = Ok child _)).
  set (e0 := mkEntity _ _ _ _ _ _ _ _ _ _ _ _ _ _ _ _ _).
  assert (Hthis : ents (heap (store child e0 s)) !! this = Some e)
    by (by rewrite store_lookup_ne).
  rewrite (bind_Ok _ _ _ _ _ (get_ent_Some _ _ _ Hthis)).
  rewrite (bind_Ok _ _ _ _ _
             (_updateGame_leaf fuel child (_game e) _ e0 (store_lookup_eq _ _ _) eq_refl)).
  rewrite store_store.
  rewrite (bind_Ok _ _ _ _ _ (modify_ent_Some _ _ _ _ (store_lookup_eq _ _ _))).
  rewrite store_store.
  assert (Hthis' : ents (heap (store child
                      (with_parent (Some this) (with_game (_game e) e0)) s)) !! this
                   = Some e) by (by rewrite store_lookup_ne).
  unfold push_child.
  rewrite (bind_Ok _ _ _ _ _ (modify_ent_Some _ _ _ _ Hthis')).
  reflexivity.
Qed.

(** ** Reading relative positions *)

Lemma same_but_cache_only s s' : same_but_cache s s' -> only_caches_differ s s'.
Proof.
  intros H. pose proof H as (Hc & Ht & Hg & _).
  split; [done|]. split; [done|]. split; [done|].
  intros l. pose proof (same_but_cache_lookup _ _ l H) as Hl.
  destruct (ents (heap s) !! l) as [e|], (ents (heap s') !! l) as [e'|];
    try done.
  exists (_relativePos e'), (_lastRelativePosCalculated e').
  assert (Hu : uncached e' = uncached e) by (cbn in Hl; congruence).
  destruct (uncached_eq _ _ Hu) as (_ & _ & _ & <-). by destruct e'.
Qed.

(** X8. A read of the relative position, and the computation of the
    acceleration due to the fields, which reads the relative positions of
    the entity and of its fields, change nothing but caches of relative
    positions, whether they return or throw: no position, velocity, child
    array, parent, scene, clock or trace is written. *)
Theorem reads_touch_only_caches pow fuel delta this s :
  only_caches_differ s (final (_calculateRelativePos fuel this s))
  /\ only_caches_differ s (final (relativeLeft fuel this s))
  /\ only_caches_differ s (final (relativeTop fuel this s))
  /\ only_caches_differ s (final (_calculateFields pow fuel delta this s)).
Proof.
  split; [|split; [|split]]; apply same_but_cache_only.
  - apply calc_keeps_cache.
  - revert s. change (keeps same_but_cache (relativeLeft fuel this)).
    unfold relativeLeft. keeps_with ltac:(apply calc_keeps_cache).
  - revert s. change (keeps same_but_cache (relativeTop fuel this)).
    unfold relativeTop. keeps_with ltac:(apply calc_keeps_cache).
  - apply _calculateFields_keeps_cache.
Qed.

Lemma chain_ok_inv d s this :
  chain_ok (S d) s this = true ->
  exists e,
    ents (heap s) !! this = Some e
    /\ match _parent e with
       | Some p => chain_ok d s p = true
       | None => True
       end.
Proof.
  cbn [chain_ok]. destruct (ents (heap s) !! this) as [e|]; [|done].
  intros [_ H]%andb_true_iff. exists e. split; [done|].
  by destruct (_parent e).
Qed.

Lemma calc_resolves d :
  forall this fuel s,
    chain_ok d s this = true ->
    (d <= fuel)%nat ->
    exists r s',
      _calculateRelativePos fuel this s = Ok r s'
      /\ resolve d s this = Some r.
Proof.
  induction d as [|d IH]; intros this fuel s Hok Hle; [done|].
  destruct (chain_ok_inv _ _ _ Hok) as (e & He & Hpar).
  destruct (calc_spec (S d) this s fuel e Hok Hle He)
    as (r & s1 & Hr & Hcur & Hstale).
  exists r, s1. split; [done|]. cbn [resolve]. rewrite He. cbn.
  destruct (cache_current s e).
  - by destruct (Hcur eq_refl) as [-> _].
  - destruct (Hstale eq_refl) as (_ & Hv).
    destruct (_parent e) as [p|]; [|by subst].
    destruct Hv as (rp & sp & Hrp & ->).
    destruct (IH p (pred fuel) s Hpar ltac:(lia)) as (rp' & sp' & Hrp' & ->).
    rewrite Hrp in Hrp'. by injection Hrp' as -> _.
Qed.

(** X9. On a chain of parents that is in order, [relativeLeft] and
    [relativeTop] return, given the length of the chain as fuel, the two
    coordinates of one vector, a function of the state: the cached vector
    of the first entity up the chain whose cache is current, added to the
    local positions of the entities below it. *)
Theorem getters_resolve d this fuel s :
  chain_ok d s this = true ->
  (d <= fuel)%nat ->
  exists r s',
    resolve d s this = Some r
    /\ relativeLeft fuel this s = Ok (Vector2D.x r) s'
    /\ relativeTop fuel this s = Ok (Vector2D.y r) s'.
Proof.
  intros Hok Hle.
  destruct (calc_resolves d this fuel s Hok Hle) as (r & s' & Hr & Hres).
  exists r, s'. split; [done|]. unfold relativeLeft, relativeTop.
  by rewrite !(bind_Ok _ _ _ _ _ Hr).
Qed.

Lemma resolve_stale d s this :
  stale_chain d s this = true ->
  resolve d s this = composed_pos d (ents (heap s)) this.
Proof.
  revert this. induction d as [|d IH]; intros this; [done|].
  cbn [stale_chain resolve composed_pos].
  destruct (ents (heap s) !! this) as [e|]; [|done]. cbn.
  intros [Hst Hp]%andb_true_iff. apply negb_true_iff in Hst. rewrite Hst.
  destruct (_parent e); [by rewrite IH|done].
Qed.

(** X10. When no cache is current on the chain of the parents, as at the
    first read of a frame, the read returns the sum of the local positions
    along the chain, from the entity up to the root: for a parent, a child
    and a grandchild, [g + (c + p)]. *)
Theorem first_read_composes_the_chain d this fuel s :
  chain_ok d s this = true ->
  stale_chain d s this = true ->
  (d <= fuel)%nat ->
  exists r s',
    _calculateRelativePos fuel this s = Ok r s'
    /\ composed_pos d (ents (heap s)) this = Some r.
Proof.
  intros Hok Hstale Hle.
  destruct (calc_resolves d this fuel s Hok Hle) as (r & s' & Hr & Hres).
  exists r, s'. split; [done|]. by rewrite <- resolve_stale.
Qed.

(** ** The acceleration due to several fields *)

Section Fields.

Variable Math_pow : float -> float -> float.

Lemma fields_loop_sum fuel delta this s e fs :
  ents (heap s) !! this = Some e ->
  cache_current s e = true ->
  fields_current s fs = true ->
  forall acc,
    exists a,
      field_sum Math_pow (ents (heap s)) (_relativePos e) delta fs acc = Some a
      /\ fields_loop Math_pow (S fuel) delta this fs acc s = Ok a s.
Proof.
  intros He Hce. destruct (read_cached fuel this s e He Hce) as [Hel Het].
  induction fs as [|field fs IH]; intros Hfs acc.
  - by exists acc.
  - cbn [fields_current forallb] in Hfs.
    apply andb_true_iff in Hfs as [Hf Hfs].
    destruct (ents (heap s) !! field) as [f|] eqn:Ef; [|done].
    destruct (read_cached fuel field s f Ef Hf) as [Hfl Hft].
    cbn [field_sum fields_loop]. rewrite Ef. cbn.
    rewrite (bind_Ok _ _ _ _ _ Hfl), (bind_Ok _ _ _ _ _ Hel).
    rewrite (bind_Ok _ _ _ _ _ Hft), (bind_Ok _ _ _ _ _ Het).
    rewrite (bind_Ok _ _ _ _ _ (get_ent_Some _ _ _ Ef)).
    apply (IH Hfs).
Qed.

(** X11. For a moving entity with any number of fields, all relative
    positions being current, [_calculateFields] returns the stored
    acceleration, as it is and not scaled by [delta], added to the sum of
    what the fields contribute over [delta], accumulated from zero in the
    order of the array; the physics step adds this to the velocity, moves
    the entity by the new velocity times [delta], and writes nothing else:
    the stored acceleration, the fields and the cache are as before. *)
Theorem integrate_sums_the_fields fuel delta this s e :
  ents (heap s) !! this = Some e ->
  cache_current s e = true ->
  fields_current s (fields e) = true ->
  moving (velocity e) = true ->
  exists a,
    field_sum Math_pow (ents (heap s)) (_relativePos e) delta (fields e)
      (Vector2D.mk 0 0) = Some a
    /\ _calculateFields Math_pow (S fuel) delta this s
       = Ok (Vector2D.add (Vector2D.clone (acceleration e)) a) s
    /\ let v' := Vector2D.add (velocity e)
                   (Vector2D.add (Vector2D.clone (acceleration e)) a) in
       let p' := Vector2D.mk
                   (Vector2D.x (pos e) + Vector2D.x v' * delta)%float
                   (Vector2D.y (pos e) + Vector2D.y v' * delta)%float in
       integrate Math_pow (S fuel) delta this s
       = Ok tt (store this (with_pos p' (with_velocity v' e)) s).
Proof.
  intros He Hce Hfs Hm.
  destruct (fields_loop_sum fuel delta this s e (fields e) He Hce Hfs
              (Vector2D.mk 0 0)) as (a & Hsum & Hloop).
  exists a. split; [done|].
  assert (Hacc : _calculateFields Math_pow (S fuel) delta this s
                 = Ok (Vector2D.add (Vector2D.clone (acceleration e)) a) s).
  { unfold _calculateFields.
    rewrite (bind_Ok _ _ _ _ _ (get_ent_Some _ _ _ He)).
    rewrite (bind_Ok _ _ _ _ _ Hloop).
    now rewrite (bind_Ok _ _ _ _ _ (get_ent_Some _ _ _ He)). }
  split; [done|]. intros v' p'. unfold integrate.
  rewrite (bind_Ok _ _ _ _ _ (get_ent_Some _ _ _ He)), Hm.
  rewrite (bind_Ok _ _ _ _ _ Hacc).
  rewrite (bind_Ok _ _ _ _ _ (modify_ent_Some _ _ _ _ He)).
  rewrite (bind_Ok _ _ _ _ _ (modify_ent_Some _ _ _ _ (store_lookup_eq _ _ _))).
  rewrite (modify_ent_Some _ _ _ _ (store_lookup_eq _ _ _)).
  now rewrite !store_store.
Qed.

End Fields.

(** ** Writing the local position of a child *)

Lemma chain_ok_mono d :
  forall d' s x,
    chain_ok d s x = true -> (d <= d')%nat -> chain_ok d' s x = true.
Proof.
  induction d as [|d IH]; intros d' s x H Hle; [done|].
  destruct d' as [|d']; [lia|]. cbn [chain_ok] in *.
  destruct (ents (heap s) !! x) as [e|]; [|done].
  apply andb_true_iff in H as [Hg Hp]. rewrite Hg. cbn.
  destruct (_parent e) as [p|]; [|done]. apply IH; [done|lia].
Qed.

Lemma resolve_mono d :
  forall d' s x,
    chain_ok d s x = true -> (d <= d')%nat -> resolve d' s x = resolve d s x.
Proof.
  induction d as [|d IH]; intros d' s x H Hle; [done|].
  destruct d' as [|d']; [lia|]. cbn [chain_ok resolve] in *.
  destruct (ents (heap s) !! x) as [e|]; [|done]. cbn.
  apply andb_true_iff in H as [_ Hp].
  destruct (cache_current s e); [done|].
  destruct (_parent e) as [p|]; [|done]. rewrite (IH d' s p); [done|done|lia].
Qed.

Lemma chain_ok_exact d s x :
  chain_ok (S d) s x = true ->
  exists d0,
    (d0 <= d)%nat /\ chain_ok (S d0) s x = true /\ chain_ok d0 s x = false.
Proof.
  induction d as [|d IH]; intros H.
  - by exists O.
  - destruct (chain_ok (S d) s x) eqn:E.
    + destruct (IH eq_refl) as (d0 & Hle & H1 & H0).
      exists d0. split; [lia|done].
    + by exists (S d).
Qed.

(** A write on an entity that is not on the chain of the parents of [x]
    is not seen by the read of [x]. *)
Lemma resolve_off_chain this ea s d :
  forall x,
    chain_ok d s x = true ->
    chain_ok d s this = false ->
    chain_ok d (store this ea s) x = true
    /\ resolve d (store this ea s) x = resolve d s x.
Proof.
  induction d as [|d IH]; intros x Hx Hthis; [done|].
  assert (Hne : this <> x) by (intros ->; congruence).
  assert (Hthis' : chain_ok d s this = false).
  { destruct (chain_ok d s this) eqn:E; [|done].
    rewrite (chain_ok_mono d (S d) s this E) in Hthis; [done|lia]. }
  cbn [chain_ok resolve] in *. rewrite (store_lookup_ne _ _ _ _ Hne).
  destruct (ents (heap s) !! x) as [e|]; [|done]. cbn.
  apply andb_true_iff in Hx as [Hg Hp].
  change (games (heap (store this ea s))) with (games (heap s)).
  change (cache_current (store this ea s) e) with (cache_current s e).
  rewrite Hg. cbn.
  destruct (_parent e) as [p|]; [|done].
  destruct (IH p Hp Hthis') as [-> ->]. done.
Qed.

Lemma uncached_links (o o' : option Entity) :
  uncached <$> o = uncached <$> o' ->
  (fun e : Entity => (_parent e, _game e)) <$> o
  = (fun e : Entity => (_parent e, _game e)) <$> o'.
Proof.
  destruct o as [e|], o' as [e'|]; try done. cbn. intros H.
  assert (Hu : uncached e = uncached e') by congruence.
  by destruct (uncached_eq _ _ Hu) as (_ & -> & -> & _).
Qed.

Lemma chain_ok_ext s s' :
  games (heap s) = games (heap s') ->
  (forall l,
     (fun e : Entity => (_parent e, _game e)) <$> ents (heap s) !! l
     = (fun e : Entity => (_parent e, _game e)) <$> ents (heap s') !! l) ->
  forall d x, chain_ok d s x = chain_ok d s' x.
Proof.
  intros Hg Hl. induction d as [|d IH]; intros x; [done|].
  cbn [chain_ok]. specialize (Hl x).
  destruct (ents (heap s) !! x) as [e|], (ents (heap s') !! x) as [e'|];
    try done.
  cbn in Hl. injection Hl as -> ->. rewrite Hg.
  destruct (_parent e'); [by rewrite IH|done].
Qed.

(** The part the two setters share: the read of the parent that follows
    the write of the local position, and the read of the entity that
    follows the write of the cache. *)
Lemma set_common d0 this p fuel s e ea :
  ents (heap s) !! this = Some e ->
  _parent e = Some p ->
  chain_ok (S d0) s this = true ->
  chain_ok d0 s this = false ->
  (d0 <= fuel)%nat ->
  _parent ea = _parent e ->
  _game ea = _game e ->
  exists rp sp ea',
    resolve d0 s p = Some rp
    /\ _calculateRelativePos fuel p (store this ea s) = Ok rp sp
    /\ ents (heap sp) !! this = Some ea'
    /\ uncached ea' = uncached ea
    /\ forall e1,
        uncached e1 = uncached ea ->
        exists r s2 e2,
          _calculateRelativePos (S fuel) this (store this e1 sp) = Ok r s2
          /\ ents (heap s2) !! this = Some e2
          /\ pos e2 = pos ea
          /\ (r = _relativePos e1 \/ r = Vector2D.add (pos ea) rp).
Proof.
  intros He Hp Hok Hmin Hle Hpa Hga.
  destruct (chain_ok_inv _ _ _ Hok) as (e_ & He_ & Hpar).
  rewrite He in He_. injection He_ as <-. rewrite Hp in Hpar.
  destruct (resolve_off_chain this ea s d0 p Hpar Hmin) as [Hok0 Hres0].
  set (s0 := store this ea s) in *.
  destruct (calc_resolves d0 p fuel s0 Hok0 Hle) as (rp & sp & Hrp & Hres).
  pose proof (keeps_Ok _ _ _ _ _ (calc_keeps_cache fuel p) Hrp) as Hkeep.
  destruct (same_but_cache_Some _ _ this ea Hkeep (store_lookup_eq _ _ _))
    as (ea' & Hea' & Hu).
  exists rp, sp, ea'. split; [congruence|]. do 3 (split; [done|]).
  intros e1 Hu1. set (s1 := store this e1 sp).
  assert (He1 : ents (heap s1) !! this = Some e1) by apply store_lookup_eq.
  destruct (uncached_eq _ _ Hu1) as (Hpos1 & Hpar1 & Hgame1 & _).
  destruct (cache_current s1 e1) eqn:Hc.
  - exists (_relativePos e1), s1, e1.
    split; [by apply calc_cached|]. split; [done|]. split; [done|by left].
  - assert (Hne : this <> p).
    { intros ->. by apply (chain_ok_not_self _ _ _ _ Hok He). }
    assert (Hok1 : chain_ok (S d0) s1 this = true).
    { rewrite <- Hok. symmetry. apply chain_ok_ext.
      - destruct Hkeep as (_ & _ & Hg & _). exact Hg.
      - intros l. destruct (decide (l = this)) as [->|Hl].
        + rewrite He, He1. cbn. by rewrite Hpar1, Hgame1, Hpa, Hga.
        + unfold s1. rewrite (store_lookup_ne this l e1 sp) by done.
          rewrite <- (uncached_links _ _ (same_but_cache_lookup _ _ l Hkeep)).
          unfold s0. by rewrite (store_lookup_ne this l ea s). }
    destruct (calc_spec (S d0) this s1 (S fuel) e1 Hok1 ltac:(lia) He1)
      as (r & s2 & Hr & _ & Hstale).
    destruct (Hstale Hc) as ((g & gm & _ & _ & He2) & Hv).
    rewrite Hpar1, Hpa, Hp in Hv. destruct Hv as (rp' & sp' & Hrp' & ->).
    destruct (calc_settles _ _ _ _ _ Hrp) as (ep & Hep & Hrel & Hcur).
    destruct fuel as [|fuel]; [done|]. cbn [pred] in Hrp'.
    assert (Hep1 : ents (heap s1) !! p = Some ep).
    { unfold s1. by rewrite (store_lookup_ne this p e1 sp). }
    rewrite (calc_cached fuel p s1 ep Hep1 Hcur) in Hrp'.
    injection Hrp' as <- _.
    eexists _, s2, _. split; [exact Hr|]. split; [exact He2|].
    split; [done|]. right. by rewrite Hpos1, Hrel.
Qed.

(** X12. For an entity with a parent whose chain of parents is in order,
    a write of [v] through the accessor [left] is followed by a read of
    [relativeLeft] that returns [v] added to the relative left of the
    parent, whether the read recomputes or not, and [left] reads [v]; the
    same holds of [top] and [relativeTop]. *)
Theorem setters_add_the_parent d this p fuel s e :
  ents (heap s) !! this = Some e ->
  _parent e = Some p ->
  chain_ok (S d) s this = true ->
  (d <= fuel)%nat ->
  exists rp,
    resolve d s p = Some rp
    /\ (forall v, exists s1 s2,
          set_left fuel this v s = Ok tt s1
          /\ relativeLeft (S fuel) this s1 = Ok (v + Vector2D.x rp)%float s2
          /\ left this s2 = Ok v s2)
    /\ (forall v, exists s1 s2,
          set_top fuel this v s = Ok tt s1
          /\ relativeTop (S fuel) this s1 = Ok (v + Vector2D.y rp)%float s2
          /\ top this s2 = Ok v s2).
Proof.
  intros He Hp Hok Hle.
  destruct (chain_ok_exact _ _ _ Hok) as (d0 & Hle0 & Hok0 & Hmin).
  destruct (chain_ok_inv _ _ _ Hok0) as (e_ & He_ & Hpar).
  rewrite He in He_. injection He_ as <-. rewrite Hp in Hpar.
  assert (Hres : resolve d s p = resolve d0 s p)
    by (by apply resolve_mono).
  assert (Hany : forall ea, _parent ea = _parent e -> _game ea = _game e ->
            exists rp sp ea',
              resolve d s p = Some rp
              /\ _calculateRelativePos fuel p (store this ea s) = Ok rp sp
              /\ ents (heap sp) !! this = Some ea'
              /\ uncached ea' = uncached ea
              /\ forall e1,
                  uncached e1 = uncached ea ->
                  exists r s2 e2,
                    _calculateRelativePos (S fuel) this (store this e1 sp)
                    = Ok r s2
                    /\ ents (heap s2) !! this = Some e2
                    /\ pos e2 = pos ea
                    /\ (r = _relativePos e1 \/ r = Vector2D.add (pos ea) rp)).
  { intros ea Hpa Hga. rewrite Hres.
    apply (set_common d0 this p fuel s e ea); try done. lia. }
  destruct (Hany e eq_refl eq_refl) as (rp & _ & _ & Hrp & _).
  exists rp. split; [done|]. split; intros v.
  - set (ea := with_pos (Vector2D.mk v (Vector2D.y (pos e))) e).
    destruct (Hany ea eq_refl eq_refl)
      as (rp' & sp & ea' & Hrp' & Hread & Hea' & Hu & Hnext).
    assert (rp' = rp) as -> by congruence.
    set (e1 := with_relativePos
                 (Vector2D.mk (v + Vector2D.x rp)%float
                    (Vector2D.y (_relativePos ea'))) ea').
    destruct (uncached_eq _ _ Hu) as (Hpos' & _ & _ & _).
    assert (Hea : ents (heap (store this ea s)) !! this = Some ea)
      by apply store_lookup_eq.
    assert (Hset : set_left fuel this v s = Ok tt (store this e1 sp)).
    { unfold set_left.
      rewrite (bind_Ok _ _ _ _ _ (modify_ent_Some _ _ _ _ He)). fold ea.
      rewrite (bind_Ok _ _ _ _ _ (get_ent_Some _ _ _ Hea)).
      change (_parent ea) with (_parent e). rewrite Hp.
      rewrite (bind_Ok _ _ _ _ _ (left_Some _ _ _ Hea)).
      unfold relativeLeft. rewrite bind_assoc.
      rewrite (bind_Ok _ _ _ _ _ Hread). unfold bind at 1. cbn [ret].
      unfold assign_relativePos_x.
      by rewrite (modify_ent_Some _ _ _ _ Hea'). }
    destruct (Hnext e1) as (r & s2 & e2 & Hr & He2 & Hpos2 & Hor).
    { rewrite <- Hu. by destruct ea'. }
    exists (store this e1 sp), s2. split; [done|]. split.
    + unfold relativeLeft. rewrite (bind_Ok _ _ _ _ _ Hr). unfold ret.
      by destruct Hor as [->| ->].
    + rewrite (left_Some _ _ _ He2). by rewrite Hpos2.
  - set (ea := with_pos (Vector2D.mk (Vector2D.x (pos e)) v) e).
    destruct (Hany ea eq_refl eq_refl)
      as (rp' & sp & ea' & Hrp' & Hread & Hea' & Hu & Hnext).
    assert (rp' = rp) as -> by congruence.
    set (e1 := with_relativePos
                 (Vector2D.mk (Vector2D.x (_relativePos ea'))
                    (v + Vector2D.y rp)%float) ea').
    destruct (uncached_eq _ _ Hu) as (Hpos' & _ & _ & _).
    assert (Hea : ents (heap (store this ea s)) !! this = Some ea)
      by apply store_lookup_eq.
    assert (Hset : set_top fuel this v s = Ok tt (store this e1 sp)).
    { unfold set_top.
      rewrite (bind_Ok _ _ _ _ _ (modify_ent_Some _ _ _ _ He)). fold ea.
      rewrite (bind_Ok _ _ _ _ _ (get_ent_Some _ _ _ Hea)).
      change (_parent ea) with (_parent e). rewrite Hp.
      rewrite (bind_Ok _ _ _ _ _ (top_Some _ _ _ Hea)).
      unfold relativeTop. rewrite bind_assoc.
      rewrite (bind_Ok _ _ _ _ _ Hread). unfold bind at 1. cbn [ret].
      unfold assign_relativePos_y.
      by rewrite (modify_ent_Some _ _ _ _ Hea'). }
    destruct (Hnext e1) as (r & s2 & e2 & Hr & He2 & Hpos2 & Hor).
    { rewrite <- Hu. by destruct ea'. }
    exists (store this e1 sp), s2. split; [done|]. split.
    + unfold relativeTop. rewrite (bind_Ok _ _ _ _ _ Hr). unfold ret.
      by destruct Hor as [->| ->].
    + rewrite (top_Some _ _ _ He2). by rewrite Hpos2.
Qed.

(** ** The class Audio *)

(** X13. The constructor of [Audio] never returns an instance: the
    instance it creates for [_audioObj] is created by the same
    constructor, which creates one more, and so on until the call stack is
    exhausted. Each call leaves behind one instance with both flags false
    and no [_audioObj]; neither the listeners nor the source are ever
    set. *)
Theorem Audio_constructor_never_returns fuel :
  forall src st,
    Audio.constructor fuel src st
    = Audio.Thrown OutOfFuel
        (st ++ replicate fuel (Audio.mk (VBool false) (VBool false) None)).
Proof.
  induction fuel as [|fuel IH]; intros src st.
  - cbn. by rewrite app_nil_r.
  - cbn [Audio.constructor]. rewrite IH. by rewrite <- app_assoc.
Qed.

(** ** The further properties on the scenes of the examples *)

(** The first entity of [scene_three] loses its only child at the first
    call and has nothing to lose at the second. *)
Lemma detach_removes_first_occurrence_witness :
  let s := final (scene_three empty_state) in
  exists s',
    detachChildEntity 1 3 s = Ok true s'
    /\ detachChildEntity 1 3 s' = Ok false s'.
Proof.
  intros s.
  edestruct (detach_removes_first_occurrence 1 3 s) as [_ H].
  - vm_compute. reflexivity.
  - destruct H as (l1 & l2 & _ & _ & Hdet & Hagain).
    + vm_compute. constructor.
    + eexists. split; [exact Hdet|]. apply Hagain.
      vm_compute. apply NoDup_singleton.
Defined.

(** An update of [scene_three] from its first entity enters this entity
    and then its child, and changes nothing. *)
Lemma update_at_rest_is_preorder_witness :
  let s := final (scene_three empty_state) in
  _updateEntity demo_pow demo_update 2 1 1 s
  = Ok tt (log [EUpdate 1%positive; EUpdate 3%positive] s).
Proof.
  intros s.
  apply (update_at_rest_is_preorder demo_pow demo_update 2 1%positive 2 s 1%float).
  - vm_compute. reflexivity.
  - lia.
Defined.

(** The same for a render frame. *)
Lemma render_without_hooks_is_preorder_witness :
  let s := final (scene_three empty_state) in
  _renderEntity demo_render 2 1 s
  = Ok tt (log [ERender 1%positive; ERender 3%positive] s).
Proof.
  intros s.
  apply (render_without_hooks_is_preorder demo_render 2 1%positive 2 s).
  - vm_compute. reflexivity.
  - lia.
Defined.

(** In [scene_siblings] the first child has outlived its ten milliseconds:
    the update of the root enters the root and this child, which leaves the
    array, and does not enter the second child. *)
Lemma expiring_child_hides_its_sibling_witness :
  let s := final (scene_siblings empty_state) in
  exists s' r,
    _updateEntity demo_pow demo_update 2 1 1 s = Ok tt s'
    /\ trace s' = trace s ++ [EUpdate 1%positive; EUpdate 2%positive]
    /\ ents (heap s') !! 1%positive = Some r
    /\ children r = [3%positive].
Proof.
  intros s.
  eexists _, _. split.
  - eapply (expiring_child_hides_its_sibling demo_pow demo_update 0 1
              1%positive 2%positive 3%positive s).
    + vm_compute. reflexivity.
    + vm_compute. reflexivity.
    + discriminate.
    + reflexivity.
    + reflexivity.
    + reflexivity.
    + discriminate.
    + vm_compute. reflexivity.
    + reflexivity.
    + reflexivity.
    + reflexivity.
    + reflexivity.
  - split; [reflexivity|]. split; [apply store_lookup_eq|reflexivity].
Defined.

(** The first entity of [scene_three] and its child get the scene 7, the
    second entity does not. *)
Lemma _updateGame_gives_the_scene_witness :
  let s := final (scene_three empty_state) in
  exists s',
    _updateGame 2 1 (Some 7%positive) s = Ok tt s'
    /\ scene_given (Some 7%positive) 1 s s'.
Proof.
  intros s.
  apply (_updateGame_gives_the_scene (Some 7%positive) 2 1%positive 2 s).
  - vm_compute. reflexivity.
  - lia.
Defined.

(** The second entity of [scene_roots] becomes the only child of the
    first. *)
Lemma addChildEntity_attaches_the_subtree_witness :
  let s := final (scene_roots empty_state) in
  exists s',
    addChildEntity 1 1 2 s = Ok 2%positive s'
    /\ kids s' !! 1%positive = Some [2%positive]
    /\ _parent <$> ents (heap s') !! 2%positive = Some (Some 1%positive).
Proof.
  intros s.
  edestruct (addChildEntity_attaches_the_subtree 1 1 2 1 s)
    as (s' & Hrun & Hk & Hp & _).
  - vm_compute. reflexivity.
  - vm_compute. reflexivity.
  - lia.
  - exists s'. split; [exact Hrun|]. split; [|exact Hp].
    rewrite Hk. apply lookup_insert_eq.
Defined.

(** The first entity of [scene_roots] gets a child that was not in the
    store. *)
Lemma createChildEntity_makes_a_blank_child_witness :
  let s := final (scene_roots empty_state) in
  exists child s',
    createChildEntity 1 1 s = Ok child s'
    /\ ents (heap s) !! child = None
    /\ _parent <$> ents (heap s') !! child = Some (Some 1%positive).
Proof.
  intros s.
  edestruct (createChildEntity_makes_a_blank_child 0 1 s) as [Hnew Hrun].
  - vm_compute. reflexivity.
  - eexists _, _. split; [exact Hrun|]. split; [exact Hnew|].
    vm_compute. reflexivity.
Defined.

(** The child of [scene_family], at (1, 0) under a parent at (10, 0), is
    read at (11, 0). *)
Lemma getters_resolve_witness :
  let s := final (scene_family empty_state) in
  exists s',
    relativeLeft 2 2 s = Ok 11%float s'
    /\ relativeTop 2 2 s = Ok 0%float s'.
Proof.
  intros s.
  destruct (getters_resolve 2 2 2 s) as (r & s' & Hres & Hl & Ht).
  - vm_compute. reflexivity.
  - lia.
  - vm_compute in Hres. injection Hres as <-. by exists s'.
Defined.

(** Nothing has been read yet in [scene_family]: the first read of the
    child adds its position to its parent's. *)
Lemma first_read_composes_the_chain_witness :
  let s := final (scene_family empty_state) in
  exists s', _calculateRelativePos 2 2 s = Ok (Vector2D.mk 11 0) s'.
Proof.
  intros s.
  destruct (first_read_composes_the_chain 2 2 2 s) as (r & s' & Hr & Hc).
  - vm_compute. reflexivity.
  - vm_compute. reflexivity.
  - lia.
  - vm_compute in Hc. injection Hc as <-. by exists s'.
Defined.

(** The entity of [scene_field], at the velocity (1, 0), goes through the
    physics step. *)
Lemma integrate_sums_the_fields_witness :
  let s := final (scene_field (Vector2D.mk 1 0) empty_state) in
  exists s' e',
    integrate demo_pow 1 2 1 s = Ok tt s'
    /\ ents (heap s') !! 1%positive = Some e'
    /\ acceleration e' = Vector2D.mk 0 0.
Proof.
  intros s.
  edestruct (integrate_sums_the_fields demo_pow 0 2 1 s)
    as (a & _ & _ & Hint).
  - vm_compute. reflexivity.
  - reflexivity.
  - vm_compute. reflexivity.
  - reflexivity.
  - eexists _, _. split; [exact Hint|]. split; [apply store_lookup_eq|].
    reflexivity.
Defined.

(** The child of [scene_family] under its parent at (10, 0): after
    [left = 5] it is read at 15. *)
Lemma setters_add_the_parent_witness :
  let s := final (scene_family empty_state) in
  exists s1 s2,
    set_left 1 2 5 s = Ok tt s1
    /\ relativeLeft 2 2 s1 = Ok 15%float s2
    /\ left 2 s2 = Ok 5%float s2.
Proof.
  intros s.
  edestruct (setters_add_the_parent 1 2 1 1 s) as (rp & Hres & Hl & _).
  - vm_compute. reflexivity.
  - reflexivity.
  - vm_compute. reflexivity.
  - lia.
  - vm_compute in Hres. injection Hres as <-.
    destruct (Hl 5%float) as (s1 & s2 & H1 & H2 & H3).
    by exists s1, s2.
Defined.

(** ** Counting the renders of a tree *)

Lemma counted_lookup g n s gm :
  games (heap s) !! g = Some gm ->
  games (heap (counted g n s)) !! g
  = Some (with_renders (_lastFrameTotalRenders gm + n) gm).
Proof. intros H. unfold counted. rewrite H. apply lookup_insert_eq. Qed.

Lemma counted_ents g n s : ents (heap (counted g n s)) = ents (heap s).
Proof. unfold counted. by destruct (games (heap s) !! g). Qed.

Lemma counted_log g n t s : counted g n (log t s) = log t (counted g n s).
Proof.
  unfold counted. change (games (heap (log t s))) with (games (heap s)).
  by destruct (games (heap s) !! g).
Qed.

Lemma counted_counted g n m s gm :
  games (heap s) !! g = Some gm ->
  counted g m (counted g n s) = counted g (n + m) s.
Proof.
  intros H. unfold counted at 1. rewrite (counted_lookup g n s gm H).
  unfold counted. rewrite H. unfold store_game, with_heap, with_games.
  cbn [heap games ents clock trace]. rewrite insert_insert_eq.
  unfold with_renders. cbn [frameCounter _lastFrameTotalRenders].
  by rewrite Z.add_assoc.
Qed.

Lemma counted_put g s gm :
  games (heap s) !! g = Some gm ->
  store_game g (with_renders (_lastFrameTotalRenders gm + 1) gm) s
  = counted g 1 s.
Proof. intros H. unfold counted. by rewrite H. Qed.

Lemma render_events_app l l' :
  render_events (l ++ l') = render_events l ++ render_events l'.
Proof. unfold render_events. by rewrite map_app, concat_app. Qed.

(** [forEach] over a child array that the callback leaves alone, the
    callback adding to the trace and to the render counter. *)
Lemma forEach_from_counted g cb this s e (pre : loc -> list loc) :
  ents (heap s) !! this = Some e ->
  (forall c, c ∈ children e ->
     forall n t,
       cb c (counted g n (log t s))
       = Ok tt (counted g (n + Z.of_nat (length (pre c)))
                  (log (t ++ render_events (pre c)) s))) ->
  forall m k n t,
    let L := List.concat (List.map pre (take m (drop k (children e)))) in
    forEach_from cb this k m (counted g n (log t s))
    = Ok tt (counted g (n + Z.of_nat (length L))
               (log (t ++ render_events L) s)).
Proof.
  intros He Hcb. induction m as [|m IH]; intros k n t L.
  - subst L. cbn [forEach_from take List.map List.concat length render_events].
    by rewrite app_nil_r, Z.add_0_r.
  - cbn [forEach_from].
    assert (He' : ents (heap (counted g n (log t s))) !! this = Some e)
      by (by rewrite counted_ents).
    rewrite (bind_Ok _ _ _ _ _ (get_ent_Some _ _ _ He')).
    destruct (children e !! k) as [c|] eqn:Hk.
    + subst L. rewrite (drop_S _ _ _ Hk). cbn [take List.map List.concat].
      rewrite (bind_Ok _ _ _ _ _ (Hcb c (list_elem_of_lookup_2 _ _ _ Hk) n t)).
      rewrite IH. rewrite length_app, render_events_app, app_assoc.
      by rewrite Nat2Z.inj_add, Z.add_assoc.
    + rewrite (bind_Ok _ _ _ _ _
                 (eq_refl : ret tt (counted g n (log t s)) = Ok tt _)).
      rewrite IH. subst L. apply lookup_ge_None in Hk.
      rewrite (drop_ge _ k), (drop_ge _ (S k)) by lia. by destruct m.
Qed.

Section Counting.

Variable render_impl : hook -> loc -> Heap -> JSVal * Heap.
Variable g : loc.
Variable h : hook.

(** The hook [h] draws and leaves the store alone. *)
Hypothesis draws : forall x hp, render_impl h x hp = (VBool true, hp).

(** X14. A render frame over a finite tree of displayed entities of one
    scene, each with a render hook that draws and leaves the store alone,
    returns, given the depth of the tree as fuel: every entity is entered
    and calls its hook, parents before children, and the render counter of
    the scene ends higher by the number of the entities of the tree; no
    entity is changed. *)
Theorem render_counts_the_tree d :
  forall this fuel s gm,
    all_below (drawn g h) d (ents (heap s)) this = true ->
    games (heap s) !! g = Some gm ->
    (d <= fuel)%nat ->
    _renderEntity render_impl fuel this s
    = Ok tt (counted g (Z.of_nat (length (preorder d (kids s) this)))
               (log (render_events (preorder d (kids s) this)) s)).
Proof.
  induction d as [|d IH]; intros this fuel s gm Hall Hg Hle; [done|].
  destruct fuel as [|fuel]; [lia|].
  destruct (all_below_inv _ _ _ _ Hall) as (e & He & Hdrawn & Hch).
  unfold drawn in Hdrawn.
  apply andb_true_iff in Hdrawn as [[Hd Hr]%andb_true_iff Hgame].
  apply bool_decide_eq_true in Hr, Hgame.
  rewrite _renderEntity_unfold. unfold bind at 1. cbn [emit].
  change (mkState (heap s) (clock s) (trace s ++ [ERender this]))
    with (log [ERender this] s).
  set (s2 := log [ERender this; ERenderHook this] s).
  assert (Hrun : run_render render_impl this (log [ERender this] s)
                 = Ok (VBool true) s2).
  { unfold run_render.
    assert (He0 : ents (heap (log [ERender this] s)) !! this = Some e)
      by exact He.
    rewrite (bind_Ok _ _ _ _ _ (get_ent_Some _ _ _ He0)), Hd, Hr.
    unfold call_render, bind, emit. cbn [heap clock trace log].
    rewrite draws. unfold s2, log, with_heap. cbn [heap clock trace].
    by rewrite <- app_assoc. }
  rewrite (bind_Ok _ _ _ _ _ Hrun). cbn [truthy].
  assert (He2 : ents (heap s2) !! this = Some e) by exact He.
  assert (Hg2 : games (heap s2) !! g = Some gm) by exact Hg.
  assert (Hcount : count_render this s2 = Ok tt (counted g 1 s2)).
  { unfold count_render.
    rewrite (bind_Ok _ _ _ _ _ (get_ent_Some _ _ _ He2)), Hgame.
    rewrite (bind_Ok _ _ _ _ _ (get_game_Some _ _ _ Hg2)).
    unfold put_game. by rewrite (counted_put g s2 gm Hg2). }
  rewrite (bind_Ok _ _ _ _ _ Hcount).
  assert (He3 : ents (heap (counted g 1 s2)) !! this = Some e)
    by (by rewrite counted_ents).
  unfold render_children.
  rewrite (bind_Ok _ _ _ _ _ (get_ent_Some _ _ _ He3)). cbn [truthy orb].
  unfold forEach_children.
  rewrite (bind_Ok _ _ _ _ _ (get_ent_Some _ _ _ He3)).
  unfold s2.
  rewrite (forEach_from_counted g _ this s e (preorder d (kids s)) He).
  - rewrite drop_0, take_ge by done.
    cbn [preorder]. rewrite (kids_lookup _ _ _ He).
    cbn [length]. rewrite Nat2Z.inj_succ, <- Z.add_1_l.
    change (render_events (this :: ?l))
      with ([ERender this; ERenderHook this] ++ render_events l).
    done.
  - intros c Hc n t.
    rewrite (IH c fuel (counted g n (log t s))
               (with_renders (_lastFrameTotalRenders gm + n) gm)).
    + assert (Hk : kids (counted g n (log t s)) = kids s)
        by (unfold kids; by rewrite counted_ents).
      rewrite Hk, <- counted_log, log_log.
      by rewrite (counted_counted g n _ (log (t ++ _) s) gm Hg).
    + rewrite counted_ents. by apply Hch.
    + by apply counted_lookup.
    + lia.
Qed.

End Counting.

(** In [scene_gallery] a render frame enters the parent and its two
    children, each calls its hook, and the counter of the scene goes from
    0 to 3. *)
Lemma render_counts_the_tree_witness :
  let s := final (scene_gallery empty_state) in
  exists s' gm,
    _renderEntity demo_render 2 1 s = Ok tt s'
    /\ games (heap s') !! 1%positive = Some gm
    /\ _lastFrameTotalRenders gm = 3%Z
    /\ trace s'
       = trace s ++ render_events [1%positive; 2%positive; 3%positive].
Proof.
  intros s. eexists _, _. split.
  - eapply (render_counts_the_tree demo_render 1%positive 1%nat
              ltac:(reflexivity) 2 1%positive 2 s).
    + vm_compute. reflexivity.
    + vm_compute. reflexivity.
    + lia.
  - split; [vm_compute; reflexivity|]. split; vm_compute; reflexivity.
Defined.

(** ** Reads in any order *)

Lemma resolve_Some_mono d :
  forall d' s z r,
    resolve d s z = Some r -> (d <= d')%nat -> resolve d' s z = Some r.
Proof.
  induction d as [|d IH]; intros d' s z r H Hle; [done|].
  destruct d' as [|d']; [lia|]. cbn [resolve] in *.
  destruct (ents (heap s) !! z) as [e|]; [|done]. cbn in *.
  destruct (cache_current s e); [done|].
  destruct (_parent e) as [p|]; [|done].
  destruct (resolve d s p) as [rp|] eqn:E; [|done].
  rewrite (IH d' s p rp E); [done|lia].
Qed.

Lemma resolve_det d d' s z r r' :
  resolve d s z = Some r -> resolve d' s z = Some r' -> r = r'.
Proof.
  intros H H'.
  apply (resolve_Some_mono d (d + d')) in H; [|lia].
  apply (resolve_Some_mono d' (d + d')) in H'; [|lia]. congruence.
Qed.

Lemma resolve_heap s s' :
  heap s = heap s' -> forall d z, resolve d s z = resolve d s' z.
Proof.
  intros Hh. induction d as [|d IH]; intros z; [done|].
  cbn [resolve]. rewrite <- Hh.
  destruct (ents (heap s) !! z) as [e|]; [|done]. cbn.
  assert (Hc : cache_current s' e = cache_current s e)
    by (unfold cache_current; by rewrite Hh).
  rewrite Hc. destruct (cache_current s e); [done|].
  destruct (_parent e); [by rewrite IH|done].
Qed.

Lemma chain_ok_heap s s' :
  heap s = heap s' -> forall d z, chain_ok d s z = chain_ok d s' z.
Proof.
  intros Hh. apply chain_ok_ext; [by rewrite Hh|]. intros l. by rewrite Hh.
Qed.

Lemma chain_ok_same_but_cache s s' :
  same_but_cache s s' -> forall d z, chain_ok d s z = chain_ok d s' z.
Proof.
  intros H. apply chain_ok_ext.
  - by destruct H as (_ & _ & Hg & _).
  - intros l. apply uncached_links. by apply same_but_cache_lookup.
Qed.

(** One read returns the resolved position and settles caches. *)
Lemma calc_effect d :
  forall x fuel s,
    chain_ok d s x = true ->
    (d <= fuel)%nat ->
    exists r s',
      _calculateRelativePos fuel x s = Ok r s'
      /\ resolve d s x = Some r
      /\ settles s s'.
Proof.
  induction d as [|d IH]; intros x fuel s Hok Hle; [done|].
  destruct (chain_ok_inv _ _ _ Hok) as (e & He & Hpar).
  destruct (calc_full (S d) x s fuel e Hok Hle He)
    as (r & s1 & Hr & Hcur & Hstale).
  exists r, s1. split; [done|]. cbn [resolve]. rewrite He. cbn.
  destruct (cache_current s e) eqn:Hc.
  - destruct (Hcur eq_refl) as [-> ->]. split; [done|].
    split; [done|]. intros z. by left.
  - destruct (Hstale eq_refl) as (g & gm & sp & Hg & Hgm & -> & Hv).
    destruct (_parent e) as [p|] eqn:Hp.
    + destruct Hv as (rp & Hrp & ->).
      destruct (IH p (pred fuel) s Hpar ltac:(lia))
        as (rp' & sp' & Hrp' & Hres & Hgs & Hset).
      rewrite Hrp in Hrp'. injection Hrp' as <- <-.
      rewrite Hres. split; [done|]. split; [exact Hgs|].
      intros z. destruct (decide (z = x)) as [->|Hne].
      * right. exists e, g, gm, (Vector2D.add (pos e) rp), (S d).
        do 3 (split; [done|]). split; [|apply store_lookup_eq].
        cbn [resolve]. rewrite He. cbn. by rewrite Hc, Hp, Hres.
      * rewrite store_lookup_ne by done. apply Hset.
    + destruct Hv as [-> ->]. split; [done|]. split; [done|].
      intros z. destruct (decide (z = x)) as [->|Hne].
      * right. exists e, g, gm, (pos e), (S d).
        do 3 (split; [done|]). split; [|apply store_lookup_eq].
        cbn [resolve]. rewrite He. cbn. by rewrite Hc, Hp.
      * left. by rewrite store_lookup_ne.
Qed.

(** Settled caches hold what the positions resolved to. *)
Lemma settles_resolve s s' :
  settles s s' ->
  forall d z r, resolve d s z = Some r -> resolve d s' z = Some r.
Proof.
  intros [Hgs Hset]. induction d as [|d IH]; intros z r H; [done|].
  destruct (Hset z) as [Hz|(e & g & gm & r' & d' & He & Hg & Hgm & Hr' & Hz)].
  - cbn [resolve] in *. rewrite Hz.
    destruct (ents (heap s) !! z) as [e|]; [|done]. cbn in *.
    assert (Hc : cache_current s' e = cache_current s e)
      by (unfold cache_current; by rewrite Hgs).
    rewrite Hc. destruct (cache_current s e); [done|].
    destruct (_parent e) as [p|]; [|done].
    destruct (resolve d s p) as [rp|] eqn:E; [|done].
    by rewrite (IH p rp E).
  - rewrite (resolve_det _ _ _ _ _ _ H Hr').
    cbn [resolve]. rewrite Hz. cbn.
    unfold cache_current. cbn [_game with_lastRelativePosCalculated
      with_relativePos _lastRelativePosCalculated _relativePos].
    by rewrite Hg, Hgs, Hgm, Z.ltb_irrefl.
Qed.

Lemma agrees_refl s : agrees s s.
Proof. split; [reflexivity|done]. Qed.

(** A read made after other reads returns what the position resolved to
    before them. *)
Lemma read_agrees d x fuel s s1 r :
  agrees s s1 ->
  chain_ok d s x = true ->
  (d <= fuel)%nat ->
  resolve d s x = Some r ->
  exists s2,
    _calculateRelativePos fuel x s1 = Ok r s2
    /\ relativeLeft fuel x s1 = Ok (Vector2D.x r) s2
    /\ relativeTop fuel x s1 = Ok (Vector2D.y r) s2
    /\ agrees s s2.
Proof.
  intros [Hsame Hres] Hok Hle Hr.
  rewrite (chain_ok_same_but_cache _ _ Hsame) in Hok.
  destruct (calc_effect d x fuel s1 Hok Hle) as (r1 & s2 & Hr1 & Hres1 & Hset).
  rewrite (Hres _ _ _ Hr) in Hres1. injection Hres1 as <-.
  exists s2. split; [done|]. unfold relativeLeft, relativeTop.
  rewrite !(bind_Ok _ _ _ _ _ Hr1). do 2 (split; [done|]). split.
  - etrans; [exact Hsame|].
    exact (keeps_Ok _ _ _ _ _ (calc_keeps_cache fuel x) Hr1).
  - intros d' z r' H. apply (settles_resolve _ _ Hset). by apply Hres.
Qed.

(** ** C1: the pull of one field *)

Lemma uncached_rest e e' :
  uncached e' = uncached e ->
  velocity e' = velocity e /\ acceleration e' = acceleration e
  /\ mass e' = mass e /\ update e' = update e /\ children e' = children e.
Proof.
  destruct e, e'. unfold uncached, with_lastRelativePosCalculated,
    with_relativePos. cbn. intros [=]. by subst.
Qed.

Section Pull.

Variable Math_pow : float -> float -> float.
Variable update_impl : hook -> loc -> float -> Heap -> JSVal * Heap.

(** The call after the own step of an entity without update hook. *)
Lemma _updateEntity_after_own fuel delta this s s' e' :
  own_update Math_pow update_impl fuel delta this s = Ok VUndefined s' ->
  ents (heap s') !! this = Some e' ->
  _updateEntity Math_pow update_impl (S fuel) delta this s
  = forEach_children (_updateEntity Math_pow update_impl fuel delta) this s'
  /\ (children e' = [] ->
      _updateEntity Math_pow update_impl (S fuel) delta this s = Ok tt s').
Proof.
  intros Hown He'.
  assert (H : _updateEntity Math_pow update_impl (S fuel) delta this s
              = forEach_children
                  (_updateEntity Math_pow update_impl fuel delta) this s').
  { rewrite _updateEntity_own, (bind_Ok _ _ _ _ _ Hown).
    unfold update_children.
    by rewrite (bind_Ok _ _ _ _ _ (get_ent_Some _ _ _ He')). }
  split; [done|]. intros Hnil. rewrite H. unfold forEach_children.
  rewrite (bind_Ok _ _ _ _ _ (get_ent_Some _ _ _ He')). by rewrite Hnil.
Qed.

(** C1, as amended. Take an entity that is not about to expire and has no
    update hook. If its velocity is zero, its own step of [_updateEntity]
    changes no object: the velocity stays zero, the position stays, and the
    fields are not even read; the call then goes on with the children, and
    is over if there is none. If its velocity [v] is not zero, its stored
    acceleration is zero and it has exactly one field, of mass [m], the
    relative positions of the field and of the entity resolving to [F] and
    [P] along chains of parents that are in order, whether their caches are
    current or not: then, with [D = F - P], its own step leaves it with the
    velocity [v + D * (m / (D.D)^1.5) * delta] and moves it by that
    velocity times [delta]; beside this, nothing but caches of relative
    positions has changed, and the call goes on with the children
    likewise. *)
Theorem field_force_needs_motion delta this s e :
  ents (heap s) !! this = Some e ->
  ttl_set (timeToLive e) = false ->
  update e = None ->
  let s0 := mkState (heap s) (clock s) (trace s ++ [EUpdate this]) in
  (moving (velocity e) = false ->
   forall fuel,
     own_update Math_pow update_impl fuel delta this s = Ok VUndefined s0
     /\ _updateEntity Math_pow update_impl (S fuel) delta this s
        = forEach_children
            (_updateEntity Math_pow update_impl fuel delta) this s0
     /\ (children e = [] ->
         _updateEntity Math_pow update_impl (S fuel) delta this s = Ok tt s0))
  /\ (moving (velocity e) = true ->
      forall d fuel field f F P,
        ents (heap s) !! field = Some f ->
        fields e = [field] ->
        acceleration e = Vector2D.mk 0 0 ->
        chain_ok d s this = true ->
        chain_ok d s field = true ->
        (d <= fuel)%nat ->
        resolve d s field = Some F ->
        resolve d s this = Some P ->
        let D := Vector2D.mk
            (Vector2D.x F - Vector2D.x P)%float
            (Vector2D.y F - Vector2D.y P)%float in
        let v' := Vector2D.add (velocity e)
            (Vector2D.add (Vector2D.mk 0 0)
               (Vector2D.add (Vector2D.mk 0 0)
                  (field_kick Math_pow (to_number (mass f)) D delta))) in
        let p' := Vector2D.mk
            (Vector2D.x (pos e) + Vector2D.x v' * delta)%float
            (Vector2D.y (pos e) + Vector2D.y v' * delta)%float in
        exists s1 e1,
          only_caches_differ s0 s1
          /\ ents (heap s1) !! this = Some e1
          /\ let s' := store this (with_pos p' (with_velocity v' e1)) s1 in
             own_update Math_pow update_impl fuel delta this s
             = Ok VUndefined s'
             /\ _updateEntity Math_pow update_impl (S fuel) delta this s
                = forEach_children
                    (_updateEntity Math_pow update_impl fuel delta) this s'
             /\ (children e = [] ->
                 _updateEntity Math_pow update_impl (S fuel) delta this s
                 = Ok tt s')).
Proof.
  intros He Httl Hup s0.
  assert (He0 : ents (heap s0) !! this = Some e) by exact He.
  assert (Hexp : expire this s0 = Ok tt s0).
  { apply (expire_fresh this s0 e He0). now rewrite Httl. }
  split; intros Hm.
  - intros fuel.
    assert (Hown : own_update Math_pow update_impl fuel delta this s
                   = Ok VUndefined s0).
    { unfold own_update. unfold bind at 1. cbn [emit]. fold s0.
      rewrite (bind_Ok _ _ _ _ _ Hexp).
      rewrite (bind_Ok _ _ _ _ _ (integrate_still Math_pow fuel delta this s0 e He0 Hm)).
      unfold run_update.
      rewrite (bind_Ok _ _ _ _ _ (get_ent_Some this e s0 He0)). now rewrite Hup. }
    split; [done|]. exact (_updateEntity_after_own _ _ _ _ _ _ Hown He0).
  - intros d fuel field f F P Hf Hfs Hacc Hokt Hokf Hle HF HP D v' p'.
    assert (Hheap : heap s = heap s0) by reflexivity.
    rewrite (chain_ok_heap _ _ Hheap) in Hokt, Hokf.
    rewrite (resolve_heap _ _ Hheap) in HF, HP.
    (* the four reads *)
    destruct (read_agrees d field fuel s0 s0 F (agrees_refl s0) Hokf Hle HF)
      as (s2 & _ & Hfl & _ & A2).
    destruct (read_agrees d this fuel s0 s2 P A2 Hokt Hle HP)
      as (s3 & _ & Hsl & _ & A3).
    destruct (read_agrees d field fuel s0 s3 F A3 Hokf Hle HF)
      as (s4 & _ & _ & Hft & A4).
    destruct (read_agrees d this fuel s0 s4 P A4 Hokt Hle HP)
      as (s5 & _ & _ & Hst & [Hsame _]).
    assert (Hf0 : ents (heap s0) !! field = Some f) by exact Hf.
    destruct (same_but_cache_Some _ _ _ _ Hsame Hf0) as (f5 & Hf5 & Huf).
    destruct (same_but_cache_Some _ _ _ _ Hsame He0) as (e5 & He5 & Hue).
    destruct (uncached_rest _ _ Huf) as (_ & _ & Hmass & _).
    destruct (uncached_rest _ _ Hue) as (Hvel & Hacc5 & _ & Hup5 & Hch5).
    destruct (uncached_eq _ _ Hue) as (Hpos5 & _).
    assert (Hloop : fields_loop Math_pow fuel delta this [field]
                      (Vector2D.mk 0 0) s0
                    = Ok (Vector2D.add (Vector2D.mk 0 0)
                            (field_kick Math_pow (to_number (mass f)) D delta))
                         s5).
    { cbn [fields_loop].
      rewrite (bind_Ok _ _ _ _ _ Hfl), (bind_Ok _ _ _ _ _ Hsl).
      rewrite (bind_Ok _ _ _ _ _ Hft), (bind_Ok _ _ _ _ _ Hst).
      rewrite (bind_Ok _ _ _ _ _ (get_ent_Some _ _ _ Hf5)).
      by rewrite Hmass. }
    assert (Hcalc : _calculateFields Math_pow fuel delta this s0
                    = Ok (Vector2D.add (Vector2D.mk 0 0)
                            (Vector2D.add (Vector2D.mk 0 0)
                               (field_kick Math_pow (to_number (mass f)) D
                                  delta))) s5).
    { unfold _calculateFields.
      rewrite (bind_Ok _ _ _ _ _ (get_ent_Some _ _ _ He0)), Hfs.
      rewrite (bind_Ok _ _ _ _ _ Hloop).
      rewrite (bind_Ok _ _ _ _ _ (get_ent_Some _ _ _ He5)).
      by rewrite Hacc5, Hacc. }
    set (s' := store this (with_pos p' (with_velocity v' e5)) s5).
    assert (Hint : integrate Math_pow fuel delta this s0 = Ok tt s').
    { unfold integrate.
      rewrite (bind_Ok _ _ _ _ _ (get_ent_Some _ _ _ He0)), Hm.
      rewrite (bind_Ok _ _ _ _ _ Hcalc).
      rewrite (bind_Ok _ _ _ _ _ (modify_ent_Some _ _ _ _ He5)).
      rewrite (bind_Ok _ _ _ _ _
                 (modify_ent_Some _ _ _ _ (store_lookup_eq _ _ _))).
      rewrite (modify_ent_Some _ _ _ _ (store_lookup_eq _ _ _)).
      rewrite !store_store. unfold s', p', v'.
      cbn [pos velocity with_pos with_velocity Vector2D.x Vector2D.y].
      by rewrite Hvel, Hpos5. }
    assert (He' : ents (heap s') !! this
                  = Some (with_pos p' (with_velocity v' e5)))
      by apply store_lookup_eq.
    assert (Hown : own_update Math_pow update_impl fuel delta this s
                   = Ok VUndefined s').
    { unfold own_update. unfold bind at 1. cbn [emit]. fold s0.
      rewrite (bind_Ok _ _ _ _ _ Hexp), (bind_Ok _ _ _ _ _ Hint).
      unfold run_update. rewrite (bind_Ok _ _ _ _ _ (get_ent_Some _ _ _ He')).
      cbn [update with_pos with_velocity]. by rewrite Hup5, Hup. }
    exists s5, e5. split; [by apply same_but_cache_only|].
    split; [done|]. cbn zeta. fold s'. split; [done|].
    destruct (_updateEntity_after_own _ _ _ _ _ _ Hown He') as [H1 H2].
    split; [done|]. intros Hnil. apply H2.
    cbn [children with_pos with_velocity]. by rewrite Hch5.
Qed.

End Pull.

(** In [scene_field_in_game] neither cache is current. With the velocity
    (1, 0) the entity ends its own step of [_updateEntity(2)] with the
    velocity (2.2, 1.6), at (4.4, 3.2), up to the last binary digit, and,
    having no child, the call is over. *)
Lemma field_force_needs_motion_witness :
  let s := final (scene_field_in_game (Vector2D.mk 1 0) empty_state) in
  exists s' e',
    own_update demo_pow demo_update 1 2 1 s = Ok VUndefined s'
    /\ _updateEntity demo_pow demo_update 2 2 1 s = Ok tt s'
    /\ ents (heap s') !! 1%positive = Some e'
    /\ velocity e' = Vector2D.mk 0x1.199999999999ap+1 0x1.999999999999ap+0
    /\ pos e' = Vector2D.mk 0x1.199999999999ap+2 0x1.999999999999ap+1.
Proof.
  intros s.
  edestruct (field_force_needs_motion demo_pow demo_update 2 1 s) as [_ H].
  - vm_compute. reflexivity.
  - reflexivity.
  - reflexivity.
  - edestruct (H eq_refl 1%nat 1%nat 2%positive)
      as (s1 & e1 & _ & _ & Hown & _ & Hfull).
    + vm_compute. reflexivity.
    + reflexivity.
    + reflexivity.
    + vm_compute. reflexivity.
    + vm_compute. reflexivity.
    + lia.
    + vm_compute. reflexivity.
    + vm_compute. reflexivity.
    + do 2 eexists. split; [exact Hown|]. split; [apply Hfull; reflexivity|].
      split; [apply store_lookup_eq|]. split; vm_compute; reflexivity.
Defined.
